(** * Radial load flow (powerflow-sim): a shallow embedding of
    [src/services/loadFlowService.ts] and its properties.

    Numbers.  A JavaScript number is an IEEE-754 double; here it is a real
    number ([R]), so rounding, overflow, NaN and the infinities are outside
    the model.  [Math.sqrt], [Math.acos] and [Math.sin] are [sqrt], [acos]
    and [sin] of the standard library, [x ** 2] is [x ^ 2].  The truthiness
    test of [a || b] on a number is written out (zero is falsy), as is the
    one of [s && ...] on a string (the empty string is falsy).

    Maps.  [Map<string, T>] is [gmap string T]: the solver only ever calls
    [get], [set] and [has] on its maps, never iterates over them.  A [Set]
    is a [gset].

    Exceptions.  The solver throws when no SOURCE node exists, and the
    runtime throws a TypeError when a property of [undefined] is read (a
    non-null assertion [x!] has no effect at run time).  Both are results of
    type [outcome]. *)

From Stdlib Require Import Reals Lra Lia.
From stdpp Require Import gmap strings list fin_maps pretty.

Set Default Proof Using "Type".
Set Warnings "-clear-no-such-hyp".

(** ** Data model ([src/types.ts]) *)

Module Conductor.
Record t := mk {
  id : string;
  name : string;
  resistancePerKm : R;
  reactancePerKm : option R;
  maxCurrentAmps : R
}.
End Conductor.

Inductive NodeType := SOURCE | LOAD.

Inductive LoadType := Residential | Commercial | Industrial.

Module NetworkNode.
Record t := mk {
  id : string;
  x : R;
  y : R;
  name : string;
  type : NodeType;
  baseKv : R;
  loadKva : R;
  pf : R;
  loadType : LoadType
}.
End NetworkNode.

Module NetworkEdge.
Record t := mk {
  id : string;
  source : string;
  target : string;
  lengthMeters : R;
  conductorId : string
}.
End NetworkEdge.

Module NodeResult.
Record t := mk {
  nodeId : string;
  voltageKv : R;
  voltagePu : R;
  angleDegrees : R;
  dropPercent : R
}.
End NodeResult.

Module EdgeResult.
Record t := mk {
  edgeId : string;
  currentAmps : R;
  loadingPercent : R;
  powerLossKw : R;
  voltageDropKv : R;
  isForward : bool
}.
End EdgeResult.

Module SystemResult.
Record t := mk {
  totalLoadKva : R;
  totalLossKw : R;
  minVoltagePu : R;
  criticalNodeId : option string;
  feederEfficiency : R;
  longestPathEdgeIds : list string;
  totalSystemLengthMeters : R;
  totalSystemResistanceOhms : R;
  criticalPathLengthMeters : R;
  criticalPathResistanceOhms : R
}.
End SystemResult.

#[global] Instance NodeType_eq_dec : EqDecision NodeType.
Proof. solve_decision. Defined.

(** ** Exceptions *)

Inductive exn := NoSourceNodeFound | TypeError.

Inductive outcome (A : Type) :=
| Return (a : A)
| Throw (e : exn).
Arguments Return {A} a.
Arguments Throw {A} e.

#[global] Instance outcome_bind : MBind outcome := fun A B k m =>
  match m with
  | Return a => k a
  | Throw e => Throw e
  end.

(** [undefined.prop]: reading a property of a missing map entry. *)
Definition deref {A : Type} (o : option A) : outcome A :=
  match o with
  | Some a => Return a
  | None => Throw TypeError
  end.

(** A [for] loop whose body may throw. *)
Fixpoint forEachM {A S : Type} (body : S -> A -> outcome S) (l : list A) (s : S)
  : outcome S :=
  match l with
  | [] => Return s
  | a :: l' => s' ← body s a; forEachM body l' s'
  end.

(** ** The conductor catalog ([src/constants.ts]) *)

Definition CONDUCTORS : list Conductor.t :=
  [ Conductor.mk "rabbit" "Rabbit (50 sqmm)" (5426 / 10000)%R None 180%R;
    Conductor.mk "raccoon" "Raccoon (95 sqmm)" (3656 / 10000)%R None 240%R;
    Conductor.mk "dog" "Dog (100 sqmm)" (2733 / 10000)%R None 300%R;
    Conductor.mk "wolf" "Wolf (150 sqmm)" (1828 / 10000)%R None 410%R;
    Conductor.mk "panther" "Panther (200 sqmm)" (1363 / 10000)%R None 480%R ].

(** [CONDUCTORS[0]]. *)
Definition CONDUCTORS_0 : Conductor.t :=
  Conductor.mk "rabbit" "Rabbit (50 sqmm)" (5426 / 10000)%R None 180%R.

Definition getConductor (id : string) : Conductor.t :=
  match List.find (fun c => String.eqb (Conductor.id c) id) CONDUCTORS with
  | Some c => c
  | None => CONDUCTORS_0
  end.

(** ** Truthiness *)

(** [a || b] on numbers. *)
Definition orElse (a b : R) : R := if Req_dec_T a 0 then b else a.

(** [x || 0] where [x] may be [undefined]. *)
Definition orZero (x : option R) : R :=
  match x with
  | Some a => orElse a 0
  | None => 0%R
  end.

(** A string in a condition. *)
Definition truthy (s : string) : bool := negb (String.eqb s "").

(** ** Phase 1: adjacency and breadth-first search *)

Definition ensureKey (k : string) (adj : gmap string (list NetworkEdge.t))
  : gmap string (list NetworkEdge.t) :=
  match adj !! k with
  | Some _ => adj
  | None => <[k := []]> adj
  end.

(** [adjacency.get(k)?.push(e)] *)
Definition pushEdge (k : string) (e : NetworkEdge.t)
    (adj : gmap string (list NetworkEdge.t)) : gmap string (list NetworkEdge.t) :=
  match adj !! k with
  | Some l => <[k := l ++ [e]]> adj
  | None => adj
  end.

Definition addEdge (adj : gmap string (list NetworkEdge.t)) (e : NetworkEdge.t)
  : gmap string (list NetworkEdge.t) :=
  pushEdge (NetworkEdge.target e) e
    (pushEdge (NetworkEdge.source e) e
       (ensureKey (NetworkEdge.target e)
          (ensureKey (NetworkEdge.source e) adj))).

Definition buildAdjacency (edges : list NetworkEdge.t)
  : gmap string (list NetworkEdge.t) :=
  foldl addEdge ∅ edges.

(** [adjacency.get(currentId) || []] *)
Definition neighbors (adj : gmap string (list NetworkEdge.t)) (currentId : string)
  : list NetworkEdge.t :=
  default [] (adj !! currentId).

Definition isSource (n : NetworkNode.t) : bool :=
  bool_decide (NetworkNode.type n = SOURCE).

Definition findSource (nodes : list NetworkNode.t) : option NetworkNode.t :=
  List.find isSource nodes.

Record BfsState := mkBfs {
  queue : list string;
  visited : gset string;
  parentMap : gmap string (string * NetworkEdge.t);
  levelOrder : list string
}.

Definition neighborOf (currentId : string) (edge : NetworkEdge.t) : string :=
  if String.eqb (NetworkEdge.source edge) currentId
  then NetworkEdge.target edge
  else NetworkEdge.source edge.

(** The body of [for (const edge of neighbors)]. *)
Definition visitEdge (currentId : string) (st : BfsState) (edge : NetworkEdge.t)
  : BfsState :=
  let neighborId := neighborOf currentId edge in
  if decide (neighborId ∈ visited st) then st
  else mkBfs (queue st ++ [neighborId])
             ({[neighborId]} ∪ visited st)
             (<[neighborId := (currentId, edge)]> (parentMap st))
             (levelOrder st).

(** One iteration of [while (queue.length > 0)]. *)
Definition bfsStep (adj : gmap string (list NetworkEdge.t)) (currentId : string)
    (rest : list string) (st : BfsState) : BfsState :=
  foldl (visitEdge currentId)
        (mkBfs rest (visited st) (parentMap st) (levelOrder st ++ [currentId]))
        (neighbors adj currentId).

Fixpoint bfsLoop (fuel : nat) (adj : gmap string (list NetworkEdge.t))
    (st : BfsState) : BfsState :=
  match fuel with
  | O => st
  | S fuel' =>
      match queue st with
      | [] => st
      | currentId :: rest => bfsLoop fuel' adj (bfsStep adj currentId rest st)
      end
  end.

Definition bfsInit (sourceId : string) : BfsState :=
  mkBfs [sourceId] {[sourceId]} ∅ [].

(** Every iteration dequeues one id, and an id is enqueued at most once: the
    source and the endpoints of the edges bound the number of iterations. *)
Definition bfsFuel (edges : list NetworkEdge.t) : nat := S (2 * length edges).

Definition bfs (edges : list NetworkEdge.t) (sourceId : string) : BfsState :=
  bfsLoop (bfsFuel edges) (buildAdjacency edges) (bfsInit sourceId).

(** ** Phase 2: backward sweep (load aggregation) *)

Module Power.
Record t := mk { p : R; q : R }.
End Power.

(** The body of the first [nodes.forEach]: P = S * pf, Q = S * sin(acos(pf)). *)
Definition ownLoad (n : NetworkNode.t) : Power.t :=
  let angle := acos (NetworkNode.pf n) in
  let p := (NetworkNode.loadKva n * NetworkNode.pf n)%R in
  let q := (NetworkNode.loadKva n * sin angle)%R in
  Power.mk p q.

Definition initialLoads (nodes : list NetworkNode.t) : gmap string Power.t :=
  foldl (fun acc n => <[NetworkNode.id n := ownLoad n]> acc) ∅ nodes.

(** The body of the backward loop.  [parentLoad.p += myLoad.p] reads
    [parentLoad.p] first, then [myLoad.p]; either read throws on [undefined]. *)
Definition backwardStep (sourceId : string)
    (parentMap : gmap string (string * NetworkEdge.t))
    (accumulatedLoad : gmap string Power.t) (nodeId : string)
  : outcome (gmap string Power.t) :=
  if String.eqb nodeId sourceId then Return accumulatedLoad
  else match parentMap !! nodeId with
       | None => Return accumulatedLoad
       | Some (parentId, _) =>
           parentLoad ← deref (accumulatedLoad !! parentId);
           myLoad ← deref (accumulatedLoad !! nodeId);
           Return (<[parentId :=
                      Power.mk (Power.p parentLoad + Power.p myLoad)
                               (Power.q parentLoad + Power.q myLoad)]>
                     accumulatedLoad)
       end.

(** [for (let i = levelOrder.length - 1; i >= 0; i--)] *)
Definition backwardSweep (sourceId : string)
    (parentMap : gmap string (string * NetworkEdge.t))
    (levelOrder : list string) (accumulatedLoad : gmap string Power.t)
  : outcome (gmap string Power.t) :=
  forEachM (backwardStep sourceId parentMap) (reverse levelOrder) accumulatedLoad.

(** ** Total system length and resistance *)

Definition totalsStep (acc : R * R) (e : NetworkEdge.t) : R * R :=
  let c := getConductor (NetworkEdge.conductorId e) in
  ((acc.1 + NetworkEdge.lengthMeters e)%R,
   (acc.2 + Conductor.resistancePerKm c * (NetworkEdge.lengthMeters e / 1000))%R).

Definition systemTotals (edges : list NetworkEdge.t) : R * R :=
  foldl totalsStep (0%R, 0%R) edges.

(** ** Phase 3: forward sweep (voltage drop, loss and distance) *)

Record FwdState := mkFwd {
  nodeResults : gmap string NodeResult.t;
  edgeResults : gmap string EdgeResult.t;
  nodeDistances : gmap string R;
  maxDistance : R;
  farthestNodeId : string;
  totalLossKw : R
}.

Definition forwardInit (sourceId : string) (sourceKv : R) : FwdState :=
  mkFwd {[ sourceId := NodeResult.mk sourceId sourceKv 1 0 0 ]}
        ∅
        {[ sourceId := 0%R ]}
        0 sourceId 0.

(** The body of [for (const nodeId of levelOrder)]. *)
Definition forwardStep (sourceId : string) (sourceKv : R)
    (parentMap : gmap string (string * NetworkEdge.t))
    (accumulatedLoad : gmap string Power.t)
    (st : FwdState) (nodeId : string) : outcome FwdState :=
  if String.eqb nodeId sourceId then Return st
  else
    parentInfo ← deref (parentMap !! nodeId);
    let parentId := parentInfo.1 in
    let parentResult := nodeResults st !! parentId in
    let edge := parentInfo.2 in
    let conductor := getConductor (NetworkEdge.conductorId edge) in
    let parentDist := orZero (nodeDistances st !! parentId) in
    let currentDist := (parentDist + NetworkEdge.lengthMeters edge)%R in
    let nodeDistances' := <[nodeId := currentDist]> (nodeDistances st) in
    let far := if Rgt_dec currentDist (maxDistance st)
               then (currentDist, nodeId)
               else (maxDistance st, farthestNodeId st) in
    let isForward := String.eqb (NetworkEdge.source edge) parentId in
    downstreamS ← deref (accumulatedLoad !! nodeId);
    let sMagnitude := sqrt (Power.p downstreamS ^ 2 + Power.q downstreamS ^ 2) in
    parentResult ← deref parentResult;
    let vBase := orElse (NodeResult.voltageKv parentResult) sourceKv in
    let currentAmps :=
      if Rgt_dec sMagnitude 0 then (sMagnitude / (sqrt 3 * vBase))%R else 0%R in
    let rTotal :=
      (Conductor.resistancePerKm conductor * (NetworkEdge.lengthMeters edge / 1000))%R in
    let xTotal :=
      (orZero (Conductor.reactancePerKm conductor)
       * (NetworkEdge.lengthMeters edge / 1000))%R in
    let flowPf :=
      if Rgt_dec sMagnitude 0 then (Power.p downstreamS / sMagnitude)%R else 1%R in
    let flowAngle := acos flowPf in
    let sinPhi := sin flowAngle in
    let vDropLine :=
      (sqrt 3 * currentAmps * (rTotal * flowPf + xTotal * sinPhi) / 1000)%R in
    let nodeVoltageKv := (NodeResult.voltageKv parentResult - vDropLine)%R in
    let nodeVoltagePu := (nodeVoltageKv / sourceKv)%R in
    let lossKw := (3 * currentAmps ^ 2 * rTotal / 1000)%R in
    Return
      (mkFwd
         (<[nodeId := NodeResult.mk nodeId nodeVoltageKv nodeVoltagePu 0
                        ((1 - nodeVoltagePu) * 100)]> (nodeResults st))
         (<[NetworkEdge.id edge :=
              EdgeResult.mk (NetworkEdge.id edge) currentAmps
                (currentAmps / Conductor.maxCurrentAmps conductor * 100)
                lossKw vDropLine isForward]> (edgeResults st))
         nodeDistances' far.1 far.2
         (totalLossKw st + lossKw)).

Definition forwardSweep (sourceId : string) (sourceKv : R)
    (parentMap : gmap string (string * NetworkEdge.t))
    (accumulatedLoad : gmap string Power.t) (levelOrder : list string)
  : outcome FwdState :=
  forEachM (forwardStep sourceId sourceKv parentMap accumulatedLoad)
           levelOrder (forwardInit sourceId sourceKv).

(** ** Phase 4: system statistics and the two paths *)

Record Stats := mkStats {
  minV : R;
  criticalNodeId : option string;
  totalKva : R
}.

(** The body of the second [nodes.forEach]. *)
Definition statsStep (nodeResults : gmap string NodeResult.t)
    (s : Stats) (n : NetworkNode.t) : Stats :=
  let totalKva' := (totalKva s + NetworkNode.loadKva n)%R in
  match nodeResults !! NetworkNode.id n with
  | Some res =>
      if Rlt_dec (NodeResult.voltagePu res) (minV s)
      then mkStats (NodeResult.voltagePu res) (Some (NetworkNode.id n)) totalKva'
      else mkStats (minV s) (criticalNodeId s) totalKva'
  | None => mkStats (minV s) (criticalNodeId s) totalKva'
  end.

Definition systemStats (nodeResults : gmap string NodeResult.t)
    (nodes : list NetworkNode.t) : Stats :=
  foldl (statsStep nodeResults) (mkStats 1 None 0) nodes.

(** [while (curr !== sourceNode.id)] of the longest path.  Every step moves to
    the parent, which the search dequeued earlier: the number of dequeued ids
    bounds the number of steps. *)
Fixpoint walkEdgeIds (fuel : nat) (sourceId : string)
    (parentMap : gmap string (string * NetworkEdge.t))
    (curr : string) (longestPathEdgeIds : list string) : list string :=
  match fuel with
  | O => longestPathEdgeIds
  | S fuel' =>
      if String.eqb curr sourceId then longestPathEdgeIds
      else match parentMap !! curr with
           | None => longestPathEdgeIds
           | Some info =>
               walkEdgeIds fuel' sourceId parentMap info.1
                 (longestPathEdgeIds ++ [NetworkEdge.id info.2])
           end
  end.

Definition reconstructLongestPath (fuel : nat) (sourceId : string)
    (parentMap : gmap string (string * NetworkEdge.t))
    (farthestNodeId : string) : list string :=
  if truthy farthestNodeId && negb (String.eqb farthestNodeId sourceId)
  then walkEdgeIds fuel sourceId parentMap farthestNodeId []
  else [].

(** [while (curr !== sourceNode.id)] of the critical path; the pair is
    (criticalPathLengthMeters, criticalPathResistanceOhms). *)
Fixpoint walkCritical (fuel : nat) (sourceId : string)
    (parentMap : gmap string (string * NetworkEdge.t))
    (curr : string) (acc : R * R) : R * R :=
  match fuel with
  | O => acc
  | S fuel' =>
      if String.eqb curr sourceId then acc
      else match parentMap !! curr with
           | None => acc
           | Some info =>
               let c := getConductor (NetworkEdge.conductorId info.2) in
               walkCritical fuel' sourceId parentMap info.1
                 ((acc.1 + NetworkEdge.lengthMeters info.2)%R,
                  (acc.2 + Conductor.resistancePerKm c
                           * (NetworkEdge.lengthMeters info.2 / 1000))%R)
           end
  end.

Definition reconstructCriticalPath (fuel : nat) (sourceId : string)
    (parentMap : gmap string (string * NetworkEdge.t))
    (criticalNodeId : option string) : R * R :=
  match criticalNodeId with
  | Some c =>
      if truthy c && negb (String.eqb c sourceId)
      then walkCritical fuel sourceId parentMap c (0%R, 0%R)
      else (0%R, 0%R)
  | None => (0%R, 0%R)
  end.

(** ** The solver *)

Record LoadFlow := mkLoadFlow {
  lf_nodeResults : gmap string NodeResult.t;
  lf_edgeResults : gmap string EdgeResult.t;
  lf_systemResult : SystemResult.t
}.

(** [nodeMap] of the source is filled and never read; it is left out. *)
Definition calculateLoadFlow (nodes : list NetworkNode.t)
    (edges : list NetworkEdge.t) (sourceKv : R) : outcome LoadFlow :=
  match findSource nodes with
  | None => Throw NoSourceNodeFound
  | Some sourceNode =>
      let sourceId := NetworkNode.id sourceNode in
      let topo := bfs edges sourceId in
      accumulatedLoad ←
        backwardSweep sourceId (parentMap topo) (levelOrder topo) (initialLoads nodes);
      let totals := systemTotals edges in
      fwd ← forwardSweep sourceId sourceKv (parentMap topo) accumulatedLoad
              (levelOrder topo);
      let stats := systemStats (nodeResults fwd) nodes in
      let fuel := length (levelOrder topo) in
      let longestPathEdgeIds :=
        reconstructLongestPath fuel sourceId (parentMap topo) (farthestNodeId fwd) in
      let critical :=
        reconstructCriticalPath fuel sourceId (parentMap topo) (criticalNodeId stats) in
      Return
        (mkLoadFlow (nodeResults fwd) (edgeResults fwd)
           (SystemResult.mk
              (totalKva stats)
              (totalLossKw fwd)
              (minV stats)
              (criticalNodeId stats)
              (if Rgt_dec (totalKva stats) 0
               then ((1 - totalLossKw fwd / (totalKva stats * (9 / 10) + totalLossKw fwd))
                     * 100)%R
               else 100%R)
              longestPathEdgeIds
              totals.1 totals.2
              critical.1 critical.2))
  end.

(** * Vocabulary of the properties *)

Definition incident (e : NetworkEdge.t) (k : string) : Prop :=
  NetworkEdge.source e = k \/ NetworkEdge.target e = k.

(** Edge [e] joins [a] and [b], in either labelled direction. *)
Definition connects (e : NetworkEdge.t) (a b : string) : Prop :=
  (NetworkEdge.source e = a /\ NetworkEdge.target e = b)
  \/ (NetworkEdge.source e = b /\ NetworkEdge.target e = a).

(** There is a path from [src] to the id along the edge list. *)
Inductive Reachable (edges : list NetworkEdge.t) (src : string) : string -> Prop :=
| reach_root : Reachable edges src src
| reach_step a b e :
    Reachable edges src a -> e ∈ edges -> connects e a b -> Reachable edges src b.

(** The ids met so far, in the order they were met. *)
Definition seen (st : BfsState) : list string := levelOrder st ++ queue st.

(** In a list of ids, every id but the source has a parent entry, and the
    parent stands at an earlier position. *)
Definition ParentsFirst (pm : gmap string (string * NetworkEdge.t)) (src : string)
    (l : list string) : Prop :=
  forall j n, l !! j = Some n -> n ≠ src ->
    exists p e i, pm !! n = Some (p, e) /\ (i < j)%nat /\ l !! i = Some p.

(** The quantities the loop body computes for the segment that ends at a
    node, as functions of the connecting edge, the node's aggregated load and
    the parent's voltage. *)
Section Segment.
Variable sourceKv : R.
Variable edge : NetworkEdge.t.
Variable downstreamS : Power.t.
Variable parentVoltageKv : R.

Definition seg_sMagnitude : R :=
  sqrt (Power.p downstreamS ^ 2 + Power.q downstreamS ^ 2).

Definition seg_currentAmps : R :=
  if Rgt_dec seg_sMagnitude 0
  then (seg_sMagnitude / (sqrt 3 * orElse parentVoltageKv sourceKv))%R
  else 0%R.

Definition seg_rTotal : R :=
  (Conductor.resistancePerKm (getConductor (NetworkEdge.conductorId edge))
   * (NetworkEdge.lengthMeters edge / 1000))%R.

Definition seg_xTotal : R :=
  (orZero (Conductor.reactancePerKm (getConductor (NetworkEdge.conductorId edge)))
   * (NetworkEdge.lengthMeters edge / 1000))%R.

Definition seg_flowPf : R :=
  if Rgt_dec seg_sMagnitude 0
  then (Power.p downstreamS / seg_sMagnitude)%R
  else 1%R.

Definition seg_vDropLine : R :=
  (sqrt 3 * seg_currentAmps
   * (seg_rTotal * seg_flowPf + seg_xTotal * sin (acos seg_flowPf)) / 1000)%R.

Definition seg_nodeVoltageKv : R := (parentVoltageKv - seg_vDropLine)%R.

Definition seg_lossKw : R := (3 * seg_currentAmps ^ 2 * seg_rTotal / 1000)%R.
End Segment.

Definition nodeResultOf (sourceKv : R) (nodeId : string) (edge : NetworkEdge.t)
    (downstreamS : Power.t) (parentVoltageKv : R) : NodeResult.t :=
  let v := seg_nodeVoltageKv sourceKv edge downstreamS parentVoltageKv in
  NodeResult.mk nodeId v (v / sourceKv) 0 ((1 - v / sourceKv) * 100).

Definition edgeResultOf (sourceKv : R) (parentId : string) (edge : NetworkEdge.t)
    (downstreamS : Power.t) (parentVoltageKv : R) : EdgeResult.t :=
  let i := seg_currentAmps sourceKv downstreamS parentVoltageKv in
  EdgeResult.mk (NetworkEdge.id edge) i
    (i / Conductor.maxCurrentAmps (getConductor (NetworkEdge.conductorId edge)) * 100)
    (seg_lossKw sourceKv edge downstreamS parentVoltageKv)
    (seg_vDropLine sourceKv edge downstreamS parentVoltageKv)
    (String.eqb (NetworkEdge.source edge) parentId).

(** The record the solver returns, in terms of its phases. *)
Definition assemble (nodes : list NetworkNode.t) (edges : list NetworkEdge.t)
    (sourceId : string) (fwd : FwdState) : LoadFlow :=
  let topo := bfs edges sourceId in
  let stats := systemStats (nodeResults fwd) nodes in
  let fuel := length (levelOrder topo) in
  let totals := systemTotals edges in
  let critical :=
    reconstructCriticalPath fuel sourceId (parentMap topo) (criticalNodeId stats) in
  mkLoadFlow (nodeResults fwd) (edgeResults fwd)
    (SystemResult.mk
       (totalKva stats)
       (totalLossKw fwd)
       (minV stats)
       (criticalNodeId stats)
       (if Rgt_dec (totalKva stats) 0
        then ((1 - totalLossKw fwd / (totalKva stats * (9 / 10) + totalLossKw fwd))
              * 100)%R
        else 100%R)
       (reconstructLongestPath fuel sourceId (parentMap topo) (farthestNodeId fwd))
       totals.1 totals.2 critical.1 critical.2).

(** Every edge endpoint is the id of a node of the list. *)
Definition validEndpoints (nodes : list NetworkNode.t) (edges : list NetworkEdge.t)
  : Prop :=
  Forall (fun e => NetworkEdge.source e ∈ map NetworkNode.id nodes
                   /\ NetworkEdge.target e ∈ map NetworkNode.id nodes) edges.

(** The demo network of [src/constants.ts]. *)
Definition INITIAL_NODES : list NetworkNode.t :=
  [ NetworkNode.mk "n1" 100 300 "N1 (Source)" SOURCE 11 0 1 Industrial;
    NetworkNode.mk "n2" 300 300 "N2" LOAD 11 50 (9 / 10) Residential;
    NetworkNode.mk "n3" 500 300 "N3" LOAD 11 80 (85 / 100) Commercial;
    NetworkNode.mk "n4" 700 300 "N4" LOAD 11 120 (9 / 10) Industrial;
    NetworkNode.mk "n5" 500 150 "N5" LOAD 11 40 (95 / 100) Residential;
    NetworkNode.mk "n6" 700 150 "N6" LOAD 11 30 (9 / 10) Residential ].

Definition INITIAL_EDGES : list NetworkEdge.t :=
  [ NetworkEdge.mk "e1" "n1" "n2" 500 "dog";
    NetworkEdge.mk "e2" "n2" "n3" 400 "dog";
    NetworkEdge.mk "e3" "n3" "n4" 600 "rabbit";
    NetworkEdge.mk "e4" "n2" "n5" 300 "rabbit";
    NetworkEdge.mk "e5" "n5" "n6" 250 "rabbit" ].

Definition sumList (l : list R) : R := foldr Rplus 0%R l.

(** The sum, over a list of ids, of one component of the accumulated loads. *)
Definition loadSum (f : Power.t -> R) (acc : gmap string Power.t) (l : list string)
  : R :=
  sumList (map (fun k => from_option f 0%R (acc !! k)) l).

(** No load at any id but the source. *)
Definition NoLoad (src : string) (acc : gmap string Power.t) : Prop :=
  forall k v, k ≠ src -> acc !! k = Some v -> Power.p v = 0%R /\ Power.q v = 0%R.

(** Every result of a sweep over a network without load. *)
Definition Flat (sourceKv : R) (st : FwdState) : Prop :=
  (forall k res, nodeResults st !! k = Some res ->
     NodeResult.voltageKv res = sourceKv
     /\ (sourceKv ≠ 0%R ->
         NodeResult.voltagePu res = 1%R /\ NodeResult.dropPercent res = 0%R))
  /\ (forall k er, edgeResults st !! k = Some er ->
        EdgeResult.powerLossKw er = 0%R /\ EdgeResult.currentAmps er = 0%R
        /\ EdgeResult.voltageDropKv er = 0%R).

Definition ZERO_NODES : list NetworkNode.t :=
  [ NetworkNode.mk "n1" 100 300 "N1 (Source)" SOURCE 11 0 1 Industrial;
    NetworkNode.mk "n2" 300 300 "N2" LOAD 11 0 (9 / 10) Residential ].

Definition ZERO_EDGES : list NetworkEdge.t :=
  [ NetworkEdge.mk "e1" "n1" "n2" 500 "dog" ].

(** Section 4.3 of the specification, in its words. *)
Module Spec.

(** Magnitude of the aggregated complex load. *)
Definition magnitude (load : Power.t) : R :=
  sqrt (Power.p load ^ 2 + Power.q load ^ 2).

(** I = S / (sqrt 3 * V), and I = 0 when S = 0. *)
Definition current (s v : R) : R :=
  if Req_dec_T s 0 then 0%R else (s / (sqrt 3 * v))%R.

(** cos phi = P / S, defined as 1 when S = 0. *)
Definition cosPhi (p s : R) : R :=
  if Req_dec_T s 0 then 1%R else (p / s)%R.

(** Per-km values scaled by length / 1000; the reactance defaults to 0. *)
Definition resistance (e : NetworkEdge.t) : R :=
  (Conductor.resistancePerKm (getConductor (NetworkEdge.conductorId e))
   * (NetworkEdge.lengthMeters e / 1000))%R.

Definition reactance (e : NetworkEdge.t) : R :=
  (default 0%R (Conductor.reactancePerKm (getConductor (NetworkEdge.conductorId e)))
   * (NetworkEdge.lengthMeters e / 1000))%R.

(** dV = sqrt 3 * I * (R cos phi + X sin phi) / 1000 *)
Definition drop (i r x cosphi : R) : R :=
  (sqrt 3 * i * (r * cosphi + x * sin (acos cosphi)) / 1000)%R.

(** P_loss = 3 * I^2 * R / 1000 *)
Definition loss (i r : R) : R := (3 * i ^ 2 * r / 1000)%R.

End Spec.

(** A feeder whose first load node sits at exactly zero volts: source "s" at
    0.5426 kV, "a" without load, "b" drawing 542.6 kVA at unity power factor,
    two 1000 m rabbit segments. *)
Definition FB_s : NetworkNode.t :=
  NetworkNode.mk "s" 0 0 "S" SOURCE (5426 / 10000) 0 1 Industrial.
Definition FB_a : NetworkNode.t :=
  NetworkNode.mk "a" 0 0 "A" LOAD (5426 / 10000) 0 1 Residential.
Definition FB_b : NetworkNode.t :=
  NetworkNode.mk "b" 0 0 "B" LOAD (5426 / 10000) (5426 / 10) 1 Residential.
Definition FB_e1 : NetworkEdge.t := NetworkEdge.mk "e1" "s" "a" 1000 "rabbit".
Definition FB_e2 : NetworkEdge.t := NetworkEdge.mk "e2" "a" "b" 1000 "rabbit".
Definition FALLBACK_NODES : list NetworkNode.t := [FB_s; FB_a; FB_b].
Definition FALLBACK_EDGES : list NetworkEdge.t := [FB_e1; FB_e2].

(** What the scan of the node list has established after a prefix. *)
Record StatsInv (M : gmap string NodeResult.t) (pre : list NetworkNode.t)
    (st : Stats) : Prop := {
  st_le_1 : (minV st <= 1)%R;
  st_lower : forall n res,
    n ∈ pre -> M !! NetworkNode.id n = Some res ->
    (minV st <= NodeResult.voltagePu res)%R;
  st_none : criticalNodeId st = None -> minV st = 1%R;
  st_some : forall c,
    criticalNodeId st = Some c ->
    (minV st < 1)%R /\
    exists l1 n l2 res,
      pre = l1 ++ n :: l2 /\ NetworkNode.id n = c /\
      M !! c = Some res /\ NodeResult.voltagePu res = minV st /\
      forall n' res', n' ∈ l1 -> M !! NetworkNode.id n' = Some res' ->
                      (minV st < NodeResult.voltagePu res')%R;
  st_total : totalKva st = sumList (map NetworkNode.loadKva pre)
}.

(** A second SOURCE node, drawing 100 kVA, behind the first. *)
Definition TS_s : NetworkNode.t :=
  NetworkNode.mk "s" 0 0 "S1" SOURCE 11 0 1 Industrial.
Definition TS_a : NetworkNode.t :=
  NetworkNode.mk "a" 0 0 "S2" SOURCE 11 100 1 Industrial.
Definition TS_e : NetworkEdge.t := NetworkEdge.mk "e1" "s" "a" 1000 "rabbit".

(** The sum of the losses of all edge results. *)
Definition totalEdgeLoss (m : gmap string EdgeResult.t) : R :=
  map_fold (fun _ er total => (EdgeResult.powerLossKw er + total)%R) 0%R m.

(** A node that feeds 50 kVA back: loadKva = -50. *)
Definition NEG_s : NetworkNode.t :=
  NetworkNode.mk "s" 0 0 "S" SOURCE 11 0 1 Industrial.
Definition NEG_a : NetworkNode.t :=
  NetworkNode.mk "a" 0 0 "A" LOAD 11 (-50) 1 Residential.
Definition NEG_e : NetworkEdge.t := NetworkEdge.mk "e1" "s" "a" 1000 "rabbit".

(** The edges met when walking parent pointers from a node to the root. *)
Inductive PathToRoot (pm : gmap string (string * NetworkEdge.t)) (src : string)
  : string -> list NetworkEdge.t -> Prop :=
| path_root : PathToRoot pm src src []
| path_step n p e es :
    n ≠ src -> pm !! n = Some (p, e) -> PathToRoot pm src p es ->
    PathToRoot pm src n (e :: es).

(** The same for the loop of the critical path, which adds up the lengths and
    the resistances of the edges of the path. *)
Definition criticalStep (acc : R * R) (e : NetworkEdge.t) : R * R :=
  ((acc.1 + NetworkEdge.lengthMeters e)%R,
   (acc.2 + Conductor.resistancePerKm (getConductor (NetworkEdge.conductorId e))
            * (NetworkEdge.lengthMeters e / 1000))%R).

(** A node whose id is the empty string, 100 m from the source. *)
Definition EMPTY_ID_NODES : list NetworkNode.t :=
  [ NetworkNode.mk "s" 0 0 "S" SOURCE 11 0 1 Industrial;
    NetworkNode.mk "" 0 0 "A" LOAD 11 10 (9 / 10) Residential ].

Definition EMPTY_ID_EDGES : list NetworkEdge.t :=
  [ NetworkEdge.mk "e1" "s" "" 100 "rabbit" ].

(** The demo chain n1 - n2 - n3 - n4. *)
Definition W_s : NetworkNode.t :=
  NetworkNode.mk "n1" 100 300 "N1 (Source)" SOURCE 11 0 1 Industrial.
Definition W_a : NetworkNode.t :=
  NetworkNode.mk "n2" 300 300 "N2" LOAD 11 50 (9 / 10) Residential.
Definition W_b : NetworkNode.t :=
  NetworkNode.mk "n3" 500 300 "N3" LOAD 11 80 (85 / 100) Commercial.
Definition W_c : NetworkNode.t :=
  NetworkNode.mk "n4" 700 300 "N4" LOAD 11 120 (9 / 10) Industrial.
Definition W_e1 : NetworkEdge.t := NetworkEdge.mk "e1" "n1" "n2" 500 "dog".
Definition W_e2 : NetworkEdge.t := NetworkEdge.mk "e2" "n2" "n3" 400 "dog".
Definition W_e3 : NetworkEdge.t := NetworkEdge.mk "e3" "n3" "n4" 600 "rabbit".

(** A chain loaded beyond its capacity: three loads of 1,000,000 kVA at unity
    power factor on 1000 m rabbit segments, fed at 11 kV. *)
Definition X_s : NetworkNode.t :=
  NetworkNode.mk "s" 0 0 "S" SOURCE 11 0 1 Industrial.
Definition X_a : NetworkNode.t :=
  NetworkNode.mk "a" 0 0 "A" LOAD 11 1000000 1 Industrial.
Definition X_b : NetworkNode.t :=
  NetworkNode.mk "b" 0 0 "B" LOAD 11 1000000 1 Industrial.
Definition X_c : NetworkNode.t :=
  NetworkNode.mk "c" 0 0 "C" LOAD 11 1000000 1 Industrial.
Definition X_e1 : NetworkEdge.t := NetworkEdge.mk "e1" "s" "a" 1000 "rabbit".
Definition X_e2 : NetworkEdge.t := NetworkEdge.mk "e2" "a" "b" 1000 "rabbit".
Definition X_e3 : NetworkEdge.t := NetworkEdge.mk "e3" "b" "c" 1000 "rabbit".
Definition X_NODES : list NetworkNode.t := [X_s; X_a; X_b; X_c].
Definition X_EDGES : list NetworkEdge.t := [X_e1; X_e2; X_e3].

(** Two equal loads behind the source; "b" stands before "a" in the node
    list, the edge to "a" before the edge to "b" in the edge list. *)
Definition T_s : NetworkNode.t :=
  NetworkNode.mk "s" 0 0 "S" SOURCE 11 0 1 Industrial.
Definition T_a : NetworkNode.t :=
  NetworkNode.mk "a" 0 0 "A" LOAD 11 50 1 Residential.
Definition T_b : NetworkNode.t :=
  NetworkNode.mk "b" 0 0 "B" LOAD 11 50 1 Residential.
Definition T_ea : NetworkEdge.t := NetworkEdge.mk "ea" "s" "a" 1000 "rabbit".
Definition T_eb : NetworkEdge.t := NetworkEdge.mk "eb" "s" "b" 1000 "rabbit".
Definition T_NODES : list NetworkNode.t := [T_s; T_b; T_a].
Definition T_EDGES : list NetworkEdge.t := [T_ea; T_eb].

(** The same two loads behind segments that share the id "e". *)
Definition DUP_ea : NetworkEdge.t := NetworkEdge.mk "e" "s" "a" 1000 "rabbit".
Definition DUP_eb : NetworkEdge.t := NetworkEdge.mk "e" "s" "b" 1000 "rabbit".
Definition DUP_EDGES : list NetworkEdge.t := [DUP_ea; DUP_eb].

(** What the search has established about the ids met so far. *)
Record TreeInv (edges : list NetworkEdge.t) (src : string) (st : BfsState)
  : Prop := {
  inv_nodup : NoDup (seen st);
  inv_visited : forall x, x ∈ visited st <-> x ∈ seen st;
  inv_head : seen st !! 0%nat = Some src;
  inv_parent : forall n p e,
    parentMap st !! n = Some (p, e) ->
    e ∈ edges /\ connects e p n /\
    exists i j, (i < j)%nat /\ seen st !! i = Some p /\ seen st !! j = Some n;
  inv_has_parent : forall n, n ∈ seen st -> n ≠ src -> is_Some (parentMap st !! n);
  inv_root : parentMap st !! src = None;
  inv_reach : forall n, n ∈ seen st -> Reachable edges src n
}.

(** Every edge at a dequeued id leads to an id already met. *)
Definition Closed (edges : list NetworkEdge.t) (st : BfsState) : Prop :=
  forall a e b, a ∈ levelOrder st -> e ∈ edges -> connects e a b -> b ∈ seen st.

(** The source and the endpoints of all edges: every id the search can meet. *)
Definition endpoints (edges : list NetworkEdge.t) (src : string) : list string :=
  src :: flat_map (fun e => [NetworkEdge.source e; NetworkEdge.target e]) edges.

(** What the forward sweep has established after a prefix of the level
    order. *)
Record FwdInv (src : string) (sourceKv : R)
    (pm : gmap string (string * NetworkEdge.t)) (acc : gmap string Power.t)
    (pre : list string) (st : FwdState) : Prop := {
  fwd_dom : forall k, is_Some (nodeResults st !! k) <-> k = src \/ k ∈ pre;
  fwd_root : nodeResults st !! src = Some (NodeResult.mk src sourceKv 1 0 0);
  fwd_node : forall n, n ∈ pre -> n ≠ src ->
    exists p e load pr,
      pm !! n = Some (p, e) /\ acc !! n = Some load /\
      nodeResults st !! p = Some pr /\
      nodeResults st !! n
      = Some (nodeResultOf sourceKv n e load (NodeResult.voltageKv pr));
  fwd_edge : forall k er, edgeResults st !! k = Some er ->
    exists n p e load pr,
      n ∈ pre /\ n ≠ src /\ pm !! n = Some (p, e) /\ NetworkEdge.id e = k /\
      acc !! n = Some load /\ nodeResults st !! p = Some pr /\
      er = edgeResultOf sourceKv p e load (NodeResult.voltageKv pr);
  fwd_edge_dom : forall n p e, n ∈ pre -> n ≠ src -> pm !! n = Some (p, e) ->
    is_Some (edgeResults st !! NetworkEdge.id e);
  fwd_dist_dom : forall k, is_Some (nodeDistances st !! k) <-> k = src \/ k ∈ pre;
  fwd_dist_root : nodeDistances st !! src = Some 0%R;
  fwd_dist : forall n, n ∈ pre -> n ≠ src ->
    exists p e dp,
      pm !! n = Some (p, e) /\ nodeDistances st !! p = Some dp /\
      nodeDistances st !! n = Some (dp + NetworkEdge.lengthMeters e)%R;
  fwd_far : farthestNodeId st = src \/ farthestNodeId st ∈ pre;
  fwd_far_dist : nodeDistances st !! farthestNodeId st = Some (maxDistance st);
  fwd_max : forall k d, nodeDistances st !! k = Some d -> (d <= maxDistance st)%R
}.

(** * The editor state ([src/hooks/useNetworkState.ts])

    The hook keeps a history of network states; every handler hands a pure
    function of the current history to [setHistory].  These functions are
    the definitions below.  The clock that [createBranch] reads twice is a
    pair of arguments, and the selection that [deleteSelection] clears through
    its callback is returned beside the history. *)

Module NetworkState.
Record t := mk {
  nodes : list NetworkNode.t;
  edges : list NetworkEdge.t
}.
End NetworkState.

Module HistoryState.
Record t := mk {
  past : list NetworkState.t;
  present : NetworkState.t;
  future : list NetworkState.t
}.
End HistoryState.

Inductive SelectionType := NODE | EDGE.

(** [SelectionState] of [src/types.ts]; [null] is [None]. *)
Module SelectionState.
Record t := mk {
  type : option SelectionType;
  id : option string
}.
End SelectionState.

#[global] Instance SelectionType_eq_dec : EqDecision SelectionType.
Proof. solve_decision. Defined.

(** A network file after [JSON.parse]: a field the file lacks is [None]. *)
Module ParsedNetwork.
Record t := mk {
  nodes : option (list NetworkNode.t);
  edges : option (list NetworkEdge.t)
}.
End ParsedNetwork.

Module useNetworkState.

(** [l.slice(-n)] *)
Definition sliceLast {A : Type} (n : nat) (l : list A) : list A :=
  drop (length l - n) l.

Definition pushState (newState : NetworkState.t) (curr : HistoryState.t)
  : HistoryState.t :=
  let newPast := sliceLast 50 (HistoryState.past curr ++ [HistoryState.present curr]) in
  HistoryState.mk newPast newState [].

Definition undo (curr : HistoryState.t) : HistoryState.t :=
  match last (HistoryState.past curr) with
  | None => curr
  | Some previous =>
      let newPast :=
        take (length (HistoryState.past curr) - 1) (HistoryState.past curr) in
      HistoryState.mk newPast previous
        (HistoryState.present curr :: HistoryState.future curr)
  end.

Definition redo (curr : HistoryState.t) : HistoryState.t :=
  match HistoryState.future curr with
  | [] => curr
  | next :: newFuture =>
      HistoryState.mk (HistoryState.past curr ++ [HistoryState.present curr])
        next newFuture
  end.

Definition canUndo (history : HistoryState.t) : bool :=
  bool_decide (0 < length (HistoryState.past history))%nat.

Definition canRedo (history : HistoryState.t) : bool :=
  bool_decide (0 < length (HistoryState.future history))%nat.

(** [{ ...n, x, y }] *)
Definition moveTo (x y : R) (n : NetworkNode.t) : NetworkNode.t :=
  NetworkNode.mk (NetworkNode.id n) x y (NetworkNode.name n) (NetworkNode.type n)
    (NetworkNode.baseKv n) (NetworkNode.loadKva n) (NetworkNode.pf n)
    (NetworkNode.loadType n).

Definition updateNodeMove (id : string) (x y : R) (curr : HistoryState.t)
  : HistoryState.t :=
  let newNodes :=
    map (fun n => if String.eqb (NetworkNode.id n) id then moveTo x y n else n)
        (NetworkState.nodes (HistoryState.present curr)) in
  HistoryState.mk (HistoryState.past curr ++ [HistoryState.present curr])
    (NetworkState.mk newNodes (NetworkState.edges (HistoryState.present curr)))
    [].

Definition updateNode (updatedNode : NetworkNode.t) (curr : HistoryState.t)
  : HistoryState.t :=
  let newNodes :=
    map (fun n => if String.eqb (NetworkNode.id n) (NetworkNode.id updatedNode)
                  then updatedNode else n)
        (NetworkState.nodes (HistoryState.present curr)) in
  HistoryState.mk (HistoryState.past curr ++ [HistoryState.present curr])
    (NetworkState.mk newNodes (NetworkState.edges (HistoryState.present curr)))
    [].

Definition updateEdge (updatedEdge : NetworkEdge.t) (curr : HistoryState.t)
  : HistoryState.t :=
  let newEdges :=
    map (fun e => if String.eqb (NetworkEdge.id e) (NetworkEdge.id updatedEdge)
                  then updatedEdge else e)
        (NetworkState.edges (HistoryState.present curr)) in
  HistoryState.mk (HistoryState.past curr ++ [HistoryState.present curr])
    (NetworkState.mk (NetworkState.nodes (HistoryState.present curr)) newEdges)
    [].

(** The function [deleteSelection] hands to [setHistory], for a selection
    whose id is [id]; the second component is the selection afterwards. *)
Definition deleteSelected (selection : SelectionState.t) (id : string)
    (curr : HistoryState.t) : HistoryState.t * SelectionState.t :=
  let nodes := NetworkState.nodes (HistoryState.present curr) in
  let edges := NetworkState.edges (HistoryState.present curr) in
  let commit newNodes newEdges :=
    (HistoryState.mk (HistoryState.past curr ++ [HistoryState.present curr])
       (NetworkState.mk newNodes newEdges) [],
     SelectionState.mk None None) in
  match SelectionState.type selection with
  | Some NODE =>
      let node := List.find (fun n => String.eqb (NetworkNode.id n) id) nodes in
      if bool_decide (NetworkNode.type <$> node = Some SOURCE)
      then (curr, selection)
      else commit
             (List.filter (fun n => negb (String.eqb (NetworkNode.id n) id)) nodes)
             (List.filter
                (fun e => negb (String.eqb (NetworkEdge.source e) id)
                          && negb (String.eqb (NetworkEdge.target e) id)) edges)
  | Some EDGE =>
      commit nodes
        (List.filter (fun e => negb (String.eqb (NetworkEdge.id e) id)) edges)
  | None => commit nodes edges
  end.

Definition deleteSelection (selection : SelectionState.t) (curr : HistoryState.t)
  : HistoryState.t * SelectionState.t :=
  match SelectionState.id selection with
  | Some id => if truthy id then deleteSelected selection id curr
               else (curr, selection)
  | None => (curr, selection)
  end.

(** [now1] and [now2] are the two readings of [Date.now()], in the order the
    function takes them. *)
Definition createBranch (now1 now2 : Z) (sourceNodeId : string) (sourceKv : R)
    (curr : HistoryState.t) : HistoryState.t :=
  let nodes := NetworkState.nodes (HistoryState.present curr) in
  let edges := NetworkState.edges (HistoryState.present curr) in
  match List.find (fun n => String.eqb (NetworkNode.id n) sourceNodeId) nodes with
  | None => curr
  | Some sourceNode =>
      let newId := "n" +:+ pretty now1 in
      let newNode :=
        NetworkNode.mk newId (NetworkNode.x sourceNode + 100)
          (NetworkNode.y sourceNode + 50)
          ("N" +:+ pretty (length nodes + 1)%nat)
          LOAD sourceKv 10 (9 / 10) Residential in
      let newEdge :=
        NetworkEdge.mk ("e" +:+ pretty now2) sourceNodeId newId 200 "rabbit" in
      HistoryState.mk (HistoryState.past curr ++ [HistoryState.present curr])
        (NetworkState.mk (nodes ++ [newNode]) (edges ++ [newEdge])) []
  end.

Definition reset (curr : HistoryState.t) : HistoryState.t :=
  HistoryState.mk (HistoryState.past curr ++ [HistoryState.present curr])
    (NetworkState.mk INITIAL_NODES INITIAL_EDGES) [].

(** [importNetwork] returns nothing: [None] is its [throw new
    Error("Invalid network data")], which leaves the history as it was. *)
Definition importNetwork (data : ParsedNetwork.t) (curr : HistoryState.t)
  : option HistoryState.t :=
  match ParsedNetwork.nodes data, ParsedNetwork.edges data with
  | Some nodes, Some edges =>
      Some (HistoryState.mk
              (HistoryState.past curr ++ [HistoryState.present curr])
              (NetworkState.mk nodes edges) [])
  | _, _ => None
  end.

End useNetworkState.

(** * The caller ([App.tsx]) *)

Module App.

(** [nodes.find(n => n.type === 'SOURCE')?.baseKv || 11] *)
Definition sourceKv (nodes : list NetworkNode.t) : R :=
  match findSource nodes with
  | Some n => orElse (NetworkNode.baseKv n) 11
  | None => 11%R
  end.

(** The value of the [catch] branch. *)
Definition EMPTY_RESULTS : LoadFlow :=
  mkLoadFlow ∅ ∅ (SystemResult.mk 0 0 0 None 0 [] 0 0 0 0).

(** [try { return calculateLoadFlow(nodes, edges, sourceKv) } catch ...] *)
Definition results (nodes : list NetworkNode.t) (edges : list NetworkEdge.t)
  : LoadFlow :=
  match calculateLoadFlow nodes edges (sourceKv nodes) with
  | Return r => r
  | Throw _ => EMPTY_RESULTS
  end.

(** [handleDelete] and [handleCreateBranch]. *)
Definition handleDelete (selection : SelectionState.t) (curr : HistoryState.t)
  : HistoryState.t * SelectionState.t :=
  useNetworkState.deleteSelection selection curr.

Definition handleCreateBranch (now1 now2 : Z) (sourceNodeId : string)
    (curr : HistoryState.t) : HistoryState.t :=
  useNetworkState.createBranch now1 now2 sourceNodeId
    (sourceKv (NetworkState.nodes (HistoryState.present curr))) curr.

End App.

(** * Vocabulary of the further properties *)

(** Two nodes that agree on the fields the solver reads. *)
Definition sameElectricalData (n n' : NetworkNode.t) : Prop :=
  NetworkNode.id n = NetworkNode.id n'
  /\ NetworkNode.type n = NetworkNode.type n'
  /\ NetworkNode.loadKva n = NetworkNode.loadKva n'
  /\ NetworkNode.pf n = NetworkNode.pf n'.

(** The ids of a list whose parent entry names [n]: the children of [n]. *)
Definition childrenOf (pm : gmap string (string * NetworkEdge.t)) (l : list string)
    (n : string) : list string :=
  List.filter (fun c => bool_decide (fst <$> pm !! c = Some n)) l.

(** History [h'] is history [h] after one committed edit: the network of [h]
    has become the latest entry of the past, and nothing is left to redo. *)
Definition committed (h h' : HistoryState.t) : Prop :=
  HistoryState.past h' = HistoryState.past h ++ [HistoryState.present h]
  /\ HistoryState.future h' = [].

(** The selections [deleteSelection] does nothing for: no id (or an empty
    one), or a node whose id first names a SOURCE node. *)
Definition protectedSelection (selection : SelectionState.t)
    (nodes : list NetworkNode.t) : Prop :=
  match SelectionState.id selection with
  | None => True
  | Some id =>
      id = ""
      \/ (SelectionState.type selection = Some NODE
          /\ exists n, List.find (fun n => String.eqb (NetworkNode.id n) id) nodes
                        = Some n
                       /\ NetworkNode.type n = SOURCE)
  end.

(** The history the hook starts with when nothing is stored: the demo
    network, nothing to undo. *)
Definition INITIAL_HISTORY : HistoryState.t :=
  HistoryState.mk [] (NetworkState.mk INITIAL_NODES INITIAL_EDGES) [].

(** Two outcomes that throw the same error, or return related results. *)
Definition outcome_rel {A : Type} (R : A -> A -> Prop) (o o' : outcome A) : Prop :=
  match o, o' with
  | Return a, Return a' => R a a'
  | Throw e, Throw e' => e = e'
  | _, _ => False
  end.

(** Two nodes of one id and type that agree on load and power factor if the
    id can be reached from [src] and is not [src] itself. *)
Definition sameEnergisedData (edges : list NetworkEdge.t) (src : string)
    (n n' : NetworkNode.t) : Prop :=
  NetworkNode.id n = NetworkNode.id n'
  /\ NetworkNode.type n = NetworkNode.type n'
  /\ (Reachable edges src (NetworkNode.id n) -> NetworkNode.id n ≠ src ->
      NetworkNode.loadKva n = NetworkNode.loadKva n'
      /\ NetworkNode.pf n = NetworkNode.pf n').

(** Two results that agree on everything but the total load and the
    efficiency computed from it. *)
Definition sameButTotalLoad (r r' : LoadFlow) : Prop :=
  lf_nodeResults r = lf_nodeResults r'
  /\ lf_edgeResults r = lf_edgeResults r'
  /\ SystemResult.totalLossKw (lf_systemResult r)
     = SystemResult.totalLossKw (lf_systemResult r')
  /\ SystemResult.minVoltagePu (lf_systemResult r)
     = SystemResult.minVoltagePu (lf_systemResult r')
  /\ SystemResult.criticalNodeId (lf_systemResult r)
     = SystemResult.criticalNodeId (lf_systemResult r')
  /\ SystemResult.longestPathEdgeIds (lf_systemResult r)
     = SystemResult.longestPathEdgeIds (lf_systemResult r')
  /\ SystemResult.totalSystemLengthMeters (lf_systemResult r)
     = SystemResult.totalSystemLengthMeters (lf_systemResult r')
  /\ SystemResult.totalSystemResistanceOhms (lf_systemResult r)
     = SystemResult.totalSystemResistanceOhms (lf_systemResult r')
  /\ SystemResult.criticalPathLengthMeters (lf_systemResult r)
     = SystemResult.criticalPathLengthMeters (lf_systemResult r')
  /\ SystemResult.criticalPathResistanceOhms (lf_systemResult r)
     = SystemResult.criticalPathResistanceOhms (lf_systemResult r').

(** A node without any edge, drawing 500 kVA or nothing. *)
Definition ISLAND_heavy : NetworkNode.t :=
  NetworkNode.mk "n9" 0 0 "N9" LOAD 11 500 (9 / 10) Industrial.
Definition ISLAND_idle : NetworkNode.t :=
  NetworkNode.mk "n9" 0 0 "N9" LOAD 11 0 1 Industrial.

(** Two results that agree on everything but the critical node and the
    figures of its path. *)
Definition sameButCriticalNode (r r' : LoadFlow) : Prop :=
  lf_nodeResults r = lf_nodeResults r'
  /\ lf_edgeResults r = lf_edgeResults r'
  /\ SystemResult.totalLoadKva (lf_systemResult r)
     = SystemResult.totalLoadKva (lf_systemResult r')
  /\ SystemResult.totalLossKw (lf_systemResult r)
     = SystemResult.totalLossKw (lf_systemResult r')
  /\ SystemResult.minVoltagePu (lf_systemResult r)
     = SystemResult.minVoltagePu (lf_systemResult r')
  /\ SystemResult.feederEfficiency (lf_systemResult r)
     = SystemResult.feederEfficiency (lf_systemResult r')
  /\ SystemResult.longestPathEdgeIds (lf_systemResult r)
     = SystemResult.longestPathEdgeIds (lf_systemResult r')
  /\ SystemResult.totalSystemLengthMeters (lf_systemResult r)
     = SystemResult.totalSystemLengthMeters (lf_systemResult r')
  /\ SystemResult.totalSystemResistanceOhms (lf_systemResult r)
     = SystemResult.totalSystemResistanceOhms (lf_systemResult r').

(** * Properties *)

Lemma Return_inj {A : Type} (a b : A) : Return a = Return b -> a = b.
Proof. by intros [= ->]. Qed.

(** ** Generic facts about loops *)

Lemma foldl_invariant {A S : Type} (f : S -> A -> S) (I : S -> Prop) (l : list A) :
  (forall s a, a ∈ l -> I s -> I (f s a)) ->
  forall s, I s -> I (foldl f s l).
Proof.
  induction l as [|a l IH]; intros Hstep s Hs; simpl; [done|].
  apply IH.
  - intros s' a' Ha'. apply Hstep. by right.
  - apply Hstep; [by left | done].
Qed.

Lemma foldl_snoc {A S : Type} (f : S -> A -> S) (l : list A) (a : A) (s : S) :
  foldl f s (l ++ [a]) = f (foldl f s l) a.
Proof. by rewrite foldl_app. Qed.

Lemma forEachM_invariant {A S : Type} (body : S -> A -> outcome S)
    (I : S -> Prop) (l : list A) :
  (forall s a s', a ∈ l -> I s -> body s a = Return s' -> I s') ->
  forall s s', I s -> forEachM body l s = Return s' -> I s'.
Proof.
  induction l as [|a l IH]; intros Hstep s s' Hs Hrun; simpl in Hrun.
  - by inversion Hrun; subst.
  - destruct (body s a) as [s1|] eqn:Hb; simpl in Hrun; [|done].
    apply (IH (fun s0 a0 s0' Ha0 => Hstep s0 a0 s0' (list_elem_of_further _ _ _ Ha0))
              s1 s'); [|done].
    eapply Hstep; [by left | done | done].
Qed.

Lemma forEachM_app {A S : Type} (body : S -> A -> outcome S) (l1 l2 : list A) (s : S) :
  forEachM body (l1 ++ l2) s = (s1 ← forEachM body l1 s; forEachM body l2 s1).
Proof.
  revert s. induction l1 as [|a l1 IH]; intros s; simpl; [done|].
  destruct (body s a); simpl; [apply IH | done].
Qed.

(** A loop whose body never throws on the states it meets returns. *)
Lemma forEachM_returns {A S : Type} (body : S -> A -> outcome S)
    (I : S -> Prop) (l : list A) :
  (forall s a, a ∈ l -> I s -> exists s', body s a = Return s' /\ I s') ->
  forall s, I s -> exists s', forEachM body l s = Return s' /\ I s'.
Proof.
  induction l as [|a l IH]; intros Hstep s Hs; simpl.
  - by exists s.
  - destruct (Hstep s a) as (s1 & Hb & Hs1); [by left | done |].
    rewrite Hb. simpl. apply IH; [|done].
    intros s0 a0 Ha0. apply Hstep. by right.
Qed.

(** ** The adjacency structure lists, under each id, the incident edges *)

Lemma ensureKey_neighbors k' adj k :
  neighbors (ensureKey k' adj) k = neighbors adj k.
Proof.
  unfold neighbors, ensureKey.
  destruct (adj !! k') eqn:Hk'; [done|].
  destruct (decide (k' = k)) as [->|Hne].
  - by rewrite lookup_insert_eq, Hk'.
  - by rewrite lookup_insert_ne.
Qed.

Lemma ensureKey_is_Some k' adj k :
  is_Some (adj !! k) \/ k = k' -> is_Some (ensureKey k' adj !! k).
Proof.
  unfold ensureKey. intros H.
  destruct (adj !! k') eqn:Hk'.
  - destruct H as [H| ->]; [done | by rewrite Hk'].
  - destruct (decide (k' = k)) as [->|Hne].
    + rewrite lookup_insert_eq. eauto.
    + rewrite lookup_insert_ne by done. by destruct H.
Qed.

Lemma pushEdge_is_Some k' e adj k :
  is_Some (adj !! k) -> is_Some (pushEdge k' e adj !! k).
Proof.
  unfold pushEdge. intros H.
  destruct (adj !! k') eqn:Hk'; [|done].
  destruct (decide (k' = k)) as [->|Hne].
  - rewrite lookup_insert_eq. eauto.
  - by rewrite lookup_insert_ne.
Qed.

Lemma pushEdge_neighbors k' e adj k :
  is_Some (adj !! k') ->
  neighbors (pushEdge k' e adj) k
  = neighbors adj k ++ (if decide (k' = k) then [e] else []).
Proof.
  unfold neighbors, pushEdge. intros [l Hl]. rewrite Hl.
  destruct (decide (k' = k)) as [->|Hne].
  - by rewrite lookup_insert_eq, Hl.
  - rewrite lookup_insert_ne by done. by rewrite app_nil_r.
Qed.

Lemma addEdge_neighbors adj e k e' :
  e' ∈ neighbors (addEdge adj e) k
  <-> e' ∈ neighbors adj k \/ (e' = e /\ incident e k).
Proof.
  unfold addEdge, incident.
  rewrite pushEdge_neighbors.
  2:{ apply pushEdge_is_Some, ensureKey_is_Some. by right. }
  rewrite pushEdge_neighbors.
  2:{ apply ensureKey_is_Some. left. apply ensureKey_is_Some. by right. }
  rewrite !ensureKey_neighbors, !elem_of_app.
  destruct (decide (NetworkEdge.source e = k)), (decide (NetworkEdge.target e = k));
    rewrite ?list_elem_of_singleton, ?elem_of_nil; naive_solver.
Qed.

Lemma buildAdjacency_neighbors edges k e :
  e ∈ neighbors (buildAdjacency edges) k <-> e ∈ edges /\ incident e k.
Proof.
  unfold buildAdjacency.
  induction edges as [|e0 edges IH] using rev_ind.
  - simpl. unfold neighbors. rewrite lookup_empty. simpl.
    rewrite !elem_of_nil. naive_solver.
  - rewrite foldl_snoc, addEdge_neighbors, IH, elem_of_app, list_elem_of_singleton.
    naive_solver.
Qed.

(** ** Breadth-first search: the tree it builds *)

Lemma eqb_decide (a b : string) : String.eqb a b = bool_decide (a = b).
Proof.
  destruct (String.eqb_spec a b).
  - by rewrite bool_decide_eq_true_2.
  - by rewrite bool_decide_eq_false_2.
Qed.

Lemma neighborOf_connects e cur : incident e cur -> connects e cur (neighborOf cur e).
Proof.
  unfold incident, connects, neighborOf. rewrite eqb_decide.
  case_bool_decide; naive_solver.
Qed.

Lemma connects_neighborOf e a b : connects e a b -> neighborOf a e = b /\ incident e a.
Proof.
  unfold incident, connects, neighborOf. rewrite eqb_decide.
  case_bool_decide; naive_solver.
Qed.

Section Topology.
Variable edges : list NetworkEdge.t.
Variable src : string.

Lemma TreeInv_init : TreeInv edges src (bfsInit src).
Proof.
  split; unfold seen; simpl.
  - apply NoDup_singleton.
  - intros x. by rewrite elem_of_singleton, list_elem_of_singleton.
  - done.
  - intros n p e H. by rewrite lookup_empty in H.
  - intros n Hn Hne. apply list_elem_of_singleton in Hn. done.
  - apply lookup_empty.
  - intros n Hn. apply list_elem_of_singleton in Hn. subst. constructor.
Qed.

Lemma visitEdge_seen cur st e :
  seen (visitEdge cur st e)
  = seen st ++ (if decide (neighborOf cur e ∈ visited st) then []
                else [neighborOf cur e]).
Proof.
  unfold visitEdge, seen. case_decide; simpl.
  - by rewrite app_nil_r.
  - by rewrite app_assoc.
Qed.

Lemma visitEdge_levelOrder cur st e :
  levelOrder (visitEdge cur st e) = levelOrder st.
Proof. unfold visitEdge. by case_decide. Qed.

Lemma visitEdge_TreeInv cur st e :
  TreeInv edges src st -> cur ∈ levelOrder st -> e ∈ edges -> incident e cur ->
  TreeInv edges src (visitEdge cur st e).
Proof.
  intros [Hnd Hvis Hhd Hpar Hhas Hroot Hreach] Hcur He Hinc.
  pose proof (visitEdge_seen cur st e) as Hseen.
  unfold visitEdge in *.
  destruct (decide (neighborOf cur e ∈ visited st)) as [Hin|Hnin]; [by split|].
  set (nb := neighborOf cur e) in *.
  assert (Hnb : nb ∉ seen st) by (by rewrite <- Hvis).
  assert (Hsrc : src ∈ seen st) by (eapply list_elem_of_lookup_2; exact Hhd).
  assert (Hcur' : cur ∈ seen st) by (unfold seen; apply elem_of_app; by left).
  split; rewrite ?Hseen; simpl.
  - apply NoDup_app. split; [done|]. split; [|apply NoDup_singleton].
    intros x Hx Hx'. apply list_elem_of_singleton in Hx'. by subst.
  - intros x. rewrite elem_of_union, elem_of_singleton, Hvis, elem_of_app,
      list_elem_of_singleton. naive_solver.
  - by apply lookup_app_l_Some.
  - intros n p e' Hlk. destruct (decide (nb = n)) as [<-|Hne].
    + rewrite lookup_insert_eq in Hlk. inversion Hlk; subst p e'.
      split; [done|]. split; [by apply neighborOf_connects|].
      apply list_elem_of_lookup in Hcur' as [i Hi].
      exists i, (length (seen st)). split; [by eapply lookup_lt_Some|].
      split; [by apply lookup_app_l_Some|].
      rewrite lookup_app_r by done. by rewrite Nat.sub_diag.
    + rewrite lookup_insert_ne in Hlk by done.
      destruct (Hpar _ _ _ Hlk) as (He' & Hc & i & j & Hij & Hi & Hj).
      split; [done|]. split; [done|].
      exists i, j. split; [done|]. split; by apply lookup_app_l_Some.
  - intros n Hn Hns. destruct (decide (nb = n)) as [<-|Hne].
    + rewrite lookup_insert_eq. eauto.
    + rewrite lookup_insert_ne by done. apply Hhas; [|done].
      apply elem_of_app in Hn as [Hn|Hn]; [done|].
      apply list_elem_of_singleton in Hn. by subst.
  - rewrite lookup_insert_ne; [done|]. intros ->. done.
  - intros n Hn. apply elem_of_app in Hn as [Hn|Hn]; [by apply Hreach|].
    apply list_elem_of_singleton in Hn. subst n.
    eapply reach_step; [apply (Hreach cur Hcur') | exact He |].
    by apply neighborOf_connects.
Qed.

Lemma visitEdge_seen_mono cur st e x : x ∈ seen st -> x ∈ seen (visitEdge cur st e).
Proof. rewrite visitEdge_seen, elem_of_app. by left. Qed.

Lemma visitEdge_neighbor_seen cur st e :
  TreeInv edges src st -> neighborOf cur e ∈ seen (visitEdge cur st e).
Proof.
  intros Hinv. rewrite visitEdge_seen, elem_of_app. case_decide.
  - left. by apply Hinv.
  - right. by apply list_elem_of_singleton.
Qed.

(** The inner loop over a list of edges at [cur]. *)
Lemma visitEdges_spec cur l :
  forall st,
    TreeInv edges src st -> cur ∈ levelOrder st ->
    (forall e, e ∈ l -> e ∈ edges /\ incident e cur) ->
    let st' := foldl (visitEdge cur) st l in
    TreeInv edges src st' /\ levelOrder st' = levelOrder st
    /\ (forall x, x ∈ seen st -> x ∈ seen st')
    /\ (forall e, e ∈ l -> neighborOf cur e ∈ seen st').
Proof.
  induction l as [|e l IH]; intros st Hinv Hcur Hl; simpl.
  - split; [done|]. split; [done|]. split; [done|]. intros e He. by apply elem_of_nil in He.
  - destruct (Hl e) as [He Hinc]; [by left|].
    pose proof (visitEdge_TreeInv cur st e Hinv Hcur He Hinc) as Hinv1.
    destruct (IH (visitEdge cur st e)) as (Hinv' & Hlo & Hmono & Hnb).
    + done.
    + by rewrite visitEdge_levelOrder.
    + intros e' He'. apply Hl. by right.
    + split; [done|]. split; [by rewrite Hlo, visitEdge_levelOrder|].
      split; [intros x Hx; by apply Hmono, visitEdge_seen_mono|].
      intros e' He'. apply elem_of_cons in He' as [->|He'].
      * by apply Hmono, visitEdge_neighbor_seen.
      * by apply Hnb.
Qed.

Lemma bfsStep_spec cur rest st :
  TreeInv edges src st -> Closed edges st -> queue st = cur :: rest ->
  let st' := bfsStep (buildAdjacency edges) cur rest st in
  TreeInv edges src st' /\ Closed edges st'
  /\ levelOrder st' = levelOrder st ++ [cur].
Proof.
  intros Hinv Hcl Hq. unfold bfsStep.
  set (st1 := mkBfs rest (visited st) (parentMap st) (levelOrder st ++ [cur])).
  assert (Hseen1 : seen st1 = seen st).
  { unfold seen, st1. simpl. by rewrite Hq, <- app_assoc. }
  assert (Hinv1 : TreeInv edges src st1).
  { destruct Hinv. split; rewrite ?Hseen1; done. }
  destruct (visitEdges_spec cur (neighbors (buildAdjacency edges) cur) st1)
    as (Hinv' & Hlo & Hmono & Hnb).
  - done.
  - simpl. apply elem_of_app. right. by apply list_elem_of_singleton.
  - intros e He. by apply buildAdjacency_neighbors.
  - split; [done|]. split; [|done].
    intros a e b Ha He Hc. rewrite Hlo in Ha. simpl in Ha.
    apply elem_of_app in Ha as [Ha|Ha].
    + apply Hmono. rewrite Hseen1. by eapply Hcl.
    + apply list_elem_of_singleton in Ha. subst a.
      apply connects_neighborOf in Hc as [<- Hinc].
      apply Hnb. by apply buildAdjacency_neighbors.
Qed.

Lemma endpoints_length : length (endpoints edges src) = bfsFuel edges.
Proof.
  unfold endpoints, bfsFuel. simpl. f_equal.
  induction edges as [|e l IH]; simpl; [done|]. rewrite IH. lia.
Qed.

Lemma Reachable_endpoints n : Reachable edges src n -> n ∈ endpoints edges src.
Proof.
  unfold endpoints. intros [|a b e _ He Hc]; [by left|]. right.
  apply list_elem_of_In, in_flat_map. exists e.
  split; [by apply list_elem_of_In|].
  destruct Hc as [[_ <-]|[<- _]]; simpl; auto.
Qed.

Lemma seen_bound st : TreeInv edges src st -> (length (seen st) <= bfsFuel edges)%nat.
Proof.
  intros Hinv. rewrite <- endpoints_length.
  apply submseteq_length, NoDup_submseteq; [apply Hinv|].
  intros x Hx. by apply Reachable_endpoints, Hinv.
Qed.

(** The fuel is enough: the loop ends on an empty queue. *)
Lemma bfsLoop_spec fuel :
  forall st,
    TreeInv edges src st -> Closed edges st ->
    (bfsFuel edges <= length (levelOrder st) + fuel)%nat ->
    let st' := bfsLoop fuel (buildAdjacency edges) st in
    TreeInv edges src st' /\ Closed edges st' /\ queue st' = [].
Proof.
  induction fuel as [|fuel IH]; intros st Hinv Hcl Hfuel; simpl.
  - split; [done|]. split; [done|].
    pose proof (seen_bound st Hinv) as Hb. unfold seen in Hb.
    rewrite length_app in Hb. apply nil_length_inv. lia.
  - destruct (queue st) as [|cur rest] eqn:Hq; [done|].
    destruct (bfsStep_spec cur rest st Hinv Hcl Hq) as (Hinv' & Hcl' & Hlo).
    apply IH; [done|done|]. rewrite Hlo, length_app. simpl. lia.
Qed.

Lemma bfs_spec :
  TreeInv edges src (bfs edges src) /\ Closed edges (bfs edges src)
  /\ queue (bfs edges src) = [].
Proof.
  unfold bfs. apply bfsLoop_spec.
  - apply TreeInv_init.
  - intros a e b Ha. by apply elem_of_nil in Ha.
  - simpl. lia.
Qed.

Lemma bfs_seen : seen (bfs edges src) = levelOrder (bfs edges src).
Proof.
  unfold seen. destruct bfs_spec as (_ & _ & ->). by rewrite app_nil_r.
Qed.

(** The traversal order holds exactly the reachable ids, each once, the
    source first. *)
Lemma levelOrder_reachable n :
  n ∈ levelOrder (bfs edges src) <-> Reachable edges src n.
Proof.
  destruct bfs_spec as (Hinv & Hcl & Hq). rewrite <- bfs_seen. split.
  - apply Hinv.
  - induction 1 as [|a b e Ha IH He Hc].
    + eapply list_elem_of_lookup_2. apply Hinv.
    + eapply Hcl; [|exact He|exact Hc]. by rewrite <- bfs_seen.
Qed.

Lemma levelOrder_NoDup : NoDup (levelOrder (bfs edges src)).
Proof. rewrite <- bfs_seen. apply bfs_spec. Qed.

Lemma levelOrder_head : levelOrder (bfs edges src) !! 0%nat = Some src.
Proof. rewrite <- bfs_seen. apply bfs_spec. Qed.

Lemma levelOrder_source : src ∈ levelOrder (bfs edges src).
Proof. eapply list_elem_of_lookup_2, levelOrder_head. Qed.

(** A parent entry is an edge of the input joining the node to an id that
    comes earlier in the traversal order. *)
Lemma parentMap_spec n p e :
  parentMap (bfs edges src) !! n = Some (p, e) ->
  e ∈ edges /\ connects e p n /\ n ≠ src /\
  exists i j, (i < j)%nat /\ levelOrder (bfs edges src) !! i = Some p
              /\ levelOrder (bfs edges src) !! j = Some n.
Proof.
  destruct bfs_spec as (Hinv & _ & _). intros Hlk.
  destruct (inv_parent _ _ _ Hinv _ _ _ Hlk) as (He & Hc & Hord).
  rewrite bfs_seen in Hord. repeat split; try done.
  intros ->. by rewrite (inv_root _ _ _ Hinv) in Hlk.
Qed.

Lemma parentMap_is_Some n :
  n ∈ levelOrder (bfs edges src) -> n ≠ src ->
  is_Some (parentMap (bfs edges src) !! n).
Proof.
  destruct bfs_spec as (Hinv & _ & _). rewrite <- bfs_seen. apply Hinv.
Qed.

Lemma parentMap_child_reachable n p e :
  parentMap (bfs edges src) !! n = Some (p, e) ->
  n ∈ levelOrder (bfs edges src) /\ p ∈ levelOrder (bfs edges src).
Proof.
  intros H. apply parentMap_spec in H as (_ & _ & _ & i & j & _ & Hi & Hj).
  split; by eapply list_elem_of_lookup_2.
Qed.

End Topology.

Lemma bfs_ParentsFirst edges src :
  ParentsFirst (parentMap (bfs edges src)) src (levelOrder (bfs edges src)).
Proof.
  intros j n Hj Hne.
  destruct (parentMap_is_Some edges src n) as [[p e] Hpe];
    [by eapply list_elem_of_lookup_2 | done |].
  destruct (parentMap_spec edges src n p e Hpe) as (_ & _ & _ & i & j' & Hij & Hi & Hj').
  assert (j' = j) as -> by (eapply NoDup_lookup; eauto using levelOrder_NoDup).
  by exists p, e, i.
Qed.

Lemma ParentsFirst_app_l pm src l1 l2 :
  ParentsFirst pm src (l1 ++ l2) -> ParentsFirst pm src l1.
Proof.
  intros H j n Hj Hne.
  destruct (H j n) as (p & e & i & Hpe & Hij & Hi); [by apply lookup_app_l_Some|done|].
  exists p, e, i. split; [done|]. split; [done|].
  rewrite lookup_app_l in Hi; [done|]. apply lookup_lt_Some in Hj. lia.
Qed.

Lemma ParentsFirst_last pm src l n :
  ParentsFirst pm src (l ++ [n]) -> n ≠ src ->
  exists p e, pm !! n = Some (p, e) /\ p ∈ l.
Proof.
  intros H Hne.
  destruct (H (length l) n) as (p & e & i & Hpe & Hij & Hi); [|done|].
  { rewrite lookup_app_r by done. by rewrite Nat.sub_diag. }
  exists p, e. split; [done|].
  rewrite lookup_app_l in Hi by done. by eapply list_elem_of_lookup_2.
Qed.

(** ** Backward sweep *)

Lemma initialLoads_snoc nodes n :
  initialLoads (nodes ++ [n]) = <[NetworkNode.id n := ownLoad n]> (initialLoads nodes).
Proof. unfold initialLoads. by rewrite foldl_snoc. Qed.

Lemma initialLoads_is_Some nodes k :
  is_Some (initialLoads nodes !! k) <-> k ∈ map NetworkNode.id nodes.
Proof.
  induction nodes as [|n nodes IH] using rev_ind.
  - unfold initialLoads. simpl. rewrite lookup_empty, elem_of_nil.
    split; [by intros [? ?] | done].
  - rewrite initialLoads_snoc, map_app, elem_of_app. simpl.
    rewrite list_elem_of_singleton, <- IH.
    destruct (decide (NetworkNode.id n = k)) as [->|Hne].
    + rewrite lookup_insert_eq. naive_solver.
    + rewrite lookup_insert_ne by done. naive_solver.
Qed.

Lemma initialLoads_lookup nodes n :
  NoDup (map NetworkNode.id nodes) -> n ∈ nodes ->
  initialLoads nodes !! NetworkNode.id n = Some (ownLoad n).
Proof.
  induction nodes as [|n0 nodes IH] using rev_ind; intros Hnd Hn.
  - by apply elem_of_nil in Hn.
  - rewrite initialLoads_snoc. rewrite map_app in Hnd. simpl in Hnd.
    apply NoDup_app in Hnd as (Hnd & Hdisj & _).
    apply elem_of_app in Hn as [Hn|Hn].
    + rewrite lookup_insert_ne; [by apply IH|].
      intros Heq. apply (Hdisj (NetworkNode.id n)).
      * apply list_elem_of_fmap. by exists n.
      * rewrite <- Heq. by apply list_elem_of_singleton.
    + apply list_elem_of_singleton in Hn. subst. by rewrite lookup_insert_eq.
Qed.

(** What one iteration of the backward loop does when it does not throw. *)
Lemma backwardStep_Return src pm acc n acc' :
  backwardStep src pm acc n = Return acc' ->
  (n = src /\ acc' = acc)
  \/ (n ≠ src /\ pm !! n = None /\ acc' = acc)
  \/ (n ≠ src /\ exists p e pl ml,
        pm !! n = Some (p, e) /\ acc !! p = Some pl /\ acc !! n = Some ml /\
        acc' = <[p := Power.mk (Power.p pl + Power.p ml) (Power.q pl + Power.q ml)]> acc).
Proof.
  unfold backwardStep. rewrite eqb_decide. case_bool_decide as Hsrc.
  - intros [= <-]. by left.
  - destruct (pm !! n) as [[p e]|] eqn:Hpm.
    + destruct (acc !! p) as [pl|] eqn:Hp; simpl; [|done].
      destruct (acc !! n) as [ml|] eqn:Hm; simpl; [|done].
      intros [= <-]. right. right. split; [done|]. by exists p, e, pl, ml.
    + intros [= <-]. right. left. done.
Qed.

Lemma backwardStep_is_Some src pm acc n acc' k :
  backwardStep src pm acc n = Return acc' ->
  is_Some (acc' !! k) <-> is_Some (acc !! k).
Proof.
  intros H. apply backwardStep_Return in H
    as [[_ ->]|[(_ & _ & ->)|(_ & p & e & pl & ml & _ & Hp & _ & ->)]]; [done|done|].
  destruct (decide (p = k)) as [->|Hne].
  - rewrite lookup_insert_eq, Hp. split; eauto.
  - by rewrite lookup_insert_ne.
Qed.

Lemma backwardSweep_is_Some src pm l acc acc' k :
  backwardSweep src pm l acc = Return acc' ->
  is_Some (acc' !! k) <-> is_Some (acc !! k).
Proof.
  unfold backwardSweep.
  apply (forEachM_invariant _ (fun a => is_Some (a !! k) <-> is_Some (acc !! k)));
    [|done].
  intros s a s' _ Hs Hstep. by rewrite (backwardStep_is_Some _ _ _ _ _ _ Hstep).
Qed.

(** The backward loop does not throw when every id it meets has a load. *)
Lemma backwardSweep_returns src pm l acc :
  (forall n, n ∈ l -> is_Some (acc !! n)) ->
  (forall n p e, n ∈ l -> pm !! n = Some (p, e) -> is_Some (acc !! p)) ->
  exists acc', backwardSweep src pm l acc = Return acc'.
Proof.
  intros Hl Hp. unfold backwardSweep.
  destruct (forEachM_returns (backwardStep src pm)
              (fun a => forall k, is_Some (a !! k) <-> is_Some (acc !! k))
              (reverse l)) with (s := acc) as (acc' & Hacc' & _); [|done|by eauto].
  intros s n Hn Hs. rewrite elem_of_reverse in Hn.
  assert (exists s', backwardStep src pm s n = Return s') as [s' Hs'].
  { unfold backwardStep. destruct (String.eqb n src); [by eauto|].
    destruct (pm !! n) as [[p e]|] eqn:Hpm; [|by eauto].
    destruct (proj2 (Hs p) (Hp _ _ _ Hn Hpm)) as [pl ->].
    destruct (proj2 (Hs n) (Hl _ Hn)) as [ml ->]. simpl. eauto. }
  exists s'. split; [done|]. intros k.
  by rewrite (backwardStep_is_Some _ _ _ _ _ _ Hs').
Qed.

(** ** Forward sweep *)

(** Runs the exception plumbing of a loop body and leaves its arithmetic
    as written. *)
Ltac run_outcome := cbn [deref mbind outcome_bind fst snd].

Lemma forEachM_prefix_invariant {A S : Type} (body : S -> A -> outcome S)
    (I : list A -> S -> Prop) (l : list A) :
  (forall pre a post s s',
      l = pre ++ a :: post -> I pre s -> body s a = Return s' -> I (pre ++ [a]) s') ->
  forall s s', I [] s -> forEachM body l s = Return s' -> I l s'.
Proof.
  intros Hstep.
  assert (forall rest pre s s',
             l = pre ++ rest -> I pre s -> forEachM body rest s = Return s' -> I l s')
    as Hgen.
  { induction rest as [|a rest IH]; intros pre s s' Hl Hs Hrun; simpl in Hrun.
    - rewrite app_nil_r in Hl. inversion Hrun. by subst.
    - destruct (body s a) as [s1|] eqn:Hb; simpl in Hrun; [|done].
      apply (IH (pre ++ [a]) s1 s'); [by rewrite <- app_assoc| |done].
      by eapply Hstep. }
  intros s s'. by apply Hgen.
Qed.

Lemma forEachM_prefix_returns {A S : Type} (body : S -> A -> outcome S)
    (I : list A -> S -> Prop) (l : list A) :
  (forall pre a post s,
      l = pre ++ a :: post -> I pre s ->
      exists s', body s a = Return s' /\ I (pre ++ [a]) s') ->
  forall s, I [] s -> exists s', forEachM body l s = Return s' /\ I l s'.
Proof.
  intros Hstep.
  assert (forall rest pre s,
             l = pre ++ rest -> I pre s ->
             exists s', forEachM body rest s = Return s' /\ I l s') as Hgen.
  { induction rest as [|a rest IH]; intros pre s Hl Hs; simpl.
    - rewrite app_nil_r in Hl. subst. by exists s.
    - destruct (Hstep pre a rest s Hl Hs) as (s1 & Hb & Hs1). rewrite Hb. simpl.
      apply (IH (pre ++ [a])); [by rewrite <- app_assoc | done]. }
  intros s. by apply Hgen.
Qed.

Lemma orElse_0_r a : orElse a 0 = a.
Proof. unfold orElse. by destruct (Req_dec_T a 0). Qed.

Lemma orZero_Some a : orZero (Some a) = a.
Proof. apply orElse_0_r. Qed.

Section Forward.
Variable src : string.
Variable sourceKv : R.
Variable pm : gmap string (string * NetworkEdge.t).
Variable acc : gmap string Power.t.

(** What one iteration of the forward loop does when it does not throw. *)
Lemma forwardStep_Return st n st' :
  forwardStep src sourceKv pm acc st n = Return st' ->
  (n = src /\ st' = st)
  \/ (n ≠ src /\ exists p e load pr,
        pm !! n = Some (p, e) /\ acc !! n = Some load /\
        nodeResults st !! p = Some pr /\
        let d := (orZero (nodeDistances st !! p) + NetworkEdge.lengthMeters e)%R in
        st' = mkFwd
                (<[n := nodeResultOf sourceKv n e load (NodeResult.voltageKv pr)]>
                   (nodeResults st))
                (<[NetworkEdge.id e :=
                     edgeResultOf sourceKv p e load (NodeResult.voltageKv pr)]>
                   (edgeResults st))
                (<[n := d]> (nodeDistances st))
                (if Rgt_dec d (maxDistance st) then d else maxDistance st)
                (if Rgt_dec d (maxDistance st) then n else farthestNodeId st)
                (totalLossKw st
                 + seg_lossKw sourceKv e load (NodeResult.voltageKv pr))).
Proof.
  unfold forwardStep. rewrite eqb_decide. case_bool_decide as Hsrc.
  - intros [= <-]. by left.
  - destruct (pm !! n) as [[p e]|] eqn:Hpm; run_outcome; [|done].
    destruct (acc !! n) as [load|] eqn:Hload; run_outcome; [|done].
    destruct (nodeResults st !! p) as [pr|] eqn:Hpr; run_outcome; [|done].
    intros <-%Return_inj. right. split; [done|]. exists p, e, load, pr.
    repeat (split; [done|]). cbv zeta.
    by destruct (Rgt_dec (orZero (nodeDistances st !! p)
                          + NetworkEdge.lengthMeters e) (maxDistance st)).
Qed.

Lemma forwardStep_returns st n :
  (n ≠ src -> exists p e,
      pm !! n = Some (p, e) /\ is_Some (acc !! n) /\ is_Some (nodeResults st !! p)) ->
  exists st', forwardStep src sourceKv pm acc st n = Return st'.
Proof.
  intros H. unfold forwardStep. rewrite eqb_decide. case_bool_decide as Hsrc.
  - by eauto.
  - destruct (H Hsrc) as (p & e & -> & [load ->] & [pr Hpr]). run_outcome.
    rewrite Hpr. run_outcome. by eauto.
Qed.

Lemma FwdInv_init : FwdInv src sourceKv pm acc [] (forwardInit src sourceKv).
Proof.
  split; simpl.
  - intros k. rewrite elem_of_nil. destruct (decide (src = k)) as [->|Hne].
    + rewrite lookup_singleton_eq. naive_solver.
    + rewrite lookup_singleton_ne by done. split; [by intros [? ?]|naive_solver].
  - apply lookup_singleton_eq.
  - intros n Hn. by apply elem_of_nil in Hn.
  - intros k er H. by rewrite lookup_empty in H.
  - intros n p e Hn. by apply elem_of_nil in Hn.
  - intros k. rewrite elem_of_nil. destruct (decide (src = k)) as [->|Hne].
    + rewrite lookup_singleton_eq. naive_solver.
    + rewrite lookup_singleton_ne by done. split; [by intros [? ?]|naive_solver].
  - apply lookup_singleton_eq.
  - intros n Hn. by apply elem_of_nil in Hn.
  - by left.
  - apply lookup_singleton_eq.
  - intros k d. destruct (decide (src = k)) as [->|Hne].
    + rewrite lookup_singleton_eq. intros [= <-]. lra.
    + by rewrite lookup_singleton_ne.
Qed.

Lemma FwdInv_source pre st :
  FwdInv src sourceKv pm acc pre st -> FwdInv src sourceKv pm acc (pre ++ [src]) st.
Proof.
  intros [Hdom Hroot Hnode Hedge Hedom Hddom Hdroot Hdist Hfar Hfd Hmax].
  assert (Hin : forall k, k ∈ pre ++ [src] <-> k = src \/ k ∈ pre).
  { intros k. rewrite elem_of_app, list_elem_of_singleton. naive_solver. }
  split; try done.
  - intros k. rewrite Hdom, Hin. naive_solver.
  - intros n Hn Hne. apply Hnode; [|done]. apply Hin in Hn. naive_solver.
  - intros k er Hk. destruct (Hedge k er Hk) as (n & p & e & load & pr & Hn & H).
    exists n, p, e, load, pr. split; [|done]. apply Hin. by right.
  - intros n p e Hn Hne. apply Hedom; [|done]. apply Hin in Hn. naive_solver.
  - intros k. rewrite Hddom, Hin. naive_solver.
  - intros n Hn Hne. apply Hdist; [|done]. apply Hin in Hn. naive_solver.
  - destruct Hfar; [by left|]. right. apply Hin. by right.
Qed.

Lemma forwardStep_FwdInv pre n st st' :
  FwdInv src sourceKv pm acc pre st -> n ∉ pre ->
  (n ≠ src -> forall p e, pm !! n = Some (p, e) -> p = src \/ p ∈ pre) ->
  forwardStep src sourceKv pm acc st n = Return st' ->
  FwdInv src sourceKv pm acc (pre ++ [n]) st'.
Proof.
  intros Hinv Hfresh Hparent Hstep.
  apply forwardStep_Return in Hstep
    as [[-> ->]|(Hne & p & e & load & pr & Hpm & Hload & Hpr & Hst')];
    [by apply FwdInv_source|].
  destruct Hinv as [Hdom Hroot Hnode Hedge Hedom Hddom Hdroot Hdist Hfar Hfd Hmax].
  assert (Hold : forall k, k = src \/ k ∈ pre -> n ≠ k).
  { intros k [->|Hk]; [done|]. intros ->. done. }
  assert (Hin : forall k, k ∈ pre ++ [n] <-> k ∈ pre \/ k = n).
  { intros k. by rewrite elem_of_app, list_elem_of_singleton. }
  assert (Hp : n ≠ p) by (apply Hold; eauto).
  specialize (Hparent Hne).
  destruct (proj2 (Hddom p) (Hparent _ _ Hpm)) as [dp Hdp].
  rewrite Hdp, orZero_Some in Hst'. cbv zeta in Hst'.
  set (d := (dp + NetworkEdge.lengthMeters e)%R) in *.
  subst st'. split; simpl.
  - intros k. rewrite lookup_insert_is_Some, Hdom, Hin.
    destruct (decide (n = k)); naive_solver.
  - by rewrite lookup_insert_ne.
  - intros n0 Hn0 Hn0src. apply Hin in Hn0 as [Hn0| ->].
    + destruct (Hnode n0 Hn0 Hn0src) as (p0 & e0 & load0 & pr0 & H1 & H2 & H3 & H4).
      exists p0, e0, load0, pr0. repeat (split; [done|]).
      rewrite !lookup_insert_ne; [done| |].
      * apply Hold. by right.
      * apply Hold, Hdom. eauto.
    + exists p, e, load, pr. repeat (split; [done|]).
      rewrite lookup_insert_ne by done. by rewrite lookup_insert_eq.
  - intros k er Hk. destruct (decide (NetworkEdge.id e = k)) as [Hek|Hek].
    + rewrite Hek, lookup_insert_eq in Hk. apply (inj Some) in Hk. subst er.
      exists n, p, e, load, pr. split; [apply Hin; by right|].
      repeat (split; [done|]). by rewrite lookup_insert_ne.
    + rewrite lookup_insert_ne in Hk by done.
      destruct (Hedge k er Hk)
        as (n0 & p0 & e0 & load0 & pr0 & H0 & H1 & H2 & H3 & H4 & H5 & H6).
      exists n0, p0, e0, load0, pr0. split; [apply Hin; by left|].
      repeat (split; [done|]). rewrite lookup_insert_ne; [done|].
      apply Hold, Hdom. eauto.
  - intros n0 p0 e0 Hn0 Hn0src Hpm0. rewrite lookup_insert_is_Some.
    destruct (decide (NetworkEdge.id e = NetworkEdge.id e0)); [by left|].
    right. split; [done|]. apply Hin in Hn0 as [Hn0| ->].
    + by eapply Hedom.
    + rewrite Hpm in Hpm0. by inversion Hpm0; subst.
  - intros k. rewrite lookup_insert_is_Some, Hddom, Hin.
    destruct (decide (n = k)); naive_solver.
  - by rewrite lookup_insert_ne.
  - intros n0 Hn0 Hn0src. apply Hin in Hn0 as [Hn0| ->].
    + destruct (Hdist n0 Hn0 Hn0src) as (p0 & e0 & dp0 & H1 & H2 & H3).
      exists p0, e0, dp0. split; [done|].
      rewrite !lookup_insert_ne; [done| |].
      * apply Hold. by right.
      * apply Hold, Hddom. eauto.
    + exists p, e, dp. split; [done|].
      rewrite lookup_insert_ne by done. by rewrite lookup_insert_eq.
  - destruct (Rgt_dec d (maxDistance st)).
    + right. apply Hin. by right.
    + destruct Hfar; [by left|]. right. apply Hin. by left.
  - destruct (Rgt_dec d (maxDistance st)).
    + by rewrite lookup_insert_eq.
    + rewrite lookup_insert_ne; [done|]. by apply Hold.
  - intros k d0. destruct (decide (n = k)) as [<-|Hnk].
    + rewrite lookup_insert_eq. intros [= <-].
      destruct (Rgt_dec d (maxDistance st)); lra.
    + rewrite lookup_insert_ne by done. intros Hk. apply Hmax in Hk.
      destruct (Rgt_dec d (maxDistance st)); lra.
Qed.

(** The forward sweep over a list in which parents come first. *)
Lemma forwardSweep_FwdInv l st :
  NoDup l -> ParentsFirst pm src l ->
  forwardSweep src sourceKv pm acc l = Return st ->
  FwdInv src sourceKv pm acc l st.
Proof.
  intros Hnd Hpf. unfold forwardSweep.
  apply (forEachM_prefix_invariant _ (FwdInv src sourceKv pm acc)); [|apply FwdInv_init].
  intros pre n post s s' Hl Hs Hstep.
  apply (forwardStep_FwdInv pre n s s'); [done| | |done].
  - rewrite Hl in Hnd. apply NoDup_app in Hnd as (_ & Hdisj & _).
    intros Hn. apply (Hdisj n Hn). by left.
  - intros Hne p e Hpm.
    rewrite Hl, cons_middle, app_assoc in Hpf. apply ParentsFirst_app_l in Hpf.
    destruct (ParentsFirst_last _ _ _ _ Hpf Hne) as (p' & e' & Hpm' & Hp').
    rewrite Hpm in Hpm'. inversion Hpm'; subst. by right.
Qed.

(** The forward loop does not throw when every id but the source has a load. *)
Lemma forwardSweep_returns l :
  NoDup l -> ParentsFirst pm src l ->
  (forall n, n ∈ l -> n ≠ src -> is_Some (acc !! n)) ->
  exists st, forwardSweep src sourceKv pm acc l = Return st.
Proof.
  intros Hnd Hpf Hacc. unfold forwardSweep.
  destruct (forEachM_prefix_returns (forwardStep src sourceKv pm acc)
              (FwdInv src sourceKv pm acc) l)
    with (s := forwardInit src sourceKv) as (st & Hst & _);
    [|apply FwdInv_init|by eauto].
  intros pre n post s Hl Hs.
  assert (Hpar : n ≠ src -> exists p e, pm !! n = Some (p, e) /\ p ∈ pre).
  { intros Hne. rewrite Hl, cons_middle, app_assoc in Hpf.
    apply ParentsFirst_app_l in Hpf. by apply ParentsFirst_last in Hpf. }
  destruct (forwardStep_returns s n) as [s' Hs'].
  { intros Hne. destruct (Hpar Hne) as (p & e & Hpm & Hp). exists p, e.
    split; [done|]. split.
    - apply Hacc; [|done]. rewrite Hl. apply elem_of_app. right. by left.
    - apply Hs. by right. }
  exists s'. split; [done|].
  apply (forwardStep_FwdInv pre n s s'); [done| | |done].
  - rewrite Hl in Hnd. apply NoDup_app in Hnd as (_ & Hdisj & _).
    intros Hn. apply (Hdisj n Hn). by left.
  - intros Hne p e Hpm. destruct (Hpar Hne) as (p' & e' & Hpm' & Hp').
    rewrite Hpm in Hpm'. inversion Hpm'; subst. by right.
Qed.

End Forward.

(** ** The solver as a whole *)

Lemma findSource_Some nodes s :
  findSource nodes = Some s -> s ∈ nodes /\ NetworkNode.type s = SOURCE.
Proof.
  unfold findSource. intros H. apply find_some in H as [Hin Hs].
  split; [by apply list_elem_of_In|]. unfold isSource in Hs.
  by apply bool_decide_eq_true in Hs.
Qed.

Lemma findSource_None nodes :
  findSource nodes = None <-> forall n, n ∈ nodes -> NetworkNode.type n ≠ SOURCE.
Proof.
  unfold findSource. split.
  - intros H n Hn Ht. apply list_elem_of_In in Hn.
    pose proof (find_none _ _ H n Hn) as Hf. unfold isSource in Hf.
    by apply bool_decide_eq_false in Hf.
  - intros H. destruct (find isSource nodes) as [s|] eqn:Hf; [|done].
    apply find_some in Hf as [Hin Hs]. apply list_elem_of_In in Hin.
    unfold isSource in Hs. apply bool_decide_eq_true in Hs. by destruct (H s Hin).
Qed.

Lemma calculateLoadFlow_Return nodes edges sourceKv r :
  calculateLoadFlow nodes edges sourceKv = Return r ->
  exists s acc fwd,
    findSource nodes = Some s /\
    backwardSweep (NetworkNode.id s) (parentMap (bfs edges (NetworkNode.id s)))
      (levelOrder (bfs edges (NetworkNode.id s))) (initialLoads nodes) = Return acc /\
    forwardSweep (NetworkNode.id s) sourceKv (parentMap (bfs edges (NetworkNode.id s)))
      acc (levelOrder (bfs edges (NetworkNode.id s))) = Return fwd /\
    r = assemble nodes edges (NetworkNode.id s) fwd.
Proof.
  unfold calculateLoadFlow. destruct (findSource nodes) as [s|]; [|done].
  cbv zeta.
  destruct (backwardSweep _ _ _ _) as [acc|] eqn:Hb; run_outcome; [|done].
  destruct (forwardSweep _ _ _ _ _) as [fwd|] eqn:Hf; run_outcome; [|done].
  intros <-%Return_inj. by exists s, acc, fwd.
Qed.

Lemma FwdInv_of_run edges sourceKv s acc fwd :
  forwardSweep (NetworkNode.id s) sourceKv (parentMap (bfs edges (NetworkNode.id s)))
    acc (levelOrder (bfs edges (NetworkNode.id s))) = Return fwd ->
  FwdInv (NetworkNode.id s) sourceKv (parentMap (bfs edges (NetworkNode.id s))) acc
    (levelOrder (bfs edges (NetworkNode.id s))) fwd.
Proof.
  apply forwardSweep_FwdInv; [apply levelOrder_NoDup | apply bfs_ParentsFirst].
Qed.

Lemma levelOrder_nodes nodes edges s n :
  s ∈ nodes -> validEndpoints nodes edges ->
  n ∈ levelOrder (bfs edges (NetworkNode.id s)) -> n ∈ map NetworkNode.id nodes.
Proof.
  intros Hs Hvalid Hn.
  apply levelOrder_reachable in Hn.
  destruct Hn as [|a b e _ He Hc].
  - apply list_elem_of_fmap. by exists s.
  - unfold validEndpoints in Hvalid. rewrite Forall_forall in Hvalid.
    destruct (Hvalid e He) as [Hsrc Htgt].
    destruct Hc as [[_ <-]|[<- _]]; done.
Qed.

(** With a SOURCE node and valid endpoints no phase throws. *)
Lemma calculateLoadFlow_returns nodes edges sourceKv s :
  findSource nodes = Some s -> validEndpoints nodes edges ->
  exists r, calculateLoadFlow nodes edges sourceKv = Return r.
Proof.
  intros Hs Hvalid. unfold calculateLoadFlow. rewrite Hs. cbv zeta.
  apply findSource_Some in Hs as [Hs _].
  set (src := NetworkNode.id s). set (topo := bfs edges src).
  assert (Hlo : forall n, n ∈ levelOrder topo -> is_Some (initialLoads nodes !! n)).
  { intros n Hn. apply initialLoads_is_Some. by eapply levelOrder_nodes. }
  destruct (backwardSweep_returns src (parentMap topo) (levelOrder topo)
              (initialLoads nodes)) as [acc Hacc].
  { done. }
  { intros n p e _ Hpm. apply Hlo. by eapply parentMap_child_reachable. }
  rewrite Hacc. run_outcome.
  destruct (forwardSweep_returns src sourceKv (parentMap topo) acc (levelOrder topo))
    as [fwd Hfwd].
  { apply levelOrder_NoDup. }
  { apply bfs_ParentsFirst. }
  { intros n Hn _. rewrite (backwardSweep_is_Some _ _ _ _ _ n Hacc). by apply Hlo. }
  rewrite Hfwd. run_outcome. by eauto.
Qed.

Lemma calculateLoadFlow_Throw nodes edges sourceKv :
  findSource nodes = None ->
  calculateLoadFlow nodes edges sourceKv = Throw NoSourceNodeFound.
Proof. intros H. unfold calculateLoadFlow. by rewrite H. Qed.

Lemma INITIAL_valid : validEndpoints INITIAL_NODES INITIAL_EDGES.
Proof. unfold validEndpoints. repeat constructor. Qed.

Lemma INITIAL_source :
  findSource INITIAL_NODES
  = Some (NetworkNode.mk "n1" 100 300 "N1 (Source)" SOURCE 11 0 1 Industrial).
Proof. reflexivity. Qed.

(** C3. For an input whose edge endpoints are ids of the node list, the solver
    throws if and only if no node has type SOURCE; the only error it throws
    is the missing-source error, an outcome that carries no result; with a
    SOURCE node it returns the two result maps and the system result. *)
Theorem C3_throws_iff_no_source nodes edges sourceKv :
  validEndpoints nodes edges ->
  ((exists err, calculateLoadFlow nodes edges sourceKv = Throw err)
   <-> forall n, n ∈ nodes -> NetworkNode.type n ≠ SOURCE)
  /\ (forall err, calculateLoadFlow nodes edges sourceKv = Throw err ->
                  err = NoSourceNodeFound)
  /\ ((exists n, n ∈ nodes /\ NetworkNode.type n = SOURCE) ->
      exists r, calculateLoadFlow nodes edges sourceKv = Return r).
Proof.
  intros Hvalid.
  destruct (findSource nodes) as [s|] eqn:Hs.
  - destruct (calculateLoadFlow_returns nodes edges sourceKv s Hs Hvalid) as [r Hr].
    apply findSource_Some in Hs as [Hin Hty].
    split; [|split].
    + split.
      * intros [err Herr]. by rewrite Hr in Herr.
      * intros Hno. by destruct (Hno s Hin).
    + intros err Herr. by rewrite Hr in Herr.
    + intros _. by exists r.
  - pose proof (calculateLoadFlow_Throw nodes edges sourceKv Hs) as Hthrow.
    split; [|split].
    + split; [intros _; by apply findSource_None | by eauto].
    + intros err Herr. rewrite Hthrow in Herr. by inversion Herr.
    + intros (n & Hin & Hty). by destruct (proj1 (findSource_None nodes) Hs n Hin).
Qed.

Lemma C3_throws_iff_no_source_witness :
  exists r, calculateLoadFlow INITIAL_NODES INITIAL_EDGES 11 = Return r.
Proof.
  apply (C3_throws_iff_no_source INITIAL_NODES INITIAL_EDGES 11 INITIAL_valid).
  eexists. split; [by left | reflexivity].
Defined.

(** The phases behind a returned result, for the source node found. *)
Lemma calculateLoadFlow_phases nodes edges sourceKv r s :
  findSource nodes = Some s ->
  calculateLoadFlow nodes edges sourceKv = Return r ->
  exists acc fwd,
    backwardSweep (NetworkNode.id s) (parentMap (bfs edges (NetworkNode.id s)))
      (levelOrder (bfs edges (NetworkNode.id s))) (initialLoads nodes) = Return acc /\
    FwdInv (NetworkNode.id s) sourceKv (parentMap (bfs edges (NetworkNode.id s))) acc
      (levelOrder (bfs edges (NetworkNode.id s))) fwd /\
    r = assemble nodes edges (NetworkNode.id s) fwd.
Proof.
  intros Hs Hr.
  apply calculateLoadFlow_Return in Hr as (s' & acc & fwd & Hs' & Hb & Hf & ->).
  rewrite Hs in Hs'. inversion Hs'; subst s'.
  exists acc, fwd. split; [done|]. split; [|done]. by apply FwdInv_of_run.
Qed.

(** C5. The node results hold a key exactly for the ids reachable from the
    source along the edge list, and the edge results hold a key exactly for
    the ids of the parent edges the search recorded for the reachable
    non-root nodes; nothing else is present, under any value. *)
Theorem C5_results_only_for_reachable nodes edges sourceKv r s :
  findSource nodes = Some s ->
  calculateLoadFlow nodes edges sourceKv = Return r ->
  (forall k, is_Some (lf_nodeResults r !! k)
             <-> Reachable edges (NetworkNode.id s) k)
  /\ (forall k, is_Some (lf_edgeResults r !! k)
                <-> exists n p e,
                      n ≠ NetworkNode.id s /\
                      Reachable edges (NetworkNode.id s) n /\
                      parentMap (bfs edges (NetworkNode.id s)) !! n = Some (p, e) /\
                      NetworkEdge.id e = k).
Proof.
  intros Hs Hr.
  destruct (calculateLoadFlow_phases _ _ _ _ _ Hs Hr) as (acc & fwd & _ & Hinv & ->).
  simpl. split.
  - intros k. rewrite (fwd_dom _ _ _ _ _ _ Hinv), levelOrder_reachable.
    split; [|by right]. intros [->|H]; [constructor | done].
  - intros k. split.
    + intros [er Her].
      destruct (fwd_edge _ _ _ _ _ _ Hinv k er Her)
        as (n & p & e & _ & _ & Hn & Hne & Hpm & Hid & _).
      exists n, p, e. split; [done|]. split; [by apply levelOrder_reachable|done].
    + intros (n & p & e & Hne & Hn & Hpm & <-).
      eapply (fwd_edge_dom _ _ _ _ _ _ Hinv); [|done|done].
      by apply levelOrder_reachable.
Qed.

Lemma C5_results_only_for_reachable_witness :
  exists r,
    calculateLoadFlow INITIAL_NODES INITIAL_EDGES 11 = Return r
    /\ (forall k, is_Some (lf_nodeResults r !! k)
                  <-> Reachable INITIAL_EDGES "n1" k).
Proof.
  destruct (calculateLoadFlow_returns INITIAL_NODES INITIAL_EDGES 11 _
              INITIAL_source INITIAL_valid) as [r Hr].
  exists r. split; [exact Hr|].
  exact (proj1 (C5_results_only_for_reachable _ _ _ _ _ INITIAL_source Hr)).
Defined.

(** ** Load conservation *)

Lemma sumList_app l1 l2 : sumList (l1 ++ l2) = (sumList l1 + sumList l2)%R.
Proof.
  unfold sumList. induction l1 as [|a l1 IH]; simpl; [lra|]. rewrite IH. lra.
Qed.

Lemma sumList_Permutation l1 l2 : l1 ≡ₚ l2 -> sumList l1 = sumList l2.
Proof.
  unfold sumList. induction 1; simpl; lra.
Qed.

Lemma loadSum_app f acc l1 l2 :
  loadSum f acc (l1 ++ l2) = (loadSum f acc l1 + loadSum f acc l2)%R.
Proof. unfold loadSum. by rewrite map_app, sumList_app. Qed.

Lemma loadSum_insert_notin f acc l k v :
  k ∉ l -> loadSum f (<[k := v]> acc) l = loadSum f acc l.
Proof.
  unfold loadSum. induction l as [|a l IH]; intros Hk; simpl; [done|].
  apply not_elem_of_cons in Hk as [Hka Hkl].
  rewrite lookup_insert_ne by done. unfold sumList in *. simpl. by rewrite IH.
Qed.

Lemma loadSum_insert_in f acc l k old v :
  NoDup l -> k ∈ l -> acc !! k = Some old ->
  loadSum f (<[k := v]> acc) l = (loadSum f acc l - f old + f v)%R.
Proof.
  induction l as [|a l IH]; intros Hnd Hk Hold; [by apply elem_of_nil in Hk|].
  apply NoDup_cons in Hnd as [Ha Hnd].
  change (a :: l) with ([a] ++ l). rewrite !loadSum_app.
  destruct (decide (k = a)) as [->|Hne].
  - rewrite (loadSum_insert_notin f acc l a v Ha).
    unfold loadSum, sumList. simpl. rewrite lookup_insert_eq, Hold. simpl. lra.
  - apply elem_of_cons in Hk as [Hk|Hk]; [done|].
    rewrite (IH Hnd Hk Hold).
    unfold loadSum at 1 3. unfold sumList. simpl.
    rewrite lookup_insert_ne by done. lra.
Qed.

Section Conservation.
Variable f : Power.t -> R.
Hypothesis f_add : forall a b,
  f (Power.mk (Power.p a + Power.p b) (Power.q a + Power.q b)) = (f a + f b)%R.
Variable src : string.
Variable pm : gmap string (string * NetworkEdge.t).

(** Running the backward loop over a suffix of the traversal order moves the
    loads of the suffix into the prefix. *)
Lemma backward_moves_loads suf :
  forall pre acc acc',
    NoDup (pre ++ suf) -> ParentsFirst pm src (pre ++ suf) -> src ∉ suf ->
    forEachM (backwardStep src pm) (reverse suf) acc = Return acc' ->
    loadSum f acc' pre = loadSum f acc (pre ++ suf).
Proof using f_add.
  induction suf as [|n suf IH] using rev_ind; intros pre acc acc' Hnd Hpf Hsrc Hrun.
  - simpl in Hrun. apply Return_inj in Hrun. subst. by rewrite app_nil_r.
  - rewrite reverse_snoc in Hrun. simpl in Hrun.
    destruct (backwardStep src pm acc n) as [acc1|] eqn:Hstep; simpl in Hrun; [|done].
    rewrite app_assoc in Hnd, Hpf.
    assert (Hne : n ≠ src).
    { intros ->. apply Hsrc, elem_of_app. right. by left. }
    destruct (ParentsFirst_last _ _ _ _ Hpf Hne) as (p & e & Hpm & Hp).
    apply backwardStep_Return in Hstep
      as [[? _]|[(_ & Hnone & _)|(_ & p' & e' & pl & ml & Hpm' & Hpl & Hml & ->)]];
      [done|congruence|].
    rewrite Hpm in Hpm'. inversion Hpm'; subst p' e'.
    apply NoDup_app in Hnd as (Hnd & _ & _).
    rewrite (IH pre _ acc' Hnd (ParentsFirst_app_l _ _ _ _ Hpf)
               (fun Hin => Hsrc (proj2 (elem_of_app _ _ _) (or_introl Hin))) Hrun).
    rewrite (loadSum_insert_in f acc _ p pl _ Hnd Hp Hpl), f_add.
    rewrite app_assoc, (loadSum_app f acc (pre ++ suf) [n]).
    unfold loadSum at 3. unfold sumList. simpl. rewrite Hml. simpl. lra.
Qed.

Lemma backwardSweep_root_load l acc acc' :
  NoDup l -> ParentsFirst pm src l -> l !! 0%nat = Some src ->
  backwardSweep src pm l acc = Return acc' ->
  from_option f 0%R (acc' !! src) = loadSum f acc l.
Proof using f_add.
  intros Hnd Hpf Hhd. destruct l as [|x tl]; [done|]. simpl in Hhd.
  inversion Hhd; subst x. unfold backwardSweep.
  rewrite reverse_cons, forEachM_app.
  destruct (forEachM _ (reverse tl) acc) as [acc1|] eqn:Hrun; simpl; [|done].
  unfold backwardStep. rewrite String.eqb_refl. intros <-%Return_inj.
  apply NoDup_cons in Hnd as Hnd'. destruct Hnd' as [Hsrc _].
  pose proof (backward_moves_loads tl [src] acc acc1 Hnd Hpf Hsrc Hrun) as Hsum.
  simpl in Hsum. rewrite <- Hsum.
  unfold loadSum, sumList. simpl. lra.
Qed.

End Conservation.

Lemma loadSum_initialLoads f nodes :
  NoDup (map NetworkNode.id nodes) ->
  loadSum f (initialLoads nodes) (map NetworkNode.id nodes)
  = sumList (map (fun n => f (ownLoad n)) nodes).
Proof.
  intros Hnd. unfold loadSum. rewrite map_map. f_equal.
  apply map_ext_in. intros n Hn. apply list_elem_of_In in Hn.
  by rewrite (initialLoads_lookup nodes n Hnd Hn).
Qed.

Lemma levelOrder_Permutation nodes edges s :
  s ∈ nodes ->
  NoDup (map NetworkNode.id nodes) ->
  validEndpoints nodes edges ->
  (forall n, n ∈ nodes -> Reachable edges (NetworkNode.id s) (NetworkNode.id n)) ->
  levelOrder (bfs edges (NetworkNode.id s)) ≡ₚ map NetworkNode.id nodes.
Proof.
  intros Hs Hnd Hvalid Hreach.
  apply NoDup_Permutation; [apply levelOrder_NoDup | done |].
  intros k. split.
  - by apply levelOrder_nodes.
  - intros Hk. apply list_elem_of_fmap in Hk as (n & -> & Hn).
    by apply levelOrder_reachable, Hreach.
Qed.

(** C2. For a connected input with distinct node ids and edge endpoints among
    them, the backward sweep returns, and the load it leaves at the source is
    the componentwise sum over all nodes of
    (loadKva * pf, loadKva * sin(acos(pf))).  The input need not be a tree. *)
Theorem C2_load_conservation nodes edges s :
  findSource nodes = Some s ->
  NoDup (map NetworkNode.id nodes) ->
  validEndpoints nodes edges ->
  (forall n, n ∈ nodes -> Reachable edges (NetworkNode.id s) (NetworkNode.id n)) ->
  exists acc total,
    backwardSweep (NetworkNode.id s) (parentMap (bfs edges (NetworkNode.id s)))
      (levelOrder (bfs edges (NetworkNode.id s))) (initialLoads nodes) = Return acc
    /\ acc !! NetworkNode.id s = Some total
    /\ Power.p total
       = sumList (map (fun n => NetworkNode.loadKva n * NetworkNode.pf n)%R nodes)
    /\ Power.q total
       = sumList (map (fun n => NetworkNode.loadKva n * sin (acos (NetworkNode.pf n)))%R
                      nodes).
Proof.
  intros Hs Hnd Hvalid Hreach.
  apply findSource_Some in Hs as [Hs _].
  set (src := NetworkNode.id s) in *. set (topo := bfs edges src).
  assert (Hlo : forall n, n ∈ levelOrder topo -> is_Some (initialLoads nodes !! n)).
  { intros n Hn. apply initialLoads_is_Some. by eapply levelOrder_nodes. }
  destruct (backwardSweep_returns src (parentMap topo) (levelOrder topo)
              (initialLoads nodes)) as [acc Hacc].
  { done. }
  { intros n p e _ Hpm. apply Hlo. by eapply parentMap_child_reachable. }
  assert (is_Some (acc !! src)) as [total Htotal].
  { rewrite (backwardSweep_is_Some _ _ _ _ _ src Hacc). apply Hlo, levelOrder_source. }
  exists acc, total. split; [done|]. split; [done|].
  assert (Hsum : forall f,
             (forall a b, f (Power.mk (Power.p a + Power.p b) (Power.q a + Power.q b))
                          = (f a + f b)%R) ->
             f total = sumList (map (fun n => f (ownLoad n)) nodes)).
  { intros f Hf.
    pose proof (backwardSweep_root_load f Hf src (parentMap topo) (levelOrder topo)
                  (initialLoads nodes) acc (levelOrder_NoDup edges src)
                  (bfs_ParentsFirst edges src) (levelOrder_head edges src) Hacc) as H.
    rewrite Htotal in H. simpl in H. rewrite H.
    rewrite <- (loadSum_initialLoads f nodes Hnd). unfold loadSum.
    apply sumList_Permutation, fmap_Permutation.
    by apply levelOrder_Permutation. }
  split.
  - by rewrite (Hsum Power.p).
  - by rewrite (Hsum Power.q).
Qed.

Lemma INITIAL_levelOrder :
  levelOrder (bfs INITIAL_EDGES "n1") = ["n1"; "n2"; "n3"; "n5"; "n4"; "n6"].
Proof. vm_compute. reflexivity. Qed.

Lemma INITIAL_NoDup : NoDup (map NetworkNode.id INITIAL_NODES).
Proof. simpl. repeat (apply NoDup_cons_2; [set_solver|]). apply NoDup_nil_2. Qed.

Lemma INITIAL_connected n :
  n ∈ INITIAL_NODES -> Reachable INITIAL_EDGES "n1" (NetworkNode.id n).
Proof.
  intros Hn. apply levelOrder_reachable. rewrite INITIAL_levelOrder.
  unfold INITIAL_NODES in Hn.
  repeat (apply elem_of_cons in Hn as [->|Hn]; [simpl; set_solver|]).
  by apply elem_of_nil in Hn.
Qed.

Lemma C2_load_conservation_witness :
  exists acc total,
    backwardSweep "n1" (parentMap (bfs INITIAL_EDGES "n1"))
      (levelOrder (bfs INITIAL_EDGES "n1")) (initialLoads INITIAL_NODES) = Return acc
    /\ acc !! "n1" = Some total
    /\ Power.p total
       = sumList (map (fun n => NetworkNode.loadKva n * NetworkNode.pf n)%R
                      INITIAL_NODES)
    /\ Power.q total
       = sumList (map (fun n => NetworkNode.loadKva n * sin (acos (NetworkNode.pf n)))%R
                      INITIAL_NODES).
Proof.
  exact (C2_load_conservation INITIAL_NODES INITIAL_EDGES _
           INITIAL_source INITIAL_NoDup INITIAL_valid INITIAL_connected).
Defined.

(** ** The arithmetic of one segment *)

Lemma getConductor_cases id :
  getConductor id ∈ CONDUCTORS.
Proof.
  unfold getConductor, CONDUCTORS. cbn [List.find Conductor.id].
  repeat (match goal with
          | |- context [String.eqb ?a id] => destruct (String.eqb a id)
          end; [set_solver|]).
  set_solver.
Qed.

Lemma getConductor_resistance_pos id :
  (0 < Conductor.resistancePerKm (getConductor id))%R.
Proof.
  pose proof (getConductor_cases id) as H. unfold CONDUCTORS in H.
  repeat (apply elem_of_cons in H as [->|H]; [simpl; lra|]).
  by apply elem_of_nil in H.
Qed.

Lemma getConductor_reactance id :
  Conductor.reactancePerKm (getConductor id) = None.
Proof.
  pose proof (getConductor_cases id) as H. unfold CONDUCTORS in H.
  repeat (apply elem_of_cons in H as [->|H]; [done|]).
  by apply elem_of_nil in H.
Qed.

Lemma sqrt3_pos : (0 < sqrt 3)%R.
Proof. apply sqrt_lt_R0. lra. Qed.

Lemma sqrt3_sqr : (sqrt 3 * sqrt 3 = 3)%R.
Proof. apply sqrt_sqrt. lra. Qed.

Section SegmentFacts.
Variable sourceKv : R.
Variable edge : NetworkEdge.t.
Variable downstreamS : Power.t.
Variable parentVoltageKv : R.

Local Abbreviation sMag := (seg_sMagnitude downstreamS).
Local Abbreviation vBase := (orElse parentVoltageKv sourceKv).

Lemma seg_sMagnitude_nonneg : (0 <= sMag)%R.
Proof. apply sqrt_pos. Qed.

Lemma seg_sMagnitude_0 :
  Power.p downstreamS = 0%R -> Power.q downstreamS = 0%R -> sMag = 0%R.
Proof.
  intros Hp Hq. unfold seg_sMagnitude. rewrite Hp, Hq.
  replace (0 ^ 2 + 0 ^ 2)%R with 0%R by ring. apply sqrt_0.
Qed.

Lemma seg_sMagnitude_pos : Power.p downstreamS ≠ 0%R -> (0 < sMag)%R.
Proof.
  intros Hp. unfold seg_sMagnitude. apply sqrt_lt_R0.
  pose proof (pow2_ge_0 (Power.q downstreamS)).
  pose proof (Rsqr_pos_lt _ Hp) as Hsq. unfold Rsqr in Hsq.
  replace (Power.p downstreamS ^ 2)%R
    with (Power.p downstreamS * Power.p downstreamS)%R by ring. lra.
Qed.

Lemma seg_sMagnitude_sqr :
  (sMag * sMag = Power.p downstreamS ^ 2 + Power.q downstreamS ^ 2)%R.
Proof.
  unfold seg_sMagnitude. apply sqrt_sqrt.
  pose proof (pow2_ge_0 (Power.p downstreamS)).
  pose proof (pow2_ge_0 (Power.q downstreamS)). lra.
Qed.

Lemma seg_xTotal_0 : seg_xTotal edge = 0%R.
Proof. unfold seg_xTotal. rewrite getConductor_reactance. simpl. ring. Qed.

Lemma seg_rTotal_sign :
  (0 <= NetworkEdge.lengthMeters edge)%R -> (0 <= seg_rTotal edge)%R.
Proof.
  intros Hl. unfold seg_rTotal.
  pose proof (getConductor_resistance_pos (NetworkEdge.conductorId edge)).
  apply Rmult_le_pos; lra.
Qed.

Lemma seg_rTotal_pos :
  (0 < NetworkEdge.lengthMeters edge)%R -> (0 < seg_rTotal edge)%R.
Proof.
  intros Hl. unfold seg_rTotal.
  pose proof (getConductor_resistance_pos (NetworkEdge.conductorId edge)).
  apply Rmult_lt_0_compat; lra.
Qed.

(** Without load below the node nothing flows and nothing drops. *)
Lemma seg_no_load :
  sMag = 0%R ->
  seg_currentAmps sourceKv downstreamS parentVoltageKv = 0%R
  /\ seg_vDropLine sourceKv edge downstreamS parentVoltageKv = 0%R
  /\ seg_lossKw sourceKv edge downstreamS parentVoltageKv = 0%R
  /\ seg_nodeVoltageKv sourceKv edge downstreamS parentVoltageKv = parentVoltageKv.
Proof.
  intros HS.
  assert (Hi : seg_currentAmps sourceKv downstreamS parentVoltageKv = 0%R).
  { unfold seg_currentAmps. rewrite HS. destruct (Rgt_dec 0 0); [lra|done]. }
  assert (Hd : seg_vDropLine sourceKv edge downstreamS parentVoltageKv = 0%R).
  { unfold seg_vDropLine. rewrite Hi. unfold Rdiv. ring. }
  split; [done|]. split; [done|]. split.
  - unfold seg_lossKw. rewrite Hi. unfold Rdiv. ring.
  - unfold seg_nodeVoltageKv. rewrite Hd. ring.
Qed.

(** With the catalog's conductors (no reactance) the drop is
    P * R / (1000 * V). *)
Lemma seg_vDropLine_closed :
  (0 < sMag)%R -> vBase ≠ 0%R ->
  seg_vDropLine sourceKv edge downstreamS parentVoltageKv
  = (Power.p downstreamS * seg_rTotal edge / (1000 * vBase))%R.
Proof.
  intros HS Hv. unfold seg_vDropLine, seg_currentAmps, seg_flowPf.
  rewrite seg_xTotal_0. destruct (Rgt_dec sMag 0) as [_|Hn]; [|lra].
  pose proof sqrt3_pos. field. repeat split; lra.
Qed.

Lemma seg_currentAmps_closed :
  (0 < sMag)%R ->
  seg_currentAmps sourceKv downstreamS parentVoltageKv = (sMag / (sqrt 3 * vBase))%R.
Proof. intros HS. unfold seg_currentAmps. destruct (Rgt_dec sMag 0); [done|lra]. Qed.

(** A node that draws real power through a conductor of non-negative length
    from a parent at positive voltage is not above its parent. *)
Lemma seg_vDropLine_nonneg :
  (0 <= Power.p downstreamS)%R -> (0 <= NetworkEdge.lengthMeters edge)%R ->
  (0 < vBase)%R ->
  (0 <= seg_vDropLine sourceKv edge downstreamS parentVoltageKv)%R.
Proof.
  intros Hp Hl Hv. destruct (Rle_lt_or_eq_dec 0 sMag seg_sMagnitude_nonneg) as [HS|HS].
  - rewrite seg_vDropLine_closed by lra.
    pose proof (seg_rTotal_sign Hl).
    apply Rmult_le_pos; [by apply Rmult_le_pos|].
    left. apply Rinv_0_lt_compat. lra.
  - symmetry in HS. destruct (seg_no_load HS) as (_ & -> & _). lra.
Qed.

(** The same from a parent at negative voltage: the drop changes sign. *)
Lemma seg_vDropLine_nonpos :
  (0 <= Power.p downstreamS)%R -> (0 <= NetworkEdge.lengthMeters edge)%R ->
  (vBase < 0)%R ->
  (seg_vDropLine sourceKv edge downstreamS parentVoltageKv <= 0)%R.
Proof.
  intros Hp Hl Hv. destruct (Rle_lt_or_eq_dec 0 sMag seg_sMagnitude_nonneg) as [HS|HS].
  - rewrite seg_vDropLine_closed by lra.
    pose proof (seg_rTotal_sign Hl) as Hr.
    pose proof (Rmult_le_pos _ _ Hp Hr) as Hpr.
    assert (Hinv : (/ (1000 * vBase) < 0)%R) by (apply Rinv_lt_0_compat; lra).
    unfold Rdiv. nra.
  - symmetry in HS. destruct (seg_no_load HS) as (_ & -> & _). lra.
Qed.

End SegmentFacts.

(** ** Networks without load *)

Lemma initialLoads_lookup_Some nodes k v :
  initialLoads nodes !! k = Some v ->
  exists n, n ∈ nodes /\ NetworkNode.id n = k /\ v = ownLoad n.
Proof.
  induction nodes as [|n0 nodes IH] using rev_ind; intros Hk.
  - unfold initialLoads in Hk. simpl in Hk. by rewrite lookup_empty in Hk.
  - rewrite initialLoads_snoc in Hk.
    destruct (decide (NetworkNode.id n0 = k)) as [Heq|Hne].
    + rewrite Heq, lookup_insert_eq in Hk. apply (inj Some) in Hk. subst v.
      exists n0. split; [|done]. apply elem_of_app. right. by left.
    + rewrite lookup_insert_ne in Hk by done.
      destruct (IH Hk) as (n & Hn & Hid & Hv). exists n.
      split; [|done]. apply elem_of_app. by left.
Qed.

Lemma initialLoads_NoLoad nodes src :
  (forall n, n ∈ nodes -> NetworkNode.id n ≠ src -> NetworkNode.loadKva n = 0%R) ->
  NoLoad src (initialLoads nodes).
Proof.
  intros Hzero k v Hk Hv.
  apply initialLoads_lookup_Some in Hv as (n & Hn & <- & ->).
  unfold ownLoad. simpl. rewrite (Hzero n Hn Hk). split; ring.
Qed.

(** A property of loads that sums keep holds, after the backward sweep, of
    the load at every id but the source when it held there before. *)
Lemma backwardSweep_preserves (P : Power.t -> Prop) src pm l acc acc' :
  (forall a b, P a -> P b ->
               P (Power.mk (Power.p a + Power.p b) (Power.q a + Power.q b))) ->
  (forall k v, k ≠ src -> acc !! k = Some v -> P v) ->
  backwardSweep src pm l acc = Return acc' ->
  forall k v, k ≠ src -> acc' !! k = Some v -> P v.
Proof.
  intros Hadd. unfold backwardSweep.
  apply (forEachM_invariant _ (fun a => forall k v, k ≠ src -> a !! k = Some v -> P v)).
  intros a n a' _ Ha Hstep.
  apply backwardStep_Return in Hstep
    as [[_ ->]|[(_ & _ & ->)|(Hne & p & e & pl & ml & _ & Hp & Hm & ->)]]; [done|done|].
  intros k v Hk Hv. destruct (decide (p = k)) as [->|Hpk].
  - rewrite lookup_insert_eq in Hv. apply (inj Some) in Hv. subst v.
    apply Hadd; [by eapply Ha | by eapply (Ha n)].
  - rewrite lookup_insert_ne in Hv by done. by eapply Ha.
Qed.

Lemma backwardSweep_NoLoad src pm l acc acc' :
  NoLoad src acc -> backwardSweep src pm l acc = Return acc' -> NoLoad src acc'.
Proof.
  unfold NoLoad. intros Hacc Hrun.
  apply (backwardSweep_preserves
           (fun v => Power.p v = 0%R /\ Power.q v = 0%R) src pm l acc acc');
    [|done|done].
  intros a b [-> ->] [-> ->]. simpl. split; ring.
Qed.

Lemma forwardSweep_Flat src sourceKv pm acc l st :
  NoLoad src acc ->
  forwardSweep src sourceKv pm acc l = Return st -> Flat sourceKv st.
Proof.
  intros Hacc. unfold forwardSweep. apply forEachM_invariant.
  - intros s n s' _ [Hnodes Hedges] Hstep.
    apply forwardStep_Return in Hstep
      as [[_ ->]|(Hne & p & e & load & pr & Hpm & Hload & Hpr & ->)]; [done|].
    destruct (Hacc n load Hne Hload) as [Hp Hq].
    destruct (Hnodes p pr Hpr) as [Hv _].
    destruct (seg_no_load sourceKv e load (NodeResult.voltageKv pr)
                (seg_sMagnitude_0 load Hp Hq)) as (Hi & Hd & Hl & Hn).
    split; simpl.
    + intros k res Hk. destruct (decide (n = k)) as [->|Hnk].
      * rewrite lookup_insert_eq in Hk. apply (inj Some) in Hk. subst res.
        unfold nodeResultOf. simpl. rewrite Hn, Hv. split; [done|].
        intros Hkv. split; field; done.
      * rewrite lookup_insert_ne in Hk by done. by eapply Hnodes.
    + intros k er Hk. destruct (decide (NetworkEdge.id e = k)) as [Hek|Hek].
      * rewrite Hek, lookup_insert_eq in Hk. apply (inj Some) in Hk. subst er.
        unfold edgeResultOf. simpl. by rewrite Hi, Hd, Hl.
      * rewrite lookup_insert_ne in Hk by done. by eapply Hedges.
  - split; simpl.
    + intros k res Hk. apply lookup_singleton_Some in Hk as [_ <-]. simpl.
      split; [done|]. by intros _.
    + intros k er Hk. by rewrite lookup_empty in Hk.
Qed.

(** The sweeps do not look at the type of a node: when every node whose id
    is not that of the SOURCE node the solver starts from has loadKva = 0,
    every node result has the source voltage exactly, and, for a source
    voltage other than 0, per-unit 1 and drop 0; every edge result has no
    loss, no current and no drop. *)
Lemma zero_load_is_flat nodes edges sourceKv r s :
  findSource nodes = Some s ->
  (forall n, n ∈ nodes -> NetworkNode.id n ≠ NetworkNode.id s ->
             NetworkNode.loadKva n = 0%R) ->
  calculateLoadFlow nodes edges sourceKv = Return r ->
  (forall k res, lf_nodeResults r !! k = Some res ->
     NodeResult.voltageKv res = sourceKv
     /\ (sourceKv ≠ 0%R ->
         NodeResult.voltagePu res = 1%R /\ NodeResult.dropPercent res = 0%R))
  /\ (forall k er, lf_edgeResults r !! k = Some er ->
        EdgeResult.powerLossKw er = 0%R /\ EdgeResult.currentAmps er = 0%R
        /\ EdgeResult.voltageDropKv er = 0%R).
Proof.
  intros Hs Hzero Hr.
  apply calculateLoadFlow_Return in Hr as (s' & acc & fwd & Hs' & Hb & Hf & ->).
  rewrite Hs in Hs'. inversion Hs'; subst s'.
  apply (forwardSweep_Flat _ _ _ _ _ _
           (backwardSweep_NoLoad _ _ _ _ _ (initialLoads_NoLoad _ _ Hzero) Hb) Hf).
Qed.

(** C7.  On an input whose one SOURCE node is [s], with a positive source
    voltage, in which every LOAD node has loadKva = 0: every node that
    receives a node result has voltageKv equal to the source voltage exactly,
    voltagePu = 1.0 and dropPercent = 0, and every edge result has
    powerLossKw = 0, currentAmps = 0 and voltageDropKv = 0. *)
Theorem C7_zero_load nodes edges sourceKv r s :
  findSource nodes = Some s ->
  (forall n, n ∈ nodes -> NetworkNode.type n = SOURCE -> n = s) ->
  (forall n, n ∈ nodes -> NetworkNode.type n = LOAD ->
             NetworkNode.loadKva n = 0%R) ->
  (0 < sourceKv)%R ->
  calculateLoadFlow nodes edges sourceKv = Return r ->
  (forall k res, lf_nodeResults r !! k = Some res ->
     NodeResult.voltageKv res = sourceKv
     /\ NodeResult.voltagePu res = 1%R
     /\ NodeResult.dropPercent res = 0%R)
  /\ (forall k er, lf_edgeResults r !! k = Some er ->
        EdgeResult.powerLossKw er = 0%R /\ EdgeResult.currentAmps er = 0%R
        /\ EdgeResult.voltageDropKv er = 0%R).
Proof.
  intros Hs Hone Hzero Hkv Hr.
  assert (Hrest : forall n, n ∈ nodes -> NetworkNode.id n ≠ NetworkNode.id s ->
                            NetworkNode.loadKva n = 0%R).
  { intros n Hn Hid. apply Hzero; [done|].
    destruct (NetworkNode.type n) eqn:Hty; [|done].
    destruct Hid. by rewrite (Hone n Hn Hty). }
  destruct (zero_load_is_flat _ _ _ _ _ Hs Hrest Hr) as [Hnodes Hedges].
  split; [|exact Hedges].
  intros k res Hres. destruct (Hnodes k res Hres) as [Hv Hpu].
  split; [exact Hv|]. apply Hpu. lra.
Qed.

Lemma C7_zero_load_witness :
  exists r,
    calculateLoadFlow ZERO_NODES ZERO_EDGES 11 = Return r
    /\ forall k er, lf_edgeResults r !! k = Some er ->
         EdgeResult.powerLossKw er = 0%R /\ EdgeResult.currentAmps er = 0%R
         /\ EdgeResult.voltageDropKv er = 0%R.
Proof.
  assert (Hs : findSource ZERO_NODES
               = Some (NetworkNode.mk "n1" 100 300 "N1 (Source)" SOURCE 11 0 1
                         Industrial)) by reflexivity.
  assert (Hvalid : validEndpoints ZERO_NODES ZERO_EDGES)
    by (unfold validEndpoints; repeat constructor).
  destruct (calculateLoadFlow_returns ZERO_NODES ZERO_EDGES 11 _ Hs Hvalid) as [r Hr].
  exists r. split; [exact Hr|].
  refine (proj2 (C7_zero_load ZERO_NODES ZERO_EDGES 11 r _ Hs _ _ _ Hr)).
  - intros n Hn Hty. unfold ZERO_NODES in Hn.
    apply elem_of_cons in Hn as [->|Hn]; [reflexivity|].
    apply list_elem_of_singleton in Hn. subst n. discriminate Hty.
  - intros n Hn _. unfold ZERO_NODES in Hn.
    apply elem_of_cons in Hn as [->|Hn]; [reflexivity|].
    apply list_elem_of_singleton in Hn. subst n. reflexivity.
  - lra.
Defined.

(** ** Running the loops on a concrete network *)

Lemma backwardStep_source src pm acc : backwardStep src pm acc src = Return acc.
Proof. unfold backwardStep. by rewrite String.eqb_refl. Qed.

Lemma backwardStep_child src pm acc n p e pl ml :
  n ≠ src -> pm !! n = Some (p, e) -> acc !! p = Some pl -> acc !! n = Some ml ->
  backwardStep src pm acc n
  = Return (<[p := Power.mk (Power.p pl + Power.p ml) (Power.q pl + Power.q ml)]> acc).
Proof.
  intros Hne Hpm Hp Hn. unfold backwardStep.
  rewrite eqb_decide, bool_decide_eq_false_2 by done.
  by rewrite Hpm, Hp, Hn.
Qed.

Lemma forwardStep_source src sourceKv pm acc st :
  forwardStep src sourceKv pm acc st src = Return st.
Proof. unfold forwardStep. by rewrite String.eqb_refl. Qed.

Lemma forwardStep_results src sourceKv pm acc st n p e load pr st' :
  n ≠ src -> pm !! n = Some (p, e) -> acc !! n = Some load ->
  nodeResults st !! p = Some pr ->
  forwardStep src sourceKv pm acc st n = Return st' ->
  nodeResults st'
  = <[n := nodeResultOf sourceKv n e load (NodeResult.voltageKv pr)]> (nodeResults st)
  /\ edgeResults st'
     = <[NetworkEdge.id e := edgeResultOf sourceKv p e load (NodeResult.voltageKv pr)]>
         (edgeResults st)
  /\ totalLossKw st'
     = (totalLossKw st + seg_lossKw sourceKv e load (NodeResult.voltageKv pr))%R.
Proof.
  intros Hne Hpm Hload Hpr Hstep.
  apply forwardStep_Return in Hstep
    as [[? _]|(_ & p' & e' & load' & pr' & Hpm' & Hload' & Hpr' & ->)]; [done|].
  rewrite Hpm in Hpm'. inversion Hpm'; subst p' e'.
  rewrite Hload in Hload'. inversion Hload'; subst load'.
  rewrite Hpr in Hpr'. inversion Hpr'; subst pr'. done.
Qed.

(** ** The forward sweep against the formulas of the specification *)

(** The result of the segment that ends at a node, when no other parent edge
    carries the id of its edge. *)
Lemma FwdInv_edge_result src sourceKv pm acc l st n p e :
  FwdInv src sourceKv pm acc l st ->
  n ∈ l -> n ≠ src -> pm !! n = Some (p, e) ->
  (forall n' p' e', pm !! n' = Some (p', e') ->
                    NetworkEdge.id e' = NetworkEdge.id e -> n' = n) ->
  exists load pr,
    acc !! n = Some load /\ nodeResults st !! p = Some pr /\
    edgeResults st !! NetworkEdge.id e
    = Some (edgeResultOf sourceKv p e load (NodeResult.voltageKv pr)).
Proof.
  intros Hinv Hn Hne Hpm Huniq.
  destruct (fwd_edge_dom _ _ _ _ _ _ Hinv n p e Hn Hne Hpm) as [er Her].
  destruct (fwd_edge _ _ _ _ _ _ Hinv _ _ Her)
    as (n' & p' & e' & load & pr & _ & _ & Hpm' & Hid & Hload & Hpr & ->).
  assert (n' = n) as -> by (by eapply Huniq).
  rewrite Hpm in Hpm'. inversion Hpm'; subst p' e'.
  by exists load, pr.
Qed.

Lemma Rgt_dec_Req_dec {A : Type} (x : R) (a b : A) :
  (0 <= x)%R ->
  (if Rgt_dec x 0 then a else b) = (if Req_dec_T x 0 then b else a).
Proof.
  intros Hx. destruct (Rgt_dec x 0), (Req_dec_T x 0); try done; lra.
Qed.

Lemma seg_currentAmps_spec sourceKv load v :
  seg_currentAmps sourceKv load v
  = Spec.current (Spec.magnitude load) (orElse v sourceKv).
Proof.
  unfold seg_currentAmps, Spec.current.
  apply Rgt_dec_Req_dec, seg_sMagnitude_nonneg.
Qed.

Lemma seg_flowPf_spec load :
  seg_flowPf load = Spec.cosPhi (Power.p load) (Spec.magnitude load).
Proof.
  unfold seg_flowPf, Spec.cosPhi. apply Rgt_dec_Req_dec, seg_sMagnitude_nonneg.
Qed.

Lemma seg_xTotal_spec e : seg_xTotal e = Spec.reactance e.
Proof.
  unfold seg_xTotal, Spec.reactance.
  by destruct (Conductor.reactancePerKm _); simpl; rewrite ?orElse_0_r.
Qed.

Lemma seg_vDropLine_spec sourceKv e load v :
  seg_vDropLine sourceKv e load v
  = Spec.drop (Spec.current (Spec.magnitude load) (orElse v sourceKv))
      (Spec.resistance e) (Spec.reactance e)
      (Spec.cosPhi (Power.p load) (Spec.magnitude load)).
Proof.
  unfold seg_vDropLine, Spec.drop.
  by rewrite seg_currentAmps_spec, seg_flowPf_spec, seg_xTotal_spec.
Qed.

Lemma seg_lossKw_spec sourceKv e load v :
  seg_lossKw sourceKv e load v
  = Spec.loss (Spec.current (Spec.magnitude load) (orElse v sourceKv))
      (Spec.resistance e).
Proof. unfold seg_lossKw, Spec.loss. by rewrite seg_currentAmps_spec. Qed.

(** The result stored under an edge id is that of the last node of the level
    order whose parent edge has the id: the iterations that follow write
    under other ids and leave it alone. *)
Lemma forwardSweep_last_writer src sourceKv pm acc l st :
  NoDup l -> ParentsFirst pm src l ->
  forwardSweep src sourceKv pm acc l = Return st ->
  forall l1 n l2 p e,
    l = l1 ++ n :: l2 -> n ≠ src -> pm !! n = Some (p, e) ->
    (forall n' p' e', n' ∈ l2 -> n' ≠ src -> pm !! n' = Some (p', e') ->
                      NetworkEdge.id e' ≠ NetworkEdge.id e) ->
    exists load pr,
      acc !! n = Some load /\ nodeResults st !! p = Some pr /\
      edgeResults st !! NetworkEdge.id e
      = Some (edgeResultOf sourceKv p e load (NodeResult.voltageKv pr)).
Proof.
  intros Hnd Hpf Hrun.
  enough (FwdInv src sourceKv pm acc l st
          /\ forall l1 n l2 p e,
               l = l1 ++ n :: l2 -> n ≠ src -> pm !! n = Some (p, e) ->
               (forall n' p' e', n' ∈ l2 -> n' ≠ src -> pm !! n' = Some (p', e') ->
                                 NetworkEdge.id e' ≠ NetworkEdge.id e) ->
               exists load pr,
                 acc !! n = Some load /\ nodeResults st !! p = Some pr /\
                 edgeResults st !! NetworkEdge.id e
                 = Some (edgeResultOf sourceKv p e load (NodeResult.voltageKv pr)))
    as [_ H] by exact H.
  revert Hrun. unfold forwardSweep.
  apply (forEachM_prefix_invariant _
           (fun pre s =>
              FwdInv src sourceKv pm acc pre s
              /\ forall l1 n l2 p e,
                   pre = l1 ++ n :: l2 -> n ≠ src -> pm !! n = Some (p, e) ->
                   (forall n' p' e', n' ∈ l2 -> n' ≠ src ->
                                     pm !! n' = Some (p', e') ->
                                     NetworkEdge.id e' ≠ NetworkEdge.id e) ->
                   exists load pr,
                     acc !! n = Some load /\ nodeResults s !! p = Some pr /\
                     edgeResults s !! NetworkEdge.id e
                     = Some (edgeResultOf sourceKv p e load
                               (NodeResult.voltageKv pr)))).
  - intros pre m post s s' Hl [Hinv Hlast] Hstep.
    assert (Hfresh : m ∉ pre).
    { rewrite Hl in Hnd. apply NoDup_app in Hnd as (_ & Hdisj & _).
      intros Hm. apply (Hdisj m Hm). by left. }
    split.
    { apply (forwardStep_FwdInv _ _ _ _ pre m s s'); [done|done| |done].
      intros Hne p e Hpm.
      rewrite Hl, cons_middle, app_assoc in Hpf. apply ParentsFirst_app_l in Hpf.
      destruct (ParentsFirst_last _ _ _ _ Hpf Hne) as (p' & e' & Hpm' & Hp').
      rewrite Hpm in Hpm'. inversion Hpm'; subst. by right. }
    assert (Hkept : forall k, is_Some (nodeResults s !! k) -> k ≠ m \/ m = src).
    { intros k Hk. apply (fwd_dom _ _ _ _ _ _ Hinv) in Hk as [->|Hk].
      - destruct (decide (m = src)); [by right|by left].
      - left. by intros ->. }
    intros l1 n l2 p e Hpre Hne Hpm Hlater.
    destruct (decide (l2 = [])) as [->|Hl2].
    + apply app_inj_tail in Hpre as [-> ->].
      destruct (forwardStep_Return _ _ _ _ _ _ _ Hstep)
        as [[? _]|(_ & p' & e' & load & pr & Hpm' & Hload & Hpr & ->)]; [done|].
      rewrite Hpm in Hpm'. inversion Hpm'; subst p' e'.
      exists load, pr. split; [done|]. cbn [nodeResults edgeResults]. split.
      * destruct (Hkept p (mk_is_Some _ _ Hpr)) as [Hp|Hp]; [|done].
        by rewrite lookup_insert_ne.
      * by rewrite lookup_insert_eq.
    + destruct (exists_last Hl2) as (l2' & x & ->).
      rewrite app_comm_cons, app_assoc in Hpre.
      apply app_inj_tail in Hpre as [-> ->].
      destruct (Hlast l1 n l2' p e eq_refl Hne Hpm) as (load & pr & Hload & Hpr & Her).
      { intros n' p' e' Hn'. apply Hlater. apply elem_of_app. by left. }
      exists load, pr. split; [done|].
      destruct (forwardStep_Return _ _ _ _ _ _ _ Hstep)
        as [[_ ->]|(Hxs & p' & e' & load' & pr' & Hpm' & _ & _ & ->)]; [done|].
      cbn [nodeResults edgeResults]. split.
      * destruct (Hkept p (mk_is_Some _ _ Hpr)) as [Hp|Hp]; [|done].
        by rewrite lookup_insert_ne.
      * rewrite lookup_insert_ne; [done|].
        apply (Hlater x p' e'); [|done|done].
        apply elem_of_app. right. apply list_elem_of_here.
  - split; [apply FwdInv_init|].
    intros l1 n l2 p e Hnil. by destruct l1.
Qed.

(** C1, amended.  For every reachable non-root node, with its parent entry,
    its aggregated load and the parent's result: the current is
    S / (sqrt 3 * V) (0 when S = 0), where V is the parent's voltage, or the
    source voltage when the parent's voltage is 0; the drop is
    sqrt 3 * I * (R cos phi + X sin phi) / 1000; the node voltage is the
    parent's voltage minus the drop and the per-unit voltage is that over the
    source voltage; the loss is 3 * I^2 * R / 1000.  The edge result under
    the edge's id holds these values unless it was overwritten: unless a node
    that stands later in the level order has a parent edge of the same id. *)
Theorem C1_forward_sweep_formulas nodes edges sourceKv r s :
  findSource nodes = Some s ->
  calculateLoadFlow nodes edges sourceKv = Return r ->
  exists acc,
    backwardSweep (NetworkNode.id s) (parentMap (bfs edges (NetworkNode.id s)))
      (levelOrder (bfs edges (NetworkNode.id s))) (initialLoads nodes) = Return acc
    /\ forall n,
        Reachable edges (NetworkNode.id s) n -> n ≠ NetworkNode.id s ->
        exists p e load pr nr,
          parentMap (bfs edges (NetworkNode.id s)) !! n = Some (p, e)
          /\ acc !! n = Some load
          /\ lf_nodeResults r !! p = Some pr
          /\ lf_nodeResults r !! n = Some nr
          /\ let sMag := Spec.magnitude load in
             let vParent := orElse (NodeResult.voltageKv pr) sourceKv in
             let amps := Spec.current sMag vParent in
             let cosphi := Spec.cosPhi (Power.p load) sMag in
             let dV := Spec.drop amps (Spec.resistance e) (Spec.reactance e) cosphi in
             NodeResult.voltageKv nr = (NodeResult.voltageKv pr - dV)%R
             /\ NodeResult.voltagePu nr = (NodeResult.voltageKv nr / sourceKv)%R
             /\ ((forall i j n' p' e',
                     levelOrder (bfs edges (NetworkNode.id s)) !! i = Some n ->
                     levelOrder (bfs edges (NetworkNode.id s)) !! j = Some n' ->
                     (i < j)%nat ->
                     parentMap (bfs edges (NetworkNode.id s)) !! n' = Some (p', e') ->
                     NetworkEdge.id e' ≠ NetworkEdge.id e) ->
                 exists er,
                   lf_edgeResults r !! NetworkEdge.id e = Some er
                   /\ EdgeResult.currentAmps er = amps
                   /\ EdgeResult.voltageDropKv er = dV
                   /\ EdgeResult.powerLossKw er = Spec.loss amps (Spec.resistance e)).
Proof.
  intros Hs Hr.
  apply calculateLoadFlow_Return in Hr as (s' & acc & fwd & Hs' & Hb & Hf & ->).
  rewrite Hs in Hs'. inversion Hs'; subst s'.
  pose proof (FwdInv_of_run _ _ _ _ _ Hf) as Hinv.
  exists acc. split; [done|]. intros n Hn Hne. simpl.
  apply levelOrder_reachable in Hn.
  destruct (fwd_node _ _ _ _ _ _ Hinv n Hn Hne)
    as (p & e & load & pr & Hpm & Hload & Hpr & Hnr).
  exists p, e, load, pr, (nodeResultOf sourceKv n e load (NodeResult.voltageKv pr)).
  repeat (split; [done|]). cbv zeta. split; [|split].
  - unfold nodeResultOf, seg_nodeVoltageKv. simpl. by rewrite seg_vDropLine_spec.
  - done.
  - intros Hlater.
    destruct (list_elem_of_lookup_1 _ _ Hn) as [i Hi].
    destruct (forwardSweep_last_writer _ _ _ _ _ _
                (levelOrder_NoDup edges (NetworkNode.id s))
                (bfs_ParentsFirst edges (NetworkNode.id s)) Hf
                (take i (levelOrder (bfs edges (NetworkNode.id s)))) n
                (drop (S i) (levelOrder (bfs edges (NetworkNode.id s)))) p e)
      as (load' & pr' & Hload' & Hpr' & Her); [|done|done| |].
    + symmetry. by apply take_drop_middle.
    + intros n' p' e' Hn' _ Hpm'.
      apply list_elem_of_lookup_1 in Hn' as [k Hk]. rewrite lookup_drop in Hk.
      apply (Hlater i (S i + k)%nat n' p' e'); [done|done|lia|done].
    + rewrite Hload in Hload'. inversion Hload'; subst load'.
      rewrite Hpr in Hpr'. inversion Hpr'; subst pr'.
      eexists. split; [exact Her|]. unfold edgeResultOf. simpl.
      by rewrite seg_currentAmps_spec, seg_vDropLine_spec, seg_lossKw_spec.
Qed.

Lemma C1_forward_sweep_formulas_witness :
  exists r acc,
    calculateLoadFlow INITIAL_NODES INITIAL_EDGES 11 = Return r
    /\ backwardSweep "n1" (parentMap (bfs INITIAL_EDGES "n1"))
         (levelOrder (bfs INITIAL_EDGES "n1")) (initialLoads INITIAL_NODES)
       = Return acc.
Proof.
  destruct (calculateLoadFlow_returns INITIAL_NODES INITIAL_EDGES 11 _
              INITIAL_source INITIAL_valid) as [r Hr].
  destruct (C1_forward_sweep_formulas _ _ _ _ _ INITIAL_source Hr) as (acc & Hacc & _).
  exists r, acc. split; [exact Hr | exact Hacc].
Defined.

(** Membership in, and difference of, literals: decided on the literals
    alone, whatever the context holds. *)
Ltac in_list := repeat first [apply list_elem_of_here | apply list_elem_of_further].
Ltac neq_lit := let H := fresh in intros H; discriminate H.

Lemma lookup_by_list {A : Type} (m : gmap string A) (l : list (string * A)) k v :
  map_to_list m = l -> m !! k = Some v <-> (k, v) ∈ l.
Proof. intros <-. by rewrite elem_of_map_to_list. Qed.

Lemma FwdInv_root_voltage src sourceKv pm acc l st pr :
  FwdInv src sourceKv pm acc l st ->
  nodeResults st !! src = Some pr -> NodeResult.voltageKv pr = sourceKv.
Proof.
  intros Hinv Hpr. rewrite (fwd_root _ _ _ _ _ _ Hinv) in Hpr.
  by inversion Hpr.
Qed.

Lemma FALLBACK_parentMap :
  map_to_list (parentMap (bfs FALLBACK_EDGES "s"))
  = [ ("a", ("s", FB_e1)); ("b", ("a", FB_e2)) ].
Proof. vm_compute. reflexivity. Qed.

Lemma FALLBACK_levelOrder : levelOrder (bfs FALLBACK_EDGES "s") = ["s"; "a"; "b"].
Proof. vm_compute. reflexivity. Qed.

Lemma FALLBACK_source : findSource FALLBACK_NODES = Some FB_s.
Proof. reflexivity. Qed.

Lemma FALLBACK_valid : validEndpoints FALLBACK_NODES FALLBACK_EDGES.
Proof. unfold validEndpoints. repeat constructor. Qed.

Lemma unity_pf_load (kva : R) :
  (kva * sin (acos 1) = 0)%R.
Proof. rewrite acos_1, sin_0. ring. Qed.

Lemma rabbit_rTotal e :
  NetworkEdge.conductorId e = "rabbit" -> NetworkEdge.lengthMeters e = 1000%R ->
  seg_rTotal e = (5426 / 10000)%R.
Proof.
  intros Hc Hl. unfold seg_rTotal. rewrite Hc, Hl.
  change (getConductor "rabbit") with CONDUCTORS_0. simpl. field.
Qed.

(** C1, counterexample.  In the feeder above node "a" is computed at 0 kV, and
    the current of the segment from "a" to "b" is not S / (sqrt 3 * 0): the
    code divides by the source voltage there. *)
Lemma C1_counterexample :
  exists r acc load pr er,
    calculateLoadFlow FALLBACK_NODES FALLBACK_EDGES (5426 / 10000) = Return r
    /\ backwardSweep "s" (parentMap (bfs FALLBACK_EDGES "s"))
         (levelOrder (bfs FALLBACK_EDGES "s")) (initialLoads FALLBACK_NODES)
       = Return acc
    /\ parentMap (bfs FALLBACK_EDGES "s") !! "b" = Some ("a", FB_e2)
    /\ acc !! "b" = Some load
    /\ lf_nodeResults r !! "a" = Some pr
    /\ lf_edgeResults r !! "e2" = Some er
    /\ NodeResult.voltageKv pr = 0%R
    /\ EdgeResult.currentAmps er
       ≠ Spec.current (Spec.magnitude load) (NodeResult.voltageKv pr).
Proof.
  destruct (calculateLoadFlow_returns FALLBACK_NODES FALLBACK_EDGES (5426 / 10000) _
              FALLBACK_source FALLBACK_valid) as [r Hr].
  destruct (calculateLoadFlow_phases _ _ _ _ _ FALLBACK_source Hr)
    as (acc & fwd & Hb & Hinv & ->).
  change (NetworkNode.id FB_s) with "s" in *.
  set (pm := parentMap (bfs FALLBACK_EDGES "s")) in *.
  assert (Hpma : pm !! "a" = Some ("s", FB_e1)).
  { apply (lookup_by_list _ _ _ _ FALLBACK_parentMap). apply list_elem_of_here. }
  assert (Hpmb : pm !! "b" = Some ("a", FB_e2)).
  { apply (lookup_by_list _ _ _ _ FALLBACK_parentMap).
    apply list_elem_of_further, list_elem_of_here. }
  exists (assemble FALLBACK_NODES FALLBACK_EDGES "s" fwd), acc.
  (* the backward sweep, step by step *)
  pose proof Hb as Hacc. rewrite FALLBACK_levelOrder in Hacc, Hinv.
  unfold backwardSweep in Hacc.
  change (reverse ["s"; "a"; "b"]) with ["b"; "a"; "s"] in Hacc.
  unfold FALLBACK_NODES, initialLoads in Hacc. cbn [foldl forEachM] in Hacc.
  change (NetworkNode.id FB_s) with "s" in Hacc.
  change (NetworkNode.id FB_a) with "a" in Hacc.
  change (NetworkNode.id FB_b) with "b" in Hacc.
  erewrite backwardStep_child in Hacc; [|neq_lit|exact Hpmb|reflexivity|reflexivity].
  cbn [mbind outcome_bind] in Hacc.
  erewrite backwardStep_child in Hacc; [|neq_lit|exact Hpma|reflexivity|reflexivity].
  cbn [mbind outcome_bind] in Hacc.
  rewrite backwardStep_source in Hacc. apply Return_inj in Hacc.
  assert (Hla : exists la, acc !! "a" = Some la
                           /\ Power.p la = (5426 / 10)%R /\ Power.q la = 0%R).
  { eexists. split; [subst acc; reflexivity|]. unfold ownLoad. simpl.
    rewrite !unity_pf_load. split; field. }
  assert (Hlb : acc !! "b" = Some (ownLoad FB_b)) by (subst acc; reflexivity).
  clear Hacc. destruct Hla as (la & Hla & Hpa & Hqa).
  (* node "a" *)
  destruct (fwd_node _ _ _ _ _ _ Hinv "a") as (p & e & load & pr & H1 & H2 & H3 & Hra);
    [in_list|neq_lit|].
  rewrite Hpma in H1. inversion H1; subst p e. clear H1.
  rewrite Hla in H2. inversion H2; subst load. clear H2.
  apply (FwdInv_root_voltage _ _ _ _ _ _ _ Hinv) in H3. rewrite H3 in Hra. clear H3 pr.
  assert (HSa : (0 < seg_sMagnitude la)%R) by (apply seg_sMagnitude_pos; lra).
  assert (Hkv : orElse (5426 / 10000) (5426 / 10000) = (5426 / 10000)%R).
  { unfold orElse. by destruct (Req_dec_T _ _). }
  assert (Hva : seg_nodeVoltageKv (5426 / 10000) FB_e1 la (5426 / 10000) = 0%R).
  { unfold seg_nodeVoltageKv. rewrite seg_vDropLine_closed; [|done|rewrite Hkv; lra].
    rewrite Hkv, Hpa, (rabbit_rTotal FB_e1) by done. field. }
  (* node "b" and its edge *)
  destruct (FwdInv_edge_result _ _ _ _ _ _ "b" "a" FB_e2 Hinv)
    as (load & pr & H2 & H3 & Her); [in_list|neq_lit|exact Hpmb| |].
  { intros n' p' e' Hn' He'.
    apply (lookup_by_list _ _ _ _ FALLBACK_parentMap) in Hn'.
    apply elem_of_cons in Hn' as [Hn'|Hn'].
    - inversion Hn'; subst. done.
    - apply list_elem_of_singleton in Hn'. by inversion Hn'. }
  rewrite Hlb in H2. inversion H2; subst load. clear H2.
  rewrite Hra in H3. inversion H3; subst pr. clear H3.
  eexists (ownLoad FB_b), _, _.
  split; [exact Hr|]. split; [exact Hb|]. split; [exact Hpmb|]. split; [exact Hlb|].
  split; [exact Hra|]. split; [exact Her|]. split; [exact Hva|].
  unfold edgeResultOf, nodeResultOf. cbn [EdgeResult.currentAmps NodeResult.voltageKv].
  rewrite Hva.
  assert (HSb : (0 < seg_sMagnitude (ownLoad FB_b))%R).
  { apply seg_sMagnitude_pos. unfold ownLoad. simpl. lra. }
  rewrite seg_currentAmps_closed by done.
  unfold Spec.current.
  change (Spec.magnitude (ownLoad FB_b)) with (seg_sMagnitude (ownLoad FB_b)).
  destruct (Req_dec_T (seg_sMagnitude (ownLoad FB_b)) 0) as [H0|_]; [lra|].
  replace (sqrt 3 * 0)%R with 0%R by ring.
  replace (seg_sMagnitude (ownLoad FB_b) / 0)%R with 0%R
    by (unfold Rdiv; rewrite Rinv_0; ring).
  assert (Hv0 : orElse 0 (5426 / 10000) = (5426 / 10000)%R).
  { unfold orElse. destruct (Req_dec_T 0 0); [done|lra]. }
  rewrite Hv0. pose proof sqrt3_pos.
  apply Rgt_not_eq. apply Rdiv_lt_0_compat; lra.
Qed.

(** ** System statistics *)

Lemma systemStats_snoc M nodes n :
  systemStats M (nodes ++ [n]) = statsStep M (systemStats M nodes) n.
Proof. unfold systemStats. by rewrite foldl_snoc. Qed.

Lemma sumList_snoc l a : sumList (l ++ [a]) = (sumList l + a)%R.
Proof. rewrite sumList_app. unfold sumList. simpl. lra. Qed.

Lemma systemStats_StatsInv M nodes : StatsInv M nodes (systemStats M nodes).
Proof.
  induction nodes as [|n nodes IH] using rev_ind.
  - split; unfold systemStats; cbn [foldl minV criticalNodeId totalKva].
    + lra.
    + intros n res Hn. by apply elem_of_nil in Hn.
    + done.
    + intros c Hc. discriminate Hc.
    + done.
  - rewrite systemStats_snoc. destruct IH as [Hle Hlow Hnone Hsome Htot].
    unfold statsStep.
    assert (Htot' : (totalKva (systemStats M nodes) + NetworkNode.loadKva n)%R
                    = sumList (map NetworkNode.loadKva (nodes ++ [n]))).
    { rewrite map_app. cbn [map]. by rewrite sumList_snoc, Htot. }
    destruct (M !! NetworkNode.id n) as [res|] eqn:Hres.
    + destruct (Rlt_dec (NodeResult.voltagePu res) (minV (systemStats M nodes)))
        as [Hlt|Hge].
      * split; simpl; [lra| | done | | done].
        -- intros n0 res0 Hn0 Hres0. apply elem_of_app in Hn0 as [Hn0|Hn0].
           ++ pose proof (Hlow n0 res0 Hn0 Hres0). lra.
           ++ apply list_elem_of_singleton in Hn0. subst n0.
              rewrite Hres in Hres0. inversion Hres0. lra.
        -- intros c [= <-]. split; [lra|].
           exists nodes, n, [], res. repeat (split; [done|]).
           intros n' res' Hn' Hres'. pose proof (Hlow n' res' Hn' Hres'). lra.
      * split; simpl; [done| | done | | done].
        -- intros n0 res0 Hn0 Hres0. apply elem_of_app in Hn0 as [Hn0|Hn0].
           ++ by eapply Hlow.
           ++ apply list_elem_of_singleton in Hn0. subst n0.
              rewrite Hres in Hres0. inversion Hres0; subst. lra.
        -- intros c Hc. destruct (Hsome c Hc)
             as (Hlt & l1 & n0 & l2 & res0 & -> & H1 & H2 & H3 & H4).
           split; [done|]. exists l1, n0, (l2 ++ [n]), res0.
           split; [by rewrite <- app_assoc|done].
    + split; simpl; [done| | done | | done].
      * intros n0 res0 Hn0 Hres0. apply elem_of_app in Hn0 as [Hn0|Hn0].
        -- by eapply Hlow.
        -- apply list_elem_of_singleton in Hn0. subst n0. congruence.
      * intros c Hc. destruct (Hsome c Hc)
          as (Hlt & l1 & n0 & l2 & res0 & -> & H1 & H2 & H3 & H4).
        split; [done|]. exists l1, n0, (l2 ++ [n]), res0.
        split; [by rewrite <- app_assoc|done].
Qed.

(** Every key of the node results is the id of a node of the input. *)
Lemma result_keys_are_nodes nodes edges sourceKv r s k :
  findSource nodes = Some s ->
  calculateLoadFlow nodes edges sourceKv = Return r ->
  is_Some (lf_nodeResults r !! k) ->
  exists n, n ∈ nodes /\ NetworkNode.id n = k.
Proof.
  intros Hs Hr Hk.
  destruct (calculateLoadFlow_phases _ _ _ _ _ Hs Hr) as (acc & fwd & Hb & Hinv & ->).
  simpl in Hk. apply (fwd_dom _ _ _ _ _ _ Hinv) in Hk.
  destruct (decide (k = NetworkNode.id s)) as [->|Hne].
  - exists s. split; [|done]. by apply findSource_Some in Hs as [? _].
  - destruct Hk as [?|Hk]; [done|].
    destruct (fwd_node _ _ _ _ _ _ Hinv k Hk Hne) as (p & e & load & pr & _ & Hl & _).
    assert (is_Some (initialLoads nodes !! k)) as Hi.
    { rewrite <- (backwardSweep_is_Some _ _ _ _ _ k Hb). eauto. }
    apply initialLoads_is_Some, list_elem_of_fmap in Hi as (n & -> & Hn). eauto.
Qed.

(** The criticalNodeId is null exactly when no node result is below 1.0. *)
Lemma critical_None_iff nodes edges sourceKv r s :
  findSource nodes = Some s ->
  calculateLoadFlow nodes edges sourceKv = Return r ->
  SystemResult.criticalNodeId (lf_systemResult r) = None
  <-> forall k res, lf_nodeResults r !! k = Some res ->
                    ~ (NodeResult.voltagePu res < 1)%R.
Proof.
  intros Hs Hr.
  pose proof (result_keys_are_nodes nodes edges sourceKv r s) as Hkeys.
  specialize (fun k => Hkeys k Hs Hr).
  destruct (calculateLoadFlow_phases _ _ _ _ _ Hs Hr) as (acc & fwd & Hb & Hinv & ->).
  simpl in *.
  destruct (systemStats_StatsInv (nodeResults fwd) nodes)
    as [Hle Hlow Hnone Hsome _].
  split.
  - intros Hc k res Hk Hlt.
    destruct (Hkeys k) as (n & Hn & <-); [by eauto|].
    pose proof (Hlow n res Hn Hk). rewrite (Hnone Hc) in *. lra.
  - intros Hall.
    destruct (criticalNodeId (systemStats (nodeResults fwd) nodes)) as [c|] eqn:Hc;
      [|done].
    destruct (Hsome c eq_refl) as (Hlt & _ & _ & _ & res & _ & _ & Hres & Hpu & _).
    destruct (Hall c res Hres). lra.
Qed.

(** C10. The reported minimum never exceeds 1.0; criticalNodeId is null
    exactly when no node result has a per-unit voltage strictly below 1.0, and
    then the minimum is reported as 1.0 and the critical path has length 0 and
    resistance 0. *)
Theorem C10_min_voltage_at_most_one nodes edges sourceKv r s :
  findSource nodes = Some s ->
  calculateLoadFlow nodes edges sourceKv = Return r ->
  (SystemResult.minVoltagePu (lf_systemResult r) <= 1)%R
  /\ (SystemResult.criticalNodeId (lf_systemResult r) = None
      <-> forall k res, lf_nodeResults r !! k = Some res ->
                        ~ (NodeResult.voltagePu res < 1)%R)
  /\ (SystemResult.criticalNodeId (lf_systemResult r) = None ->
      SystemResult.minVoltagePu (lf_systemResult r) = 1%R
      /\ SystemResult.criticalPathLengthMeters (lf_systemResult r) = 0%R
      /\ SystemResult.criticalPathResistanceOhms (lf_systemResult r) = 0%R).
Proof.
  intros Hs Hr. split; [|split].
  - destruct (calculateLoadFlow_phases _ _ _ _ _ Hs Hr) as (acc & fwd & _ & _ & ->).
    simpl. apply systemStats_StatsInv.
  - by eapply critical_None_iff.
  - destruct (calculateLoadFlow_phases _ _ _ _ _ Hs Hr) as (acc & fwd & _ & _ & ->).
    simpl. intros Hc. rewrite Hc. simpl. split; [|done].
    by apply (st_none _ _ _ (systemStats_StatsInv (nodeResults fwd) nodes)).
Qed.

Lemma C10_min_voltage_at_most_one_witness :
  exists r,
    calculateLoadFlow INITIAL_NODES INITIAL_EDGES 11 = Return r
    /\ (SystemResult.minVoltagePu (lf_systemResult r) <= 1)%R.
Proof.
  destruct (calculateLoadFlow_returns INITIAL_NODES INITIAL_EDGES 11 _
              INITIAL_source INITIAL_valid) as [r Hr].
  exists r. split; [exact Hr|].
  exact (proj1 (C10_min_voltage_at_most_one _ _ _ _ _ INITIAL_source Hr)).
Defined.

(** C4, amended.  The reported minimum is the minimum per-unit voltage over
    the node results (it is a lower bound of all of them and one of them has
    it).  criticalNodeId is null when that minimum is 1.0; otherwise it is the
    id of the first node, in the order of the input node list, whose result
    has the minimum. *)
Theorem C4_minimum_and_critical_node nodes edges sourceKv r s :
  findSource nodes = Some s ->
  calculateLoadFlow nodes edges sourceKv = Return r ->
  let minPu := SystemResult.minVoltagePu (lf_systemResult r) in
  (forall k res, lf_nodeResults r !! k = Some res ->
                 (minPu <= NodeResult.voltagePu res)%R)
  /\ (exists k res, lf_nodeResults r !! k = Some res
                    /\ NodeResult.voltagePu res = minPu)
  /\ (SystemResult.criticalNodeId (lf_systemResult r) = None -> minPu = 1%R)
  /\ (forall c, SystemResult.criticalNodeId (lf_systemResult r) = Some c ->
        (minPu < 1)%R /\
        exists l1 n l2 res,
          nodes = l1 ++ n :: l2 /\ NetworkNode.id n = c /\
          lf_nodeResults r !! c = Some res /\ NodeResult.voltagePu res = minPu /\
          forall n' res', n' ∈ l1 ->
            lf_nodeResults r !! NetworkNode.id n' = Some res' ->
            (minPu < NodeResult.voltagePu res')%R).
Proof.
  intros Hs Hr.
  pose proof (result_keys_are_nodes nodes edges sourceKv r s) as Hkeys.
  specialize (fun k => Hkeys k Hs Hr).
  destruct (calculateLoadFlow_phases _ _ _ _ _ Hs Hr) as (acc & fwd & Hb & Hinv & ->).
  simpl in *.
  destruct (systemStats_StatsInv (nodeResults fwd) nodes)
    as [Hle Hlow Hnone Hsome _].
  split; [|split; [|split]].
  - intros k res Hk. destruct (Hkeys k) as (n & Hn & <-); [by eauto|].
    by eapply Hlow.
  - destruct (criticalNodeId (systemStats (nodeResults fwd) nodes)) as [c|] eqn:Hc.
    + destruct (Hsome c eq_refl) as (_ & _ & _ & _ & res & _ & _ & Hres & Hpu & _).
      by exists c, res.
    + exists (NetworkNode.id s), (NodeResult.mk (NetworkNode.id s) sourceKv 1 0 0).
      split; [apply Hinv|]. simpl. by rewrite Hnone.
  - done.
  - done.
Qed.

Lemma C4_minimum_and_critical_node_witness :
  exists r,
    calculateLoadFlow INITIAL_NODES INITIAL_EDGES 11 = Return r
    /\ exists k res, lf_nodeResults r !! k = Some res
                     /\ NodeResult.voltagePu res
                        = SystemResult.minVoltagePu (lf_systemResult r).
Proof.
  destruct (calculateLoadFlow_returns INITIAL_NODES INITIAL_EDGES 11 _
              INITIAL_source INITIAL_valid) as [r Hr].
  exists r. split; [exact Hr|].
  exact (proj1 (proj2 (C4_minimum_and_critical_node _ _ _ _ _ INITIAL_source Hr))).
Defined.

(** ** A source and one node behind it *)

(** The backward sweep leaves the load of a node without children as it was. *)
Lemma backwardSweep_leaf src pm l acc acc' k :
  (forall n p e, pm !! n = Some (p, e) -> p ≠ k) ->
  backwardSweep src pm l acc = Return acc' -> acc' !! k = acc !! k.
Proof.
  intros Hleaf. unfold backwardSweep.
  apply (forEachM_invariant _ (fun a => a !! k = acc !! k)); [|done].
  intros a n a' _ Ha Hstep.
  apply backwardStep_Return in Hstep
    as [[_ ->]|[(_ & _ & ->)|(_ & p & e & pl & ml & Hpm & _ & _ & ->)]]; [done|done|].
  rewrite lookup_insert_ne; [done|]. by eapply Hleaf.
Qed.

Section TwoNodes.
Variable sourceKv : R.
Variable ns na : NetworkNode.t.
Variable e : NetworkEdge.t.
Hypothesis ns_id : NetworkNode.id ns = "s".
Hypothesis ns_type : NetworkNode.type ns = SOURCE.
Hypothesis na_id : NetworkNode.id na = "a".
Hypothesis e_id : NetworkEdge.id e = "e1".
Hypothesis e_source : NetworkEdge.source e = "s".
Hypothesis e_target : NetworkEdge.target e = "a".

Lemma two_nodes_edge :
  e = NetworkEdge.mk "e1" "s" "a" (NetworkEdge.lengthMeters e)
        (NetworkEdge.conductorId e).
Proof using e_id e_source e_target.
  destruct e. simpl in *. by subst.
Qed.

Lemma two_nodes_topology (len : R) (cond : string) :
  levelOrder (bfs [NetworkEdge.mk "e1" "s" "a" len cond] "s") = ["s"; "a"]
  /\ map_to_list (parentMap (bfs [NetworkEdge.mk "e1" "s" "a" len cond] "s"))
     = [("a", ("s", NetworkEdge.mk "e1" "s" "a" len cond))].
Proof. split; vm_compute; reflexivity. Qed.

(** The run of the solver on the two nodes and the edge between them. *)
Lemma two_nodes_run :
  exists fwd,
    calculateLoadFlow [ns; na] [e] sourceKv = Return (assemble [ns; na] [e] "s" fwd)
    /\ nodeResults fwd !! "a" = Some (nodeResultOf sourceKv "a" e (ownLoad na) sourceKv)
    /\ edgeResults fwd !! "e1" = Some (edgeResultOf sourceKv "s" e (ownLoad na) sourceKv)
    /\ totalLossKw fwd = (0 + seg_lossKw sourceKv e (ownLoad na) sourceKv)%R.
Proof using ns_id ns_type na_id e_id e_source e_target.
  assert (Hs : findSource [ns; na] = Some ns).
  { unfold findSource, isSource. cbn [List.find].
    by rewrite ns_type, bool_decide_eq_true_2. }
  assert (Hvalid : validEndpoints [ns; na] [e]).
  { unfold validEndpoints. constructor; [|constructor]. cbn [map].
    rewrite ns_id, na_id, e_source, e_target. split; in_list. }
  destruct (calculateLoadFlow_returns [ns; na] [e] sourceKv ns Hs Hvalid) as [r Hr].
  destruct (calculateLoadFlow_Return _ _ _ _ Hr) as (s' & acc & fwd & Hs' & Hb & Hf & ->).
  rewrite Hs in Hs'. inversion Hs'; subst s'. clear Hs'.
  rewrite ns_id in *. exists fwd. split; [exact Hr|].
  destruct (two_nodes_topology (NetworkEdge.lengthMeters e) (NetworkEdge.conductorId e))
    as [Hlo Hpm].
  rewrite <- two_nodes_edge in Hlo, Hpm. rewrite Hlo in Hf.
  set (pm := parentMap (bfs [e] "s")) in *.
  assert (Hpma : pm !! "a" = Some ("s", e)).
  { apply (lookup_by_list _ _ _ _ Hpm). in_list. }
  assert (Hleaf : forall n p e', pm !! n = Some (p, e') -> p ≠ "a").
  { intros n p e' Hn. apply (lookup_by_list _ _ _ _ Hpm), list_elem_of_singleton in Hn.
    inversion Hn. neq_lit. }
  assert (Hacc : acc !! "a" = Some (ownLoad na)).
  { rewrite (backwardSweep_leaf _ _ _ _ _ "a" Hleaf Hb).
    unfold initialLoads. cbn [foldl]. rewrite na_id. apply lookup_insert_eq. }
  (* the forward sweep, step by step *)
  unfold forwardSweep in Hf. cbn [forEachM] in Hf.
  rewrite forwardStep_source in Hf. cbn [mbind outcome_bind] in Hf.
  destruct (forwardStep "s" sourceKv pm acc (forwardInit "s" sourceKv) "a")
    as [st|] eqn:Hstep; cbn [mbind outcome_bind] in Hf; [|discriminate Hf].
  apply Return_inj in Hf. subst st.
  destruct (forwardStep_results "s" sourceKv pm acc (forwardInit "s" sourceKv) "a" "s" e
              (ownLoad na) (NodeResult.mk "s" sourceKv 1 0 0) fwd)
    as (Hnodes & Hedges & Hloss);
    [neq_lit|exact Hpma|exact Hacc|apply lookup_singleton_eq|exact Hstep|].
  cbn [NodeResult.voltageKv] in *.
  split; [rewrite Hnodes; apply lookup_insert_eq|].
  split; [rewrite Hedges, e_id; apply lookup_insert_eq|].
  exact Hloss.
Qed.

End TwoNodes.

(** ** Losses *)

Lemma seg_lossKw_closed sourceKv e load v :
  (0 < seg_sMagnitude load)%R -> orElse v sourceKv ≠ 0%R ->
  seg_lossKw sourceKv e load v
  = ((Power.p load ^ 2 + Power.q load ^ 2) * seg_rTotal e
     / (1000 * (orElse v sourceKv) ^ 2))%R.
Proof.
  intros HS Hv. unfold seg_lossKw. rewrite seg_currentAmps_closed by done.
  rewrite <- seg_sMagnitude_sqr. pose proof sqrt3_pos as H3.
  replace (3 * (seg_sMagnitude load / (sqrt 3 * orElse v sourceKv)) ^ 2)%R
    with (3 * (seg_sMagnitude load * seg_sMagnitude load)
          / ((sqrt 3 * sqrt 3) * (orElse v sourceKv) ^ 2))%R
    by (field; split; lra).
  rewrite sqrt3_sqr. field. done.
Qed.

Lemma seg_lossKw_pos sourceKv e load v :
  (0 < seg_sMagnitude load)%R -> orElse v sourceKv ≠ 0%R ->
  (0 < NetworkEdge.lengthMeters e)%R ->
  (0 < seg_lossKw sourceKv e load v)%R.
Proof.
  intros HS Hv Hl. rewrite seg_lossKw_closed by done.
  pose proof (seg_rTotal_pos e Hl) as Hr.
  rewrite <- seg_sMagnitude_sqr.
  assert (0 < orElse v sourceKv ^ 2)%R.
  { replace (orElse v sourceKv ^ 2)%R
      with (orElse v sourceKv * orElse v sourceKv)%R by ring.
    by apply Rsqr_pos_lt. }
  apply Rdiv_lt_0_compat; [|lra].
  apply Rmult_lt_0_compat; [|done]. by apply Rmult_lt_0_compat.
Qed.

Lemma orElse_same a : orElse a a = a.
Proof. unfold orElse. by destruct (Req_dec_T a 0). Qed.

(** Why the property of zero load needs the SOURCE node to be the only one:
    with a second SOURCE node drawing 100 kVA behind the first and no LOAD
    node at all, the edge between the two carries a loss. *)
Lemma second_source_load_counts :
  exists r er,
    calculateLoadFlow [TS_s; TS_a] [TS_e] 11 = Return r
    /\ (forall n, n ∈ [TS_s; TS_a] -> NetworkNode.type n = LOAD ->
                  NetworkNode.loadKva n = 0%R)
    /\ lf_edgeResults r !! "e1" = Some er
    /\ EdgeResult.powerLossKw er ≠ 0%R.
Proof.
  destruct (two_nodes_run 11 TS_s TS_a TS_e eq_refl eq_refl eq_refl eq_refl eq_refl
              eq_refl) as (fwd & Hr & _ & Her & _).
  eexists _, _. split; [exact Hr|]. split; [|split; [exact Her|]].
  - intros n Hn Hty. apply elem_of_cons in Hn as [->|Hn]; [discriminate Hty|].
    apply list_elem_of_singleton in Hn. subst n. discriminate Hty.
  - unfold edgeResultOf. cbn [EdgeResult.powerLossKw].
    apply Rgt_not_eq, Rlt_gt, seg_lossKw_pos.
    + apply seg_sMagnitude_pos. unfold ownLoad, TS_a. simpl. lra.
    + rewrite orElse_same. lra.
    + unfold TS_e. simpl. lra.
Qed.

Lemma totalEdgeLoss_insert m k er :
  m !! k = None ->
  totalEdgeLoss (<[k := er]> m) = (EdgeResult.powerLossKw er + totalEdgeLoss m)%R.
Proof.
  intros Hk. unfold totalEdgeLoss.
  rewrite map_fold_insert_L; [done| |done].
  intros. lra.
Qed.

Lemma NoDup_map_inj {A B : Type} (f : A -> B) (l : list A) x y :
  NoDup (map f l) -> x ∈ l -> y ∈ l -> f x = f y -> x = y.
Proof.
  induction l as [|a l IH]; intros Hnd Hx Hy Hf; [by apply elem_of_nil in Hx|].
  simpl in Hnd. apply NoDup_cons in Hnd as [Ha Hnd].
  apply elem_of_cons in Hx as [->|Hx]; apply elem_of_cons in Hy as [->|Hy].
  - done.
  - destruct Ha. rewrite Hf. apply list_elem_of_fmap. by exists y.
  - destruct Ha. rewrite <- Hf. apply list_elem_of_fmap. by exists x.
  - by apply IH.
Qed.

(** With distinct edge ids, distinct nodes have parent edges of distinct
    ids. *)
Lemma parent_edge_ids_distinct edges src n n' p p' e e' :
  NoDup (map NetworkEdge.id edges) ->
  parentMap (bfs edges src) !! n = Some (p, e) ->
  parentMap (bfs edges src) !! n' = Some (p', e') ->
  NetworkEdge.id e = NetworkEdge.id e' -> n = n'.
Proof.
  intros Hnd Hn Hn' Hid.
  destruct (parentMap_spec _ _ _ _ _ Hn) as (He & Hc & _ & i & j & Hij & Hi & Hj).
  destruct (parentMap_spec _ _ _ _ _ Hn')
    as (He' & Hc' & _ & i' & j' & Hij' & Hi' & Hj').
  assert (e = e') as <- by (by eapply NoDup_map_inj).
  destruct Hc as [[Hs Ht]|[Hs Ht]], Hc' as [[Hs' Ht']|[Hs' Ht']]; try congruence.
  - assert (n = p') by congruence. assert (p = n') by congruence. subst.
    pose proof (levelOrder_NoDup edges src) as Hlo.
    assert (j = i') by (eapply NoDup_lookup; eauto).
    assert (i = j') by (eapply NoDup_lookup; eauto). lia.
  - assert (n = p') by congruence. assert (p = n') by congruence. subst.
    pose proof (levelOrder_NoDup edges src) as Hlo.
    assert (j = i') by (eapply NoDup_lookup; eauto).
    assert (i = j') by (eapply NoDup_lookup; eauto). lia.
Qed.

Lemma forwardSweep_totalLoss src sourceKv pm acc l st :
  NoDup l -> ParentsFirst pm src l ->
  (forall n n' p p' e e',
      pm !! n = Some (p, e) -> pm !! n' = Some (p', e') ->
      NetworkEdge.id e = NetworkEdge.id e' -> n = n') ->
  forwardSweep src sourceKv pm acc l = Return st ->
  totalLossKw st = totalEdgeLoss (edgeResults st).
Proof.
  intros Hnd Hpf Huniq Hrun.
  enough (FwdInv src sourceKv pm acc l st
          /\ totalLossKw st = totalEdgeLoss (edgeResults st)) as [_ H] by done.
  revert Hrun. unfold forwardSweep.
  apply (forEachM_prefix_invariant _
           (fun pre s => FwdInv src sourceKv pm acc pre s
                         /\ totalLossKw s = totalEdgeLoss (edgeResults s))).
  - intros pre n post s s' Hl [Hinv Hloss] Hstep.
    assert (Hfresh : n ∉ pre).
    { rewrite Hl in Hnd. apply NoDup_app in Hnd as (_ & Hdisj & _).
      intros Hn. apply (Hdisj n Hn). by left. }
    split.
    + apply (forwardStep_FwdInv _ _ _ _ pre n s s'); [done|done| |done].
      intros Hne p e Hpm.
      rewrite Hl, cons_middle, app_assoc in Hpf. apply ParentsFirst_app_l in Hpf.
      destruct (ParentsFirst_last _ _ _ _ Hpf Hne) as (p' & e' & Hpm' & Hp').
      rewrite Hpm in Hpm'. inversion Hpm'; subst. by right.
    + apply forwardStep_Return in Hstep
        as [[_ ->]|(Hne & p & e & load & pr & Hpm & Hload & Hpr & ->)]; [done|].
      simpl. rewrite totalEdgeLoss_insert, Hloss.
      * unfold edgeResultOf. simpl. lra.
      * destruct (edgeResults s !! NetworkEdge.id e) as [er|] eqn:Her; [|done].
        destruct (fwd_edge _ _ _ _ _ _ Hinv _ _ Her)
          as (n' & p' & e' & _ & _ & Hn' & _ & Hpm' & Hid & _).
        assert (n' = n) as -> by (by eapply Huniq). done.
  - split; [apply FwdInv_init|]. simpl. unfold totalEdgeLoss. by rewrite map_fold_empty.
Qed.

(** C9, amended.  feederEfficiency is
    (1 - totalLossKw / (0.9 * totalLoadKva + totalLossKw)) * 100 when
    totalLoadKva is positive, and 100 otherwise; totalLoadKva is the sum of
    the loadKva of all nodes, and, with distinct edge ids, totalLossKw is the
    sum of the losses of all edge results. *)
Theorem C9_feeder_efficiency nodes edges sourceKv r s :
  findSource nodes = Some s ->
  calculateLoadFlow nodes edges sourceKv = Return r ->
  let sys := lf_systemResult r in
  SystemResult.feederEfficiency sys
  = (if Rgt_dec (SystemResult.totalLoadKva sys) 0
     then ((1 - SystemResult.totalLossKw sys
                / (9 / 10 * SystemResult.totalLoadKva sys
                   + SystemResult.totalLossKw sys)) * 100)%R
     else 100%R)
  /\ SystemResult.totalLoadKva sys = sumList (map NetworkNode.loadKva nodes)
  /\ (NoDup (map NetworkEdge.id edges) ->
      SystemResult.totalLossKw sys = totalEdgeLoss (lf_edgeResults r)).
Proof.
  intros Hs Hr.
  apply calculateLoadFlow_Return in Hr as (s' & acc & fwd & Hs' & Hb & Hf & ->).
  rewrite Hs in Hs'. inversion Hs'; subst s'. simpl.
  split; [|split].
  - destruct (Rgt_dec _ _); [|done]. f_equal. f_equal. f_equal. f_equal. ring.
  - apply systemStats_StatsInv.
  - intros Hnd. eapply forwardSweep_totalLoss; [| | |exact Hf].
    + apply levelOrder_NoDup.
    + apply bfs_ParentsFirst.
    + intros n n' p p' e e'. by apply parent_edge_ids_distinct.
Qed.

Lemma C9_feeder_efficiency_witness :
  exists r,
    calculateLoadFlow INITIAL_NODES INITIAL_EDGES 11 = Return r
    /\ SystemResult.totalLoadKva (lf_systemResult r)
       = sumList (map NetworkNode.loadKva INITIAL_NODES).
Proof.
  destruct (calculateLoadFlow_returns INITIAL_NODES INITIAL_EDGES 11 _
              INITIAL_source INITIAL_valid) as [r Hr].
  exists r. split; [exact Hr|].
  exact (proj1 (proj2 (C9_feeder_efficiency _ _ _ _ _ INITIAL_source Hr))).
Defined.

Lemma DUP_topology :
  levelOrder (bfs DUP_EDGES "s") = ["s"; "a"; "b"]
  /\ map_to_list (parentMap (bfs DUP_EDGES "s"))
     = [("a", ("s", DUP_ea)); ("b", ("s", DUP_eb))].
Proof. split; vm_compute; reflexivity. Qed.

(** The run of the solver on two segments of one id: the second edge result
    replaces the first, and the total loss counts both segments. *)
Lemma DUP_run :
  exists fwd,
    calculateLoadFlow T_NODES DUP_EDGES 11 = Return (assemble T_NODES DUP_EDGES "s" fwd)
    /\ edgeResults fwd
       = <["e" := edgeResultOf 11 "s" DUP_eb (ownLoad T_b) 11]>
           (<["e" := edgeResultOf 11 "s" DUP_ea (ownLoad T_a) 11]> ∅)
    /\ totalLossKw fwd
       = (0 + seg_lossKw 11 DUP_ea (ownLoad T_a) 11
          + seg_lossKw 11 DUP_eb (ownLoad T_b) 11)%R.
Proof.
  assert (Hs : findSource T_NODES = Some T_s) by reflexivity.
  assert (Hvalid : validEndpoints T_NODES DUP_EDGES)
    by (unfold validEndpoints; repeat constructor).
  destruct (calculateLoadFlow_returns T_NODES DUP_EDGES 11 T_s Hs Hvalid) as [r Hr].
  destruct (calculateLoadFlow_Return _ _ _ _ Hr) as (s' & acc & fwd & Hs' & Hb & Hf & ->).
  rewrite Hs in Hs'. inversion Hs'; subst s'. clear Hs'.
  change (NetworkNode.id T_s) with "s" in *.
  exists fwd. split; [exact Hr|].
  destruct DUP_topology as [Hlo Hpm]. rewrite Hlo in Hf.
  set (pm := parentMap (bfs DUP_EDGES "s")) in *.
  assert (Hpma : pm !! "a" = Some ("s", DUP_ea)).
  { apply (lookup_by_list _ _ _ _ Hpm). in_list. }
  assert (Hpmb : pm !! "b" = Some ("s", DUP_eb)).
  { apply (lookup_by_list _ _ _ _ Hpm). in_list. }
  assert (Hleaf : forall k, k ≠ "s" -> forall n p e, pm !! n = Some (p, e) -> p ≠ k).
  { intros k Hk n p e Hn. apply (lookup_by_list _ _ _ _ Hpm) in Hn.
    apply elem_of_cons in Hn as [Hn|Hn].
    - inversion Hn. by apply not_eq_sym.
    - apply list_elem_of_singleton in Hn. inversion Hn. by apply not_eq_sym. }
  assert (Hla : acc !! "a" = Some (ownLoad T_a)).
  { rewrite (backwardSweep_leaf _ _ _ _ _ "a" (Hleaf "a" ltac:(neq_lit)) Hb).
    reflexivity. }
  assert (Hlb : acc !! "b" = Some (ownLoad T_b)).
  { rewrite (backwardSweep_leaf _ _ _ _ _ "b" (Hleaf "b" ltac:(neq_lit)) Hb).
    reflexivity. }
  (* the forward sweep, step by step *)
  unfold forwardSweep in Hf. cbn [forEachM] in Hf.
  rewrite forwardStep_source in Hf. cbn [mbind outcome_bind] in Hf.
  destruct (forwardStep "s" 11 pm acc (forwardInit "s" 11) "a")
    as [st1|] eqn:Hstep1; cbn [mbind outcome_bind] in Hf; [|discriminate Hf].
  destruct (forwardStep "s" 11 pm acc st1 "b")
    as [st2|] eqn:Hstep2; cbn [mbind outcome_bind] in Hf; [|discriminate Hf].
  apply Return_inj in Hf. subst st2.
  destruct (forwardStep_results "s" 11 pm acc (forwardInit "s" 11) "a" "s" DUP_ea
              (ownLoad T_a) (NodeResult.mk "s" 11 1 0 0) st1)
    as (Hn1 & He1 & Hl1);
    [neq_lit|exact Hpma|exact Hla|apply lookup_singleton_eq|exact Hstep1|].
  destruct (forwardStep_results "s" 11 pm acc st1 "b" "s" DUP_eb
              (ownLoad T_b) (NodeResult.mk "s" 11 1 0 0) fwd)
    as (_ & He2 & Hl2);
    [neq_lit|exact Hpmb|exact Hlb| |exact Hstep2|].
  { rewrite Hn1, lookup_insert_ne by neq_lit. apply lookup_singleton_eq. }
  cbn [NodeResult.voltageKv] in *.
  split.
  - rewrite He2, He1. reflexivity.
  - rewrite Hl2, Hl1. reflexivity.
Qed.

(** C9, counterexample.  First, with a total load of -50 kVA the solver
    reports an efficiency of 100, which is not what the formula gives.
    Second, with two segments of one id the total loss is not the sum of the
    losses of the edge results. *)
Lemma C9_counterexample :
  (exists r,
      calculateLoadFlow [NEG_s; NEG_a] [NEG_e] 11 = Return r
      /\ SystemResult.feederEfficiency (lf_systemResult r)
         ≠ ((1 - SystemResult.totalLossKw (lf_systemResult r)
                 / (9 / 10 * SystemResult.totalLoadKva (lf_systemResult r)
                    + SystemResult.totalLossKw (lf_systemResult r))) * 100)%R)
  /\ (exists r,
        calculateLoadFlow T_NODES DUP_EDGES 11 = Return r
        /\ SystemResult.totalLossKw (lf_systemResult r)
           ≠ totalEdgeLoss (lf_edgeResults r)).
Proof.
  split.
  - destruct (two_nodes_run 11 NEG_s NEG_a NEG_e eq_refl eq_refl eq_refl eq_refl
                eq_refl eq_refl) as (fwd & Hr & _ & _ & Hloss).
    eexists. split; [exact Hr|].
    unfold assemble.
    cbn [lf_systemResult SystemResult.feederEfficiency SystemResult.totalLossKw
         SystemResult.totalLoadKva].
    set (T := totalKva (systemStats (nodeResults fwd) [NEG_s; NEG_a])).
    assert (HT : T = (-50)%R).
    { unfold T. rewrite (st_total _ _ _ (systemStats_StatsInv _ _)).
      unfold sumList, NEG_s, NEG_a. simpl. lra. }
    assert (HL : totalLossKw fwd = (2500 * (5426 / 10000) / (1000 * 11 ^ 2))%R).
    { rewrite Hloss, seg_lossKw_closed.
      - rewrite orElse_same, (rabbit_rTotal NEG_e) by done.
        unfold ownLoad, NEG_a. simpl. rewrite unity_pf_load. field.
      - apply seg_sMagnitude_pos. unfold ownLoad, NEG_a. simpl. lra.
      - rewrite orElse_same. lra. }
    rewrite HT. destruct (Rgt_dec (-50) 0) as [Hgt|_]; [lra|].
    set (L := totalLossKw fwd) in *.
    assert (HLpos : (0 < L < 1)%R) by (rewrite HL; split; lra).
    intros Heq.
    assert (Hq : (L / (9 / 10 * -50 + L) * (9 / 10 * -50 + L) = L)%R) by (field; lra).
    assert (H0 : (L / (9 / 10 * -50 + L) = 0)%R) by lra.
    rewrite H0 in Hq. lra.
  - destruct DUP_run as (fwd & Hr & Her & Hloss).
    eexists. split; [exact Hr|].
    cbn [lf_systemResult lf_edgeResults assemble SystemResult.totalLossKw].
    rewrite Her, Hloss, insert_insert_eq, totalEdgeLoss_insert by apply lookup_empty.
    unfold totalEdgeLoss at 1. rewrite map_fold_empty.
    unfold edgeResultOf. cbn [EdgeResult.powerLossKw].
    assert (Hpos : (0 < seg_lossKw 11 DUP_ea (ownLoad T_a) 11)%R).
    { apply seg_lossKw_pos.
      - apply seg_sMagnitude_pos. unfold ownLoad, T_a. simpl. lra.
      - rewrite orElse_same. lra.
      - unfold DUP_ea. simpl. lra. }
    lra.
Qed.

(** ** Paths to the root *)

(** With enough fuel the loop of the longest path collects the ids of the
    path, and never stops for lack of fuel or of a parent entry. *)
Lemma walkEdgeIds_path pm src n es :
  PathToRoot pm src n es ->
  forall fuel acc, (length es <= fuel)%nat ->
    walkEdgeIds fuel src pm n acc = acc ++ map NetworkEdge.id es.
Proof.
  induction 1 as [|n p e es Hne Hpm Hpath IH]; intros fuel acc Hfuel.
  - destruct fuel; simpl; [by rewrite app_nil_r|].
    by rewrite String.eqb_refl, app_nil_r.
  - destruct fuel as [|fuel]; simpl in Hfuel; [lia|]. simpl.
    rewrite eqb_decide, bool_decide_eq_false_2 by done. rewrite Hpm. simpl.
    rewrite IH by lia. by rewrite <- app_assoc.
Qed.

Lemma walkCritical_path pm src n es :
  PathToRoot pm src n es ->
  forall fuel acc, (length es <= fuel)%nat ->
    walkCritical fuel src pm n acc = foldl criticalStep acc es.
Proof.
  induction 1 as [|n p e es Hne Hpm Hpath IH]; intros fuel acc Hfuel.
  - destruct fuel; simpl; [done|]. by rewrite String.eqb_refl.
  - destruct fuel as [|fuel]; simpl in Hfuel; [lia|]. simpl.
    rewrite eqb_decide, bool_decide_eq_false_2 by done. rewrite Hpm. simpl.
    by rewrite IH by lia.
Qed.

(** Every id of a parents-first list has a path to the root, no longer than
    its position. *)
Lemma ParentsFirst_path pm src l :
  ParentsFirst pm src l ->
  forall j n, l !! j = Some n ->
    exists es, PathToRoot pm src n es /\ (length es <= j)%nat.
Proof.
  intros Hpf j. induction j as [j IH] using lt_wf_ind. intros n Hj.
  destruct (decide (n = src)) as [->|Hne].
  - exists []. split; [constructor | simpl; lia].
  - destruct (Hpf j n Hj Hne) as (p & e & i & Hpm & Hij & Hi).
    destruct (IH i Hij p Hi) as (es & Hpath & Hlen).
    exists (e :: es). split; [by econstructor|]. simpl. lia.
Qed.

Lemma levelOrder_path edges src n :
  n ∈ levelOrder (bfs edges src) ->
  exists es,
    PathToRoot (parentMap (bfs edges src)) src n es
    /\ (length es < length (levelOrder (bfs edges src)))%nat.
Proof.
  intros Hn. apply list_elem_of_lookup in Hn as [j Hj].
  destruct (ParentsFirst_path _ _ _ (bfs_ParentsFirst edges src) j n Hj)
    as (es & Hpath & Hlen).
  exists es. split; [done|]. apply lookup_lt_Some in Hj. lia.
Qed.

(** The longest path of a result: the farthest node by cumulative distance,
    and, unless the id of that node is the empty string, the edge ids from it
    back to the root. *)
Lemma longest_path_spec nodes edges sourceKv r s :
  findSource nodes = Some s ->
  calculateLoadFlow nodes edges sourceKv = Return r ->
  let src := NetworkNode.id s in
  let pm := parentMap (bfs edges src) in
  exists (dist : gmap string R) (far : string) (dmax : R)
         (es : list NetworkEdge.t),
    dist !! src = Some 0%R
    /\ (forall n, Reachable edges src n -> n ≠ src ->
          exists p e dp, pm !! n = Some (p, e) /\ dist !! p = Some dp
                         /\ dist !! n = Some (dp + NetworkEdge.lengthMeters e)%R)
    /\ Reachable edges src far
    /\ dist !! far = Some dmax
    /\ (forall n d, dist !! n = Some d -> (d <= dmax)%R)
    /\ PathToRoot pm src far es
    /\ (far = src -> es = [])
    /\ (far ≠ "" ->
        SystemResult.longestPathEdgeIds (lf_systemResult r)
        = map NetworkEdge.id es).
Proof.
  intros Hs Hr src pm.
  destruct (calculateLoadFlow_phases _ _ _ _ _ Hs Hr) as (acc & fwd & _ & Hinv & ->).
  fold src pm in Hinv.
  assert (Hfar : farthestNodeId fwd ∈ levelOrder (bfs edges src)).
  { destruct (fwd_far _ _ _ _ _ _ Hinv) as [->|H]; [apply levelOrder_source|done]. }
  destruct (levelOrder_path edges src _ Hfar) as (es & Hpath & Hlen).
  exists (nodeDistances fwd), (farthestNodeId fwd), (maxDistance fwd), es.
  split; [apply Hinv|]. split.
  { intros n Hn Hne. apply (fwd_dist _ _ _ _ _ _ Hinv); [|done].
    by apply levelOrder_reachable. }
  split; [by apply levelOrder_reachable|].
  split; [apply Hinv|]. split; [apply Hinv|]. split; [done|]. split.
  { intros Heq. rewrite Heq in Hpath. inversion Hpath; [done|congruence]. }
  intros Hne. simpl. unfold reconstructLongestPath, truthy.
  rewrite (eqb_decide (farthestNodeId fwd) ""), bool_decide_eq_false_2 by done.
  simpl. fold src pm. rewrite eqb_decide. case_bool_decide as Hsrc.
  - simpl. rewrite Hsrc in Hpath. inversion Hpath; [done|congruence].
  - simpl. rewrite (walkEdgeIds_path _ _ _ _ Hpath) by lia. done.
Qed.

Lemma EMPTY_ID_topology :
  levelOrder (bfs EMPTY_ID_EDGES "s") = ["s"; ""]
  /\ map_to_list (parentMap (bfs EMPTY_ID_EDGES "s"))
     = [("", ("s", NetworkEdge.mk "e1" "s" "" 100 "rabbit"))].
Proof. split; vm_compute; reflexivity. Qed.

(** C6, at the failing input.  The node with the empty id is the farthest one
    (and the only one besides the source), its parent edge is "e1", and the
    longest path is reported empty: the test [farthestNodeId && ...] takes the
    empty id for a missing one. *)
Theorem C6_empty_id_farthest :
  exists (r : LoadFlow) (dist : gmap string R),
    calculateLoadFlow EMPTY_ID_NODES EMPTY_ID_EDGES 11 = Return r
    /\ dist !! "s" = Some 0%R
    /\ dist !! "" = Some (0 + 100)%R
    /\ (forall n d, dist !! n = Some d -> (d <= 0 + 100)%R)
    /\ PathToRoot (parentMap (bfs EMPTY_ID_EDGES "s")) "s" ""
         [NetworkEdge.mk "e1" "s" "" 100 "rabbit"]
    /\ SystemResult.longestPathEdgeIds (lf_systemResult r) = [].
Proof.
  assert (Hs : findSource EMPTY_ID_NODES
               = Some (NetworkNode.mk "s" 0 0 "S" SOURCE 11 0 1 Industrial))
    by reflexivity.
  assert (Hvalid : validEndpoints EMPTY_ID_NODES EMPTY_ID_EDGES)
    by (unfold validEndpoints; repeat constructor).
  destruct (calculateLoadFlow_returns EMPTY_ID_NODES EMPTY_ID_EDGES 11 _ Hs Hvalid)
    as [r Hr].
  destruct (calculateLoadFlow_phases _ _ _ _ _ Hs Hr) as (acc & fwd & _ & Hinv & ->).
  cbn [NetworkNode.id] in *.
  destruct EMPTY_ID_topology as [Hlo Hpm]. rewrite Hlo in Hinv.
  set (pm := parentMap (bfs EMPTY_ID_EDGES "s")) in *.
  assert (Hpma : pm !! "" = Some ("s", NetworkEdge.mk "e1" "s" "" 100 "rabbit")).
  { apply (lookup_by_list _ _ _ _ Hpm). in_list. }
  destruct (fwd_dist _ _ _ _ _ _ Hinv "") as (p & e & dp & H1 & H2 & Hd);
    [in_list|neq_lit|].
  rewrite Hpma in H1. inversion H1; subst p e. clear H1.
  rewrite (fwd_dist_root _ _ _ _ _ _ Hinv) in H2. inversion H2; subst dp. clear H2.
  cbn [NetworkEdge.lengthMeters] in Hd.
  pose proof (fwd_max _ _ _ _ _ _ Hinv "" _ Hd) as Hmax.
  assert (Hfar : farthestNodeId fwd = "").
  { destruct (fwd_far _ _ _ _ _ _ Hinv) as [Hf|Hf].
    - pose proof (fwd_far_dist _ _ _ _ _ _ Hinv) as Hfd.
      rewrite Hf, (fwd_dist_root _ _ _ _ _ _ Hinv) in Hfd. inversion Hfd. lra.
    - apply elem_of_cons in Hf as [Hf|Hf]; [|by apply list_elem_of_singleton in Hf].
      pose proof (fwd_far_dist _ _ _ _ _ _ Hinv) as Hfd.
      rewrite Hf, (fwd_dist_root _ _ _ _ _ _ Hinv) in Hfd. inversion Hfd. lra. }
  assert (Hmax' : maxDistance fwd = (0 + 100)%R).
  { pose proof (fwd_far_dist _ _ _ _ _ _ Hinv) as Hfd.
    rewrite Hfar, Hd in Hfd. by inversion Hfd. }
  exists (assemble EMPTY_ID_NODES EMPTY_ID_EDGES "s" fwd), (nodeDistances fwd).
  split; [exact Hr|]. split; [apply Hinv|]. split; [exact Hd|]. split.
  { intros n d Hn. rewrite <- Hmax'. by eapply (fwd_max _ _ _ _ _ _ Hinv). }
  split.
  { apply (path_step pm "s" "" "s" (NetworkEdge.mk "e1" "s" "" 100 "rabbit") []);
      [neq_lit|exact Hpma|constructor]. }
  unfold assemble. cbn [lf_systemResult SystemResult.longestPathEdgeIds].
  rewrite Hfar. reflexivity.
Qed.

(** ** Voltage along a segment *)

Lemma FwdInv_voltagePu src sourceKv pm acc l st k res :
  FwdInv src sourceKv pm acc l st -> sourceKv ≠ 0%R ->
  nodeResults st !! k = Some res ->
  NodeResult.voltagePu res = (NodeResult.voltageKv res / sourceKv)%R.
Proof.
  intros Hinv Hkv Hres. destruct (decide (k = src)) as [->|Hne].
  - rewrite (fwd_root _ _ _ _ _ _ Hinv) in Hres. inversion Hres. simpl. by field.
  - assert (k ∈ l) as Hk.
    { destruct (proj1 (fwd_dom _ _ _ _ _ _ Hinv k)) as [?|?]; [by eauto|done|done]. }
    destruct (fwd_node _ _ _ _ _ _ Hinv k Hk Hne) as (p & e & load & pr & _ & _ & _ & H).
    rewrite Hres in H. by inversion H.
Qed.

Lemma orElse_pos v sourceKv :
  (0 <= v)%R -> (0 < sourceKv)%R -> (0 < orElse v sourceKv)%R.
Proof. intros Hv Hkv. unfold orElse. destruct (Req_dec_T v 0); lra. Qed.

(** A node that draws real power, over a segment of non-negative length, from
    a parent whose voltage is not negative, is not above its parent. *)
Lemma segment_monotone src sourceKv pm acc l st n p e load pr nr :
  FwdInv src sourceKv pm acc l st ->
  n ∈ l -> n ≠ src -> pm !! n = Some (p, e) -> acc !! n = Some load ->
  nodeResults st !! p = Some pr -> nodeResults st !! n = Some nr ->
  (0 <= Power.p load)%R -> (0 <= NetworkEdge.lengthMeters e)%R ->
  (0 < sourceKv)%R -> (0 <= NodeResult.voltageKv pr)%R ->
  (NodeResult.voltageKv nr <= NodeResult.voltageKv pr)%R
  /\ (NodeResult.voltagePu nr <= NodeResult.voltagePu pr)%R.
Proof.
  intros Hinv Hn Hne Hpm Hload Hpr Hnr Hp Hlen Hkv Hvp.
  assert (Hv : (NodeResult.voltageKv nr <= NodeResult.voltageKv pr)%R).
  { destruct (fwd_node _ _ _ _ _ _ Hinv n Hn Hne)
      as (p' & e' & load' & pr' & H1 & H2 & H3 & H4).
    rewrite Hpm in H1. inversion H1; subst p' e'.
    rewrite Hload in H2. inversion H2; subst load'.
    rewrite Hpr in H3. inversion H3; subst pr'.
    rewrite Hnr in H4. inversion H4. simpl. unfold seg_nodeVoltageKv.
    pose proof (seg_vDropLine_nonneg sourceKv e load (NodeResult.voltageKv pr)
                  Hp Hlen (orElse_pos _ _ Hvp Hkv)). lra. }
  split; [done|].
  rewrite (FwdInv_voltagePu _ _ _ _ _ _ _ _ Hinv (Rgt_not_eq _ _ Hkv) Hnr).
  rewrite (FwdInv_voltagePu _ _ _ _ _ _ _ _ Hinv (Rgt_not_eq _ _ Hkv) Hpr).
  unfold Rdiv. apply Rmult_le_compat_r; [|done].
  left. by apply Rinv_0_lt_compat.
Qed.

Lemma orElse_neg v sourceKv :
  (v <= 0)%R -> (sourceKv < 0)%R -> (orElse v sourceKv < 0)%R.
Proof. intros Hv Hkv. unfold orElse. destruct (Req_dec_T v 0); lra. Qed.

(** In per-unit terms, for any source voltage: a node that draws real power
    over a segment of non-negative length from a parent whose per-unit voltage
    is not negative is not above its parent. *)
Lemma segment_pu_monotone src sourceKv pm acc l st n p e load pr nr :
  FwdInv src sourceKv pm acc l st ->
  n ∈ l -> n ≠ src -> pm !! n = Some (p, e) -> acc !! n = Some load ->
  nodeResults st !! p = Some pr -> nodeResults st !! n = Some nr ->
  (0 <= Power.p load)%R -> (0 <= NetworkEdge.lengthMeters e)%R ->
  (0 <= NodeResult.voltagePu pr)%R ->
  (NodeResult.voltagePu nr <= NodeResult.voltagePu pr)%R.
Proof.
  intros Hinv Hn Hne Hpm Hload Hpr Hnr Hp Hlen Hpu.
  destruct (Rtotal_order sourceKv 0) as [Hneg|[Hzero|Hpos]].
  - (* a negative source voltage: every sign is mirrored *)
    pose proof (FwdInv_voltagePu _ _ _ _ _ _ _ _ Hinv (Rlt_not_eq _ _ Hneg) Hpr) as Hpp.
    pose proof (FwdInv_voltagePu _ _ _ _ _ _ _ _ Hinv (Rlt_not_eq _ _ Hneg) Hnr) as Hpn.
    assert (Hi : (/ sourceKv < 0)%R) by (by apply Rinv_lt_0_compat).
    assert (Hvp : (NodeResult.voltageKv pr <= 0)%R).
    { replace (NodeResult.voltageKv pr)
        with (NodeResult.voltagePu pr * sourceKv)%R by (rewrite Hpp; field; lra).
      nra. }
    assert (Hv : (NodeResult.voltageKv pr <= NodeResult.voltageKv nr)%R).
    { destruct (fwd_node _ _ _ _ _ _ Hinv n Hn Hne)
        as (p' & e' & load' & pr' & H1 & H2 & H3 & H4).
      rewrite Hpm in H1. inversion H1; subst p' e'.
      rewrite Hload in H2. inversion H2; subst load'.
      rewrite Hpr in H3. inversion H3; subst pr'.
      rewrite Hnr in H4. inversion H4. simpl. unfold seg_nodeVoltageKv.
      pose proof (seg_vDropLine_nonpos sourceKv e load (NodeResult.voltageKv pr)
                    Hp Hlen (orElse_neg _ _ Hvp Hneg)). lra. }
    rewrite Hpp, Hpn. unfold Rdiv. nra.
  - (* no source voltage: the quotient by it is 0 *)
    destruct (fwd_node _ _ _ _ _ _ Hinv n Hn Hne)
      as (p' & e' & load' & pr' & _ & _ & _ & H4).
    rewrite Hnr in H4. inversion H4. simpl.
    rewrite Hzero. unfold Rdiv. rewrite Rinv_0, Rmult_0_r. done.
  - pose proof (FwdInv_voltagePu _ _ _ _ _ _ _ _ Hinv (Rgt_not_eq _ _ Hpos) Hpr) as Hpp.
    assert (Hi : (0 < / sourceKv)%R) by (by apply Rinv_0_lt_compat).
    assert (Hvp : (0 <= NodeResult.voltageKv pr)%R).
    { replace (NodeResult.voltageKv pr)
        with (NodeResult.voltagePu pr * sourceKv)%R by (rewrite Hpp; field; lra).
      nra. }
    by eapply segment_monotone.
Qed.

Lemma connects_same e x y u v :
  connects e x y -> connects e u v -> (u = x /\ v = y) \/ (u = y /\ v = x).
Proof. unfold connects. intros [[<- <-]|[<- <-]] [[<- <-]|[<- <-]]; auto. Qed.

Lemma precedes_asym (l : list string) x y :
  NoDup l ->
  (exists i j, (i < j)%nat /\ l !! i = Some x /\ l !! j = Some y) ->
  (exists i j, (i < j)%nat /\ l !! i = Some y /\ l !! j = Some x) ->
  False.
Proof.
  intros Hnd (i & j & Hij & Hi & Hj) (i' & j' & Hij' & Hi' & Hj').
  assert (i = j') by (eapply NoDup_lookup; eauto).
  assert (j = i') by (eapply NoDup_lookup; eauto). lia.
Qed.

(** ** A single-branch chain source - A - B - C *)

Section Chain.
Variable s a b c : string.
Variable e1 e2 e3 : NetworkEdge.t.
Variable edges : list NetworkEdge.t.
Hypothesis distinct : NoDup [s; a; b; c].
Hypothesis edges_are : edges ≡ₚ [e1; e2; e3].
Hypothesis e1_joins : connects e1 s a.
Hypothesis e2_joins : connects e2 a b.
Hypothesis e3_joins : connects e3 b c.

Lemma chain_distinct :
  s ≠ a /\ s ≠ b /\ s ≠ c /\ a ≠ b /\ a ≠ c /\ b ≠ c.
Proof using distinct.
  clear -distinct.
  apply NoDup_cons in distinct as [H1 Hnd].
  apply NoDup_cons in Hnd as [H2 Hnd].
  apply NoDup_cons in Hnd as [H3 _].
  apply not_elem_of_cons in H1 as [? H1].
  apply not_elem_of_cons in H1 as [? H1].
  apply not_elem_of_cons in H1 as [? _].
  apply not_elem_of_cons in H2 as [? H2].
  apply not_elem_of_cons in H2 as [? _].
  apply not_elem_of_cons in H3 as [? _].
  repeat split; assumption.
Qed.

Lemma chain_edge e : e ∈ edges -> e = e1 \/ e = e2 \/ e = e3.
Proof using edges_are.
  clear -edges_are. rewrite edges_are, !elem_of_cons, elem_of_nil. naive_solver.
Qed.

Lemma chain_reachable :
  Reachable edges s a /\ Reachable edges s b /\ Reachable edges s c.
Proof using edges_are e1_joins e2_joins e3_joins.
  assert (Ha : Reachable edges s a).
  { eapply reach_step; [constructor| |exact e1_joins]. rewrite edges_are. in_list. }
  assert (Hb : Reachable edges s b).
  { eapply reach_step; [exact Ha| |exact e2_joins]. rewrite edges_are. in_list. }
  split; [done|]. split; [done|].
  eapply reach_step; [exact Hb| |exact e3_joins]. rewrite edges_are. in_list.
Qed.

(** The search hangs A below the source, B below A and C below B. *)
Lemma chain_parents :
  (exists e, parentMap (bfs edges s) !! a = Some (s, e) /\ e ∈ edges)
  /\ (exists e, parentMap (bfs edges s) !! b = Some (a, e) /\ e ∈ edges)
  /\ (exists e, parentMap (bfs edges s) !! c = Some (b, e) /\ e ∈ edges).
Proof using distinct edges_are e1_joins e2_joins e3_joins.
  destruct chain_distinct as (Hsa & Hsb & Hsc & Hab & Hac & Hbc).
  destruct chain_reachable as (Ha & Hb & Hc).
  pose proof (levelOrder_NoDup edges s) as Hnd.
  assert (Hpar : forall x, Reachable edges s x -> x ≠ s ->
            exists p e, parentMap (bfs edges s) !! x = Some (p, e) /\ e ∈ edges
                        /\ connects e p x
                        /\ exists i j, (i < j)%nat
                             /\ levelOrder (bfs edges s) !! i = Some p
                             /\ levelOrder (bfs edges s) !! j = Some x).
  { intros x Hx Hne. apply levelOrder_reachable in Hx.
    destruct (parentMap_is_Some _ _ _ Hx Hne) as [[p e] Hpe].
    destruct (parentMap_spec _ _ _ _ _ Hpe) as (He & Hcn & _ & Hord).
    by exists p, e. }
  destruct (Hpar c Hc) as (pc & ec & Hpc & Hec & Hcc & Hoc); [done|].
  assert (pc = b) as ->.
  { destruct (chain_edge _ Hec) as [-> | [-> | ->]].
    - destruct (connects_same _ _ _ _ _ e1_joins Hcc) as [[? ?]|[? ?]]; congruence.
    - destruct (connects_same _ _ _ _ _ e2_joins Hcc) as [[? ?]|[? ?]]; congruence.
    - destruct (connects_same _ _ _ _ _ e3_joins Hcc) as [[? ?]|[? ?]]; congruence. }
  destruct (Hpar b Hb) as (pb & eb & Hpb & Heb & Hcb & Hob); [done|].
  assert (pb = a) as ->.
  { destruct (chain_edge _ Heb) as [-> | [-> | ->]].
    - destruct (connects_same _ _ _ _ _ e1_joins Hcb) as [[? ?]|[? ?]]; congruence.
    - destruct (connects_same _ _ _ _ _ e2_joins Hcb) as [[? ?]|[? ?]]; congruence.
    - destruct (connects_same _ _ _ _ _ e3_joins Hcb) as [[? ?]|[? ?]];
        [congruence|]. subst pb. destruct (precedes_asym _ _ _ Hnd Hob Hoc). }
  destruct (Hpar a Ha) as (pa & ea & Hpa & Hea & Hca & Hoa); [done|].
  assert (pa = s) as ->.
  { destruct (chain_edge _ Hea) as [-> | [-> | ->]].
    - destruct (connects_same _ _ _ _ _ e1_joins Hca) as [[? ?]|[? ?]]; congruence.
    - destruct (connects_same _ _ _ _ _ e2_joins Hca) as [[? ?]|[? ?]];
        [congruence|]. subst pa. destruct (precedes_asym _ _ _ Hnd Hoa Hob).
    - destruct (connects_same _ _ _ _ _ e3_joins Hca) as [[? ?]|[? ?]]; congruence. }
  eauto 10.
Qed.

End Chain.

Lemma ownLoad_real_power_nonneg n :
  (0 <= NetworkNode.loadKva n)%R -> (0 <= NetworkNode.pf n)%R ->
  (0 <= Power.p (ownLoad n))%R.
Proof. intros Hl Hpf. unfold ownLoad. simpl. by apply Rmult_le_pos. Qed.

(** C8, amended.  On a chain source - A - B - C with one SOURCE node, positive
    loads (loadKva > 0, 0 < pf <= 1) and segments of positive length (the
    resistance of every conductor of the catalog is positive), the per-unit
    voltage of A is at most that of the source; that of B is at most that of A
    when the per-unit voltage computed at A is not negative, and that of C is
    at most that of B when the per-unit voltage computed at B is not
    negative. *)
Theorem C8_chain_voltage_monotone
    (ns na nb nc : NetworkNode.t) (e1 e2 e3 : NetworkEdge.t)
    (nodes : list NetworkNode.t) (edges : list NetworkEdge.t) (sourceKv : R)
    (r : LoadFlow) :
  nodes ≡ₚ [ns; na; nb; nc] -> edges ≡ₚ [e1; e2; e3] ->
  NetworkNode.type ns = SOURCE -> NetworkNode.type na = LOAD ->
  NetworkNode.type nb = LOAD -> NetworkNode.type nc = LOAD ->
  NoDup [NetworkNode.id ns; NetworkNode.id na; NetworkNode.id nb; NetworkNode.id nc] ->
  connects e1 (NetworkNode.id ns) (NetworkNode.id na) ->
  connects e2 (NetworkNode.id na) (NetworkNode.id nb) ->
  connects e3 (NetworkNode.id nb) (NetworkNode.id nc) ->
  (forall n, n ∈ [na; nb; nc] ->
     (0 < NetworkNode.loadKva n)%R /\ (0 < NetworkNode.pf n <= 1)%R) ->
  (forall e, e ∈ [e1; e2; e3] -> (0 < NetworkEdge.lengthMeters e)%R) ->
  calculateLoadFlow nodes edges sourceKv = Return r ->
  exists rs ra rb rc,
    lf_nodeResults r !! NetworkNode.id ns = Some rs
    /\ lf_nodeResults r !! NetworkNode.id na = Some ra
    /\ lf_nodeResults r !! NetworkNode.id nb = Some rb
    /\ lf_nodeResults r !! NetworkNode.id nc = Some rc
    /\ (NodeResult.voltagePu ra <= NodeResult.voltagePu rs)%R
    /\ ((0 <= NodeResult.voltagePu ra)%R ->
        (NodeResult.voltagePu rb <= NodeResult.voltagePu ra)%R)
    /\ ((0 <= NodeResult.voltagePu rb)%R ->
        (NodeResult.voltagePu rc <= NodeResult.voltagePu rb)%R).
Proof.
  intros Hnodes Hedges Hts Hta Htb Htc Hnd Hc1 Hc2 Hc3 Hloads Hlens Hr.
  assert (Hin : forall n, n ∈ nodes -> n = ns \/ n ∈ [na; nb; nc]).
  { intros n. rewrite Hnodes, elem_of_cons. tauto. }
  assert (Hs : findSource nodes = Some ns).
  { destruct (findSource nodes) as [s'|] eqn:Hf.
    - apply findSource_Some in Hf as [Hs' Hty].
      destruct (Hin _ Hs') as [->|Hs'']; [done|].
      rewrite !elem_of_cons, elem_of_nil in Hs''.
      destruct Hs'' as [->|[->|[->|[]]]]; congruence.
    - pose proof (proj1 (findSource_None nodes) Hf ns) as Hno.
      destruct Hno; [|done]. rewrite Hnodes. in_list. }
  destruct (calculateLoadFlow_phases _ _ _ _ _ Hs Hr) as (acc & fwd & Hb & Hinv & ->).
  set (src := NetworkNode.id ns) in *.
  set (pm := parentMap (bfs edges src)) in *.
  set (lo := levelOrder (bfs edges src)) in *.
  destruct (chain_distinct _ _ _ _ Hnd) as (Hsa & Hsb & Hsc & _).
  destruct (chain_reachable _ _ _ _ _ _ _ _ Hedges Hc1 Hc2 Hc3) as (Hra & Hrb & Hrc).
  apply levelOrder_reachable in Hra, Hrb, Hrc. fold lo in Hra, Hrb, Hrc.
  destruct (chain_parents _ _ _ _ _ _ _ _ Hnd Hedges Hc1 Hc2 Hc3)
    as ((ea & Hpa & Hea) & (eb & Hpb & Heb) & (ec & Hpc & Hec)).
  fold pm in Hpa, Hpb, Hpc.
  assert (Hlen : forall e, e ∈ edges -> (0 <= NetworkEdge.lengthMeters e)%R).
  { intros e He. rewrite Hedges in He. left. by apply Hlens. }
  (* the aggregated real power is not negative below the source *)
  assert (Hacc : forall k v, k ≠ src -> acc !! k = Some v -> (0 <= Power.p v)%R).
  { apply (backwardSweep_preserves (fun v => (0 <= Power.p v)%R) src pm lo
             (initialLoads nodes) acc); [| |exact Hb].
    - intros x y Hx Hy. simpl. lra.
    - intros k v Hk Hv.
      apply initialLoads_lookup_Some in Hv as (n & Hn & <- & ->).
      destruct (Hin n Hn) as [->|Hn']; [done|].
      destruct (Hloads n Hn') as [Hl Hpf].
      apply ownLoad_real_power_nonneg; lra. }
  (* the four results *)
  set (rs := NodeResult.mk src sourceKv 1 0 0).
  assert (Hrs : nodeResults fwd !! src = Some rs) by apply Hinv.
  destruct (fwd_node _ _ _ _ _ _ Hinv _ Hra (not_eq_sym Hsa))
    as (p1 & x1 & l1 & r1 & H1 & Hl1 & Hp1 & Hna).
  rewrite Hpa in H1. inversion H1; subst p1 x1. clear H1.
  destruct (fwd_node _ _ _ _ _ _ Hinv _ Hrb (not_eq_sym Hsb))
    as (p2 & x2 & l2 & r2 & H2 & Hl2 & Hp2 & Hnb).
  rewrite Hpb in H2. inversion H2; subst p2 x2. clear H2.
  destruct (fwd_node _ _ _ _ _ _ Hinv _ Hrc (not_eq_sym Hsc))
    as (p3 & x3 & l3 & r3 & H3 & Hl3 & Hp3 & Hnc).
  rewrite Hpc in H3. inversion H3; subst p3 x3. clear H3.
  simpl. eexists rs, _, _, _.
  split; [exact Hrs|]. split; [exact Hna|]. split; [exact Hnb|]. split; [exact Hnc|].
  split; [|split].
  - rewrite Hrs in Hp1. inversion Hp1; subst r1.
    eapply (segment_pu_monotone _ _ _ _ _ _ _ _ _ _ _ _ Hinv Hra (not_eq_sym Hsa) Hpa
              Hl1 Hrs Hna);
      [exact (Hacc _ _ (not_eq_sym Hsa) Hl1) | by apply Hlen | simpl; lra].
  - intros Hva. rewrite Hna in Hp2. inversion Hp2; subst r2.
    eapply (segment_pu_monotone _ _ _ _ _ _ _ _ _ _ _ _ Hinv Hrb (not_eq_sym Hsb) Hpb
              Hl2 Hna Hnb);
      [exact (Hacc _ _ (not_eq_sym Hsb) Hl2) | by apply Hlen | done].
  - intros Hvb. rewrite Hnb in Hp3. inversion Hp3; subst r3.
    eapply (segment_pu_monotone _ _ _ _ _ _ _ _ _ _ _ _ Hinv Hrc (not_eq_sym Hsc) Hpc
              Hl3 Hnb Hnc);
      [exact (Hacc _ _ (not_eq_sym Hsc) Hl3) | by apply Hlen | done].
Qed.

Lemma W_distinct :
  NoDup [NetworkNode.id W_s; NetworkNode.id W_a; NetworkNode.id W_b; NetworkNode.id W_c].
Proof. simpl. repeat (apply NoDup_cons_2; [set_solver|]). apply NoDup_nil_2. Qed.

Lemma W_returns :
  exists r, calculateLoadFlow [W_s; W_a; W_b; W_c] [W_e1; W_e2; W_e3] 11 = Return r.
Proof.
  apply (calculateLoadFlow_returns _ _ _ W_s); [reflexivity|].
  unfold validEndpoints. repeat constructor.
Qed.

Lemma W_loads n :
  n ∈ [W_a; W_b; W_c] ->
  (0 < NetworkNode.loadKva n)%R /\ (0 < NetworkNode.pf n <= 1)%R.
Proof.
  intros Hn.
  apply elem_of_cons in Hn as [->|Hn]; [unfold W_a; simpl; lra|].
  apply elem_of_cons in Hn as [->|Hn]; [unfold W_b; simpl; lra|].
  apply list_elem_of_singleton in Hn. subst n. unfold W_c. simpl. lra.
Qed.

Lemma W_lengths e :
  e ∈ [W_e1; W_e2; W_e3] -> (0 < NetworkEdge.lengthMeters e)%R.
Proof.
  intros He.
  apply elem_of_cons in He as [->|He]; [unfold W_e1; simpl; lra|].
  apply elem_of_cons in He as [->|He]; [unfold W_e2; simpl; lra|].
  apply list_elem_of_singleton in He. subst e. unfold W_e3. simpl. lra.
Qed.

Lemma C8_chain_voltage_monotone_witness :
  exists r rs ra,
    calculateLoadFlow [W_s; W_a; W_b; W_c] [W_e1; W_e2; W_e3] 11 = Return r
    /\ lf_nodeResults r !! "n1" = Some rs
    /\ lf_nodeResults r !! "n2" = Some ra
    /\ (NodeResult.voltagePu ra <= NodeResult.voltagePu rs)%R.
Proof.
  destruct W_returns as [r Hr].
  destruct (C8_chain_voltage_monotone W_s W_a W_b W_c W_e1 W_e2 W_e3
              [W_s; W_a; W_b; W_c] [W_e1; W_e2; W_e3] 11 r)
    as (rs & ra & rb & rc & Hrs & Hra & _ & _ & Hle & _).
  - reflexivity.
  - reflexivity.
  - reflexivity.
  - reflexivity.
  - reflexivity.
  - reflexivity.
  - exact W_distinct.
  - left. split; reflexivity.
  - left. split; reflexivity.
  - left. split; reflexivity.
  - exact W_loads.
  - exact W_lengths.
  - exact Hr.
  - exists r, rs, ra. split; [exact Hr|]. split; [exact Hrs|].
    split; [exact Hra|exact Hle].
Defined.

(** With loads that draw real power everywhere, the backward sweep only adds
    to the real power at an id. *)
Lemma backwardSweep_grows src pm l acc acc' :
  (forall k v, acc !! k = Some v -> (0 <= Power.p v)%R) ->
  backwardSweep src pm l acc = Return acc' ->
  forall k v0, acc !! k = Some v0 ->
    exists v, acc' !! k = Some v /\ (Power.p v0 <= Power.p v)%R.
Proof.
  intros Hpos Hrun.
  enough ((forall k v, acc' !! k = Some v -> (0 <= Power.p v)%R)
          /\ forall k v0, acc !! k = Some v0 ->
               exists v, acc' !! k = Some v /\ (Power.p v0 <= Power.p v)%R)
    as [_ H] by exact H.
  revert Hrun. unfold backwardSweep.
  apply (forEachM_invariant _
           (fun a => (forall k v, a !! k = Some v -> (0 <= Power.p v)%R)
                     /\ forall k v0, acc !! k = Some v0 ->
                          exists v, a !! k = Some v /\ (Power.p v0 <= Power.p v)%R)).
  - intros a n a' _ [Ha Hg] Hstep.
    apply backwardStep_Return in Hstep
      as [[_ ->]|[(_ & _ & ->)|(_ & p & e & pl & ml & _ & Hp & Hm & ->)]];
      [done|done|].
    pose proof (Ha _ _ Hp) as Hpl. pose proof (Ha _ _ Hm) as Hml. split.
    + intros k v. destruct (decide (p = k)) as [->|Hne].
      * rewrite lookup_insert_eq. intros [= <-]. simpl. lra.
      * rewrite lookup_insert_ne by done. apply Ha.
    + intros k v0 Hk. destruct (Hg k v0 Hk) as (v & Hv & Hle).
      destruct (decide (p = k)) as [->|Hne].
      * rewrite lookup_insert_eq. eexists. split; [done|]. simpl.
        rewrite Hp in Hv. inversion Hv; subst. lra.
      * rewrite lookup_insert_ne by done. by exists v.
  - split; [done|]. intros k v0 Hk. exists v0. split; [done|lra].
Qed.

Lemma X_returns : exists r, calculateLoadFlow X_NODES X_EDGES 11 = Return r.
Proof.
  apply (calculateLoadFlow_returns _ _ _ X_s); [reflexivity|].
  unfold validEndpoints. repeat constructor.
Qed.

Lemma X_distinct : NoDup ["s"; "a"; "b"; "c"].
Proof. repeat (apply NoDup_cons_2; [set_solver|]). apply NoDup_nil_2. Qed.

Lemma X_rTotal e : e ∈ X_EDGES -> seg_rTotal e = (5426 / 10000)%R.
Proof.
  intros He. unfold X_EDGES in He.
  apply elem_of_cons in He as [->|He]; [by apply rabbit_rTotal|].
  apply elem_of_cons in He as [->|He]; [by apply rabbit_rTotal|].
  apply list_elem_of_singleton in He. subst e. by apply rabbit_rTotal.
Qed.

Lemma X_loads k v :
  initialLoads X_NODES !! k = Some v -> (0 <= Power.p v)%R.
Proof.
  intros Hv. apply initialLoads_lookup_Some in Hv as (n & Hn & _ & ->).
  unfold X_NODES in Hn. apply ownLoad_real_power_nonneg.
  - apply elem_of_cons in Hn as [->|Hn]; [simpl; lra|].
    apply elem_of_cons in Hn as [->|Hn]; [simpl; lra|].
    apply elem_of_cons in Hn as [->|Hn]; [simpl; lra|].
    apply list_elem_of_singleton in Hn. subst n. simpl. lra.
  - apply elem_of_cons in Hn as [->|Hn]; [simpl; lra|].
    apply elem_of_cons in Hn as [->|Hn]; [simpl; lra|].
    apply elem_of_cons in Hn as [->|Hn]; [simpl; lra|].
    apply list_elem_of_singleton in Hn. subst n. simpl. lra.
Qed.

Lemma X_initial :
  initialLoads X_NODES !! "a" = Some (ownLoad X_a)
  /\ initialLoads X_NODES !! "b" = Some (ownLoad X_b).
Proof. split; reflexivity. Qed.

(** C8, counterexample.  The voltage computed at A is negative, and B comes
    out above A. *)
Lemma C8_counterexample :
  exists r ra rb,
    calculateLoadFlow X_NODES X_EDGES 11 = Return r
    /\ lf_nodeResults r !! "a" = Some ra
    /\ lf_nodeResults r !! "b" = Some rb
    /\ (NodeResult.voltagePu ra < NodeResult.voltagePu rb)%R.
Proof.
  destruct X_returns as [r Hr].
  destruct (calculateLoadFlow_phases X_NODES X_EDGES 11 r X_s eq_refl Hr)
    as (acc & fwd & Hb & Hinv & ->).
  change (NetworkNode.id X_s) with "s" in *.
  destruct (chain_parents "s" "a" "b" "c" X_e1 X_e2 X_e3 X_EDGES X_distinct)
    as ((ea & Hpa & Hea) & (eb & Hpb & Heb) & _);
    [reflexivity | left; split; reflexivity | left; split; reflexivity
     | left; split; reflexivity |].
  destruct (chain_reachable "s" "a" "b" "c" X_e1 X_e2 X_e3 X_EDGES)
    as (Hra & Hrb & _);
    [reflexivity | left; split; reflexivity | left; split; reflexivity
     | left; split; reflexivity |].
  apply levelOrder_reachable in Hra, Hrb.
  destruct X_initial as [Hia Hib].
  destruct (backwardSweep_grows _ _ _ _ _ X_loads Hb _ _ Hia) as (la & Hla & Hga).
  destruct (backwardSweep_grows _ _ _ _ _ X_loads Hb _ _ Hib) as (lb & Hlb & Hgb).
  assert (Hown : Power.p (ownLoad X_a) = 1000000%R
                 /\ Power.p (ownLoad X_b) = 1000000%R).
  { unfold ownLoad, X_a, X_b. simpl. split; ring. }
  destruct Hown as [Hoa Hob]. rewrite Hoa in Hga. rewrite Hob in Hgb.
  clear Hia Hib Hoa Hob.
  (* node "a" *)
  destruct (fwd_node _ _ _ _ _ _ Hinv "a" Hra) as (p & e & l & pr & H1 & H2 & H3 & Hna);
    [neq_lit|].
  rewrite Hpa in H1. inversion H1; subst p e. clear H1.
  rewrite Hla in H2. inversion H2; subst l. clear H2.
  rewrite (FwdInv_root_voltage _ _ _ _ _ _ _ Hinv H3) in Hna. clear H3 pr.
  set (va := seg_nodeVoltageKv 11 ea la 11) in *.
  assert (Hva : (va < 0)%R).
  { unfold va, seg_nodeVoltageKv.
    rewrite seg_vDropLine_closed, orElse_same, (X_rTotal ea Hea).
    - lra.
    - apply seg_sMagnitude_pos. lra.
    - rewrite orElse_same. lra. }
  (* node "b" *)
  destruct (fwd_node _ _ _ _ _ _ Hinv "b" Hrb) as (p & e & l & pr & H1 & H2 & H3 & Hnb);
    [neq_lit|].
  rewrite Hpb in H1. inversion H1; subst p e. clear H1.
  rewrite Hlb in H2. inversion H2; subst l. clear H2.
  rewrite Hna in H3. inversion H3; subst pr. clear H3.
  cbn [nodeResultOf NodeResult.voltageKv] in Hnb. fold va in Hnb.
  eexists _, _, _. split; [exact Hr|]. split; [exact Hna|]. split; [exact Hnb|].
  unfold nodeResultOf. cbn [NodeResult.voltagePu]. fold va.
  assert (Hbase : orElse va 11 = va).
  { unfold orElse. destruct (Req_dec_T va 0); [lra|done]. }
  assert (Hdrop : (seg_vDropLine 11 eb lb va < 0)%R).
  { rewrite seg_vDropLine_closed, Hbase, (X_rTotal eb Heb).
    - unfold Rdiv.
      assert (Hinv_neg : (/ (1000 * va) < 0)%R) by (apply Rinv_lt_0_compat; lra).
      set (x := (/ (1000 * va))%R) in *. nra.
    - apply seg_sMagnitude_pos. lra.
    - rewrite Hbase. lra. }
  unfold seg_nodeVoltageKv. unfold Rdiv.
  apply Rmult_lt_compat_r; [apply Rinv_0_lt_compat; lra|]. lra.
Qed.

(** The critical path of a result: unless the id of the critical node is the
    empty string, the lengths and resistances added up along the path from
    the critical node back to the root. *)
Lemma critical_path_spec nodes edges sourceKv r s c :
  findSource nodes = Some s ->
  calculateLoadFlow nodes edges sourceKv = Return r ->
  SystemResult.criticalNodeId (lf_systemResult r) = Some c -> c ≠ "" ->
  exists es,
    PathToRoot (parentMap (bfs edges (NetworkNode.id s))) (NetworkNode.id s) c es
    /\ (SystemResult.criticalPathLengthMeters (lf_systemResult r),
        SystemResult.criticalPathResistanceOhms (lf_systemResult r))
       = foldl criticalStep (0%R, 0%R) es.
Proof.
  intros Hs Hr Hc Hne.
  destruct (calculateLoadFlow_phases _ _ _ _ _ Hs Hr) as (acc & fwd & _ & Hinv & ->).
  simpl in *. rewrite Hc. unfold reconstructCriticalPath, truthy.
  rewrite (eqb_decide c ""), bool_decide_eq_false_2 by done. simpl.
  destruct (st_some _ _ _ (systemStats_StatsInv (nodeResults fwd) nodes) c Hc)
    as (_ & _ & _ & _ & res & _ & _ & Hres & _).
  assert (Hin : c ∈ levelOrder (bfs edges (NetworkNode.id s))).
  { destruct (proj1 (fwd_dom _ _ _ _ _ _ Hinv c)) as [->|H]; [by eauto| |done].
    apply levelOrder_source. }
  destruct (levelOrder_path edges _ _ Hin) as (es & Hpath & Hlen).
  exists es. split; [done|]. rewrite eqb_decide. case_bool_decide as Hsrc.
  - simpl. rewrite Hsrc in Hpath. inversion Hpath; [done|congruence].
  - simpl. rewrite (walkCritical_path _ _ _ _ Hpath) by lia.
    by destruct (foldl criticalStep _ es).
Qed.

Lemma T_topology :
  levelOrder (bfs T_EDGES "s") = ["s"; "a"; "b"]
  /\ map_to_list (parentMap (bfs T_EDGES "s"))
     = [("a", ("s", T_ea)); ("b", ("s", T_eb))].
Proof. split; vm_compute; reflexivity. Qed.

Lemma T_returns : exists r, calculateLoadFlow T_NODES T_EDGES 11 = Return r.
Proof.
  apply (calculateLoadFlow_returns _ _ _ T_s); [reflexivity|].
  unfold validEndpoints. repeat constructor.
Qed.

Lemma Reachable_no_edges src k : Reachable [] src k -> k = src.
Proof. intros [|x y e _ He _]; [done|]. by apply elem_of_nil in He. Qed.

(** The per-unit voltage of a node fed over 1000 m of rabbit conductor at
    11 kV, drawing 50 kVA at unity power factor, is below 1. *)
Lemma T_below_one e n :
  seg_rTotal e = (5426 / 10000)%R -> Power.p (ownLoad n) = 50%R ->
  (NodeResult.voltagePu (nodeResultOf 11 (NetworkNode.id n) e (ownLoad n) 11) < 1)%R.
Proof.
  intros He Hp. unfold nodeResultOf. cbn [NodeResult.voltagePu].
  unfold seg_nodeVoltageKv.
  rewrite seg_vDropLine_closed, orElse_same, He, Hp.
  - lra.
  - apply seg_sMagnitude_pos. lra.
  - rewrite orElse_same. lra.
Qed.

(** C4, counterexample.  First, a source alone: its result has the minimum
    per-unit voltage, 1.0, and criticalNodeId is null.  Second, two nodes
    that tie below 1.0: the search visits "a" before "b" and inserts the
    result of "a" first, and criticalNodeId is "b", the first of the two in
    the node list. *)
Lemma C4_counterexample :
  (exists r res,
      calculateLoadFlow [W_s] [] 11 = Return r
      /\ lf_nodeResults r !! "n1" = Some res
      /\ NodeResult.voltagePu res = SystemResult.minVoltagePu (lf_systemResult r)
      /\ SystemResult.criticalNodeId (lf_systemResult r) = None)
  /\ (exists r ra rb,
        calculateLoadFlow T_NODES T_EDGES 11 = Return r
        /\ levelOrder (bfs T_EDGES "s") = ["s"; "a"; "b"]
        /\ lf_nodeResults r !! "a" = Some ra
        /\ lf_nodeResults r !! "b" = Some rb
        /\ NodeResult.voltagePu ra = SystemResult.minVoltagePu (lf_systemResult r)
        /\ NodeResult.voltagePu rb = SystemResult.minVoltagePu (lf_systemResult r)
        /\ SystemResult.criticalNodeId (lf_systemResult r) = Some "b").
Proof.
  split.
  - assert (Hs : findSource [W_s] = Some W_s) by reflexivity.
    assert (Hvalid : validEndpoints [W_s] []) by constructor.
    destruct (calculateLoadFlow_returns [W_s] [] 11 W_s Hs Hvalid) as [r Hr].
    assert (Hnone : SystemResult.criticalNodeId (lf_systemResult r) = None).
    { apply (critical_None_iff _ _ _ _ _ Hs Hr). intros k res Hk.
      destruct (calculateLoadFlow_phases _ _ _ _ _ Hs Hr)
        as (acc & fwd & _ & Hinv & ->).
      cbn [lf_nodeResults assemble] in Hk.
      assert (k = NetworkNode.id W_s) as ->.
      { destruct (proj1 (fwd_dom _ _ _ _ _ _ Hinv k)) as [?|Hin]; [by eauto|done|].
        by apply levelOrder_reachable, Reachable_no_edges in Hin. }
      rewrite (fwd_root _ _ _ _ _ _ Hinv) in Hk. inversion Hk. simpl. lra. }
    destruct (calculateLoadFlow_phases _ _ _ _ _ Hs Hr) as (acc & fwd & _ & Hinv & ->).
    eexists _, _. split; [exact Hr|]. split; [apply Hinv|]. split; [|exact Hnone].
    cbn [lf_systemResult assemble SystemResult.minVoltagePu NodeResult.voltagePu].
    cbn [lf_systemResult assemble SystemResult.criticalNodeId] in Hnone.
    symmetry. exact (st_none _ _ _ (systemStats_StatsInv _ _) Hnone).
  - destruct T_returns as [r Hr].
    destruct (calculateLoadFlow_phases T_NODES T_EDGES 11 r T_s eq_refl Hr)
      as (acc & fwd & Hb & Hinv & ->).
    change (NetworkNode.id T_s) with "s" in *.
    destruct T_topology as [Hlo Hpm]. rewrite Hlo in Hinv.
    set (pm := parentMap (bfs T_EDGES "s")) in *.
    assert (Hpma : pm !! "a" = Some ("s", T_ea)).
    { apply (lookup_by_list _ _ _ _ Hpm). in_list. }
    assert (Hpmb : pm !! "b" = Some ("s", T_eb)).
    { apply (lookup_by_list _ _ _ _ Hpm). in_list. }
    assert (Hleaf : forall k, k ≠ "s" -> forall n p e, pm !! n = Some (p, e) -> p ≠ k).
    { intros k Hk n p e Hn. apply (lookup_by_list _ _ _ _ Hpm) in Hn.
      apply elem_of_cons in Hn as [Hn|Hn].
      - inversion Hn. by apply not_eq_sym.
      - apply list_elem_of_singleton in Hn. inversion Hn. by apply not_eq_sym. }
    assert (Hla : acc !! "a" = Some (ownLoad T_a)).
    { rewrite (backwardSweep_leaf _ _ _ _ _ "a" (Hleaf "a" ltac:(neq_lit)) Hb).
      reflexivity. }
    assert (Hlb : acc !! "b" = Some (ownLoad T_b)).
    { rewrite (backwardSweep_leaf _ _ _ _ _ "b" (Hleaf "b" ltac:(neq_lit)) Hb).
      reflexivity. }
    destruct (fwd_node _ _ _ _ _ _ Hinv "a") as (p & e & l & pr & H1 & H2 & H3 & Hna);
      [in_list|neq_lit|].
    rewrite Hpma in H1. inversion H1; subst p e. clear H1.
    rewrite Hla in H2. inversion H2; subst l. clear H2.
    rewrite (FwdInv_root_voltage _ _ _ _ _ _ _ Hinv H3) in Hna. clear H3 pr.
    destruct (fwd_node _ _ _ _ _ _ Hinv "b") as (p & e & l & pr & H1 & H2 & H3 & Hnb);
      [in_list|neq_lit|].
    rewrite Hpmb in H1. inversion H1; subst p e. clear H1.
    rewrite Hlb in H2. inversion H2; subst l. clear H2.
    rewrite (FwdInv_root_voltage _ _ _ _ _ _ _ Hinv H3) in Hnb. clear H3 pr.
    set (ra := nodeResultOf 11 "a" T_ea (ownLoad T_a) 11) in *.
    set (rb := nodeResultOf 11 "b" T_eb (ownLoad T_b) 11) in *.
    assert (Heq : NodeResult.voltagePu ra = NodeResult.voltagePu rb) by reflexivity.
    assert (Hlt : (NodeResult.voltagePu rb < 1)%R).
    { apply (T_below_one T_eb T_b); [by apply rabbit_rTotal|].
      unfold ownLoad, T_b. simpl. ring. }
    pose proof (systemStats_StatsInv (nodeResults fwd) T_NODES)
      as [_ Hlow Hnone Hsome _].
    set (stats := systemStats (nodeResults fwd) T_NODES) in *.
    assert (Hcrit : criticalNodeId stats = Some "b"
                    /\ minV stats = NodeResult.voltagePu rb).
    { pose proof (Hlow T_b rb ltac:(unfold T_NODES; in_list) Hnb) as Hmb.
      destruct (criticalNodeId stats) as [c|] eqn:Hc.
      - destruct (Hsome c eq_refl)
          as (Hm1 & l1 & n & l2 & res & Hsplit & Hid & Hres & Hpu & Hfirst).
        unfold T_NODES in Hsplit.
        destruct l1 as [|x1 [|x2 [|x3 l1]]]; simpl in Hsplit; inversion Hsplit;
          subst.
        + change (NetworkNode.id T_s) with "s" in Hres.
          rewrite (fwd_root _ _ _ _ _ _ Hinv) in Hres. inversion Hres; subst res.
          simpl in Hpu. lra.
        + change (NetworkNode.id T_b) with "b" in Hres.
          rewrite Hnb in Hres. inversion Hres; subst res.
          split; [reflexivity | symmetry; exact Hpu].
        + change (NetworkNode.id T_a) with "a" in Hres.
          rewrite Hna in Hres. inversion Hres; subst res.
          pose proof (Hfirst T_b rb ltac:(in_list) Hnb) as Hstrict.
          rewrite <- Hpu, Heq in Hstrict. lra.
        + by destruct l1.
      - rewrite (Hnone eq_refl) in Hmb. lra. }
    destruct Hcrit as [Hcrit Hmin].
    exists (assemble T_NODES T_EDGES "s" fwd), ra, rb.
    split; [exact Hr|]. split; [exact Hlo|]. split; [exact Hna|].
    split; [exact Hnb|].
    cbn [lf_systemResult assemble SystemResult.minVoltagePu
         SystemResult.criticalNodeId].
    fold stats. rewrite Hmin. split; [exact Heq|]. split; [reflexivity|exact Hcrit].
Qed.

(** * Further properties of the solver *)

(** ** When the solver returns *)

Lemma forEachM_Throw {A S : Type} (body : S -> A -> outcome S) (l : list A) s e :
  forEachM body l s = Throw e -> exists s' a, a ∈ l /\ body s' a = Throw e.
Proof.
  revert s. induction l as [|a l IH]; intros s H; [discriminate H|].
  cbn [forEachM] in H. destruct (body s a) as [s1|e1] eqn:Hb.
  - cbn [mbind outcome_bind] in H. destruct (IH _ H) as (s' & a' & Ha' & Hthrow).
    exists s', a'. split; [by apply list_elem_of_further | done].
  - cbn [mbind outcome_bind] in H. inversion H; subst e1.
    exists s, a. split; [apply list_elem_of_here | done].
Qed.

(** A loop throws when the body throws at one of its elements in every state
    that the earlier iterations can leave. *)
Lemma forEachM_throws {A S : Type} (body : S -> A -> outcome S) (I : S -> Prop)
    (l : list A) (bad : A) :
  (forall s a s', a ∈ l -> I s -> body s a = Return s' -> I s') ->
  bad ∈ l -> (forall s, I s -> exists e, body s bad = Throw e) ->
  forall s, I s -> exists e, forEachM body l s = Throw e.
Proof.
  intros Hstep Hbad Hthrow. induction l as [|a l IH]; intros s Hs.
  - by apply elem_of_nil in Hbad.
  - cbn [forEachM]. destruct (body s a) as [s1|e1] eqn:Hb.
    + cbn [mbind outcome_bind].
      apply elem_of_cons in Hbad as [->|Hbad].
      * destruct (Hthrow s Hs) as [e He]. rewrite Hb in He. discriminate He.
      * apply IH; [|done|].
        -- intros s0 a0 s0' Ha0. apply Hstep. by apply list_elem_of_further.
        -- eapply Hstep; [apply list_elem_of_here|done|done].
    + cbn [mbind outcome_bind]. by exists e1.
Qed.

Lemma deref_Throw {A : Type} (o : option A) e : deref o = Throw e -> e = TypeError.
Proof. destruct o; intros H; inversion H. done. Qed.

Lemma backwardStep_Throw src pm acc n e :
  backwardStep src pm acc n = Throw e -> e = TypeError.
Proof.
  unfold backwardStep. destruct (String.eqb n src); [discriminate|].
  destruct (pm !! n) as [[p x]|]; [|discriminate].
  destruct (acc !! p) as [pl|]; cbn [deref mbind outcome_bind];
    [|by intros [= <-]].
  destruct (acc !! n) as [ml|]; cbn [deref mbind outcome_bind];
    [discriminate | by intros [= <-]].
Qed.

Lemma forwardStep_Throw src sourceKv pm acc st n e :
  forwardStep src sourceKv pm acc st n = Throw e -> e = TypeError.
Proof.
  unfold forwardStep. destruct (String.eqb n src); [discriminate|].
  destruct (pm !! n) as [[p x]|]; cbn [deref mbind outcome_bind fst snd];
    [|by intros [= <-]].
  destruct (acc !! n) as [load|]; cbn [deref mbind outcome_bind];
    [|by intros [= <-]].
  destruct (nodeResults st !! p) as [pr|]; cbn [deref mbind outcome_bind];
    [discriminate | by intros [= <-]].
Qed.

(** With a SOURCE node the only error is the TypeError of a missing entry. *)
Lemma calculateLoadFlow_TypeError nodes edges sourceKv s e :
  findSource nodes = Some s ->
  calculateLoadFlow nodes edges sourceKv = Throw e -> e = TypeError.
Proof.
  intros Hs. unfold calculateLoadFlow. rewrite Hs. cbv zeta.
  destruct (backwardSweep _ _ _ _) as [acc|e1] eqn:Hb; cbn [mbind outcome_bind].
  - destruct (forwardSweep _ _ _ _ _) as [fwd|e2] eqn:Hf; cbn [mbind outcome_bind];
      [discriminate|].
    intros [= <-]. apply forEachM_Throw in Hf as (st & n & _ & Hn).
    by eapply forwardStep_Throw.
  - intros [= <-]. apply forEachM_Throw in Hb as (a & n & _ & Hn).
    by eapply backwardStep_Throw.
Qed.

Lemma calculateLoadFlow_returns_reachable nodes edges sourceKv s :
  findSource nodes = Some s ->
  (forall k, Reachable edges (NetworkNode.id s) k -> k ∈ map NetworkNode.id nodes) ->
  exists r, calculateLoadFlow nodes edges sourceKv = Return r.
Proof.
  intros Hs Hvalid. unfold calculateLoadFlow. rewrite Hs. cbv zeta.
  set (src := NetworkNode.id s) in *. set (topo := bfs edges src).
  assert (Hlo : forall n, n ∈ levelOrder topo -> is_Some (initialLoads nodes !! n)).
  { intros n Hn. apply initialLoads_is_Some, Hvalid. by apply levelOrder_reachable. }
  destruct (backwardSweep_returns src (parentMap topo) (levelOrder topo)
              (initialLoads nodes)) as [acc Hacc].
  { done. }
  { intros n p e _ Hpm. apply Hlo. by eapply parentMap_child_reachable. }
  rewrite Hacc. run_outcome.
  destruct (forwardSweep_returns src sourceKv (parentMap topo) acc (levelOrder topo))
    as [fwd Hfwd].
  { apply levelOrder_NoDup. }
  { apply bfs_ParentsFirst. }
  { intros n Hn _. rewrite (backwardSweep_is_Some _ _ _ _ _ n Hacc). by apply Hlo. }
  rewrite Hfwd. run_outcome. by eauto.
Qed.

Lemma backwardSweep_throws src pm l acc k :
  k ∈ l -> k ≠ src -> is_Some (pm !! k) -> acc !! k = None ->
  exists e, backwardSweep src pm l acc = Throw e.
Proof.
  intros Hk Hne [[p x] Hpm] Hnone. unfold backwardSweep.
  apply (forEachM_throws _ (fun a => a !! k = None) _ k).
  - intros a n a' _ Ha Hstep.
    pose proof (backwardStep_is_Some _ _ _ _ _ k Hstep) as Hdom.
    destruct (a' !! k) as [v|] eqn:Hv; [|done].
    destruct (proj1 Hdom (mk_is_Some _ _ eq_refl)) as [v' Hv']. congruence.
  - by apply elem_of_reverse.
  - intros a Ha. unfold backwardStep.
    rewrite eqb_decide, bool_decide_eq_false_2, Hpm by done.
    destruct (a !! p) as [pl|]; cbn [deref mbind outcome_bind]; [|by eauto].
    rewrite Ha. cbn [deref mbind outcome_bind]. by eauto.
  - done.
Qed.

Lemma calculateLoadFlow_dangling nodes edges sourceKv s k :
  findSource nodes = Some s ->
  Reachable edges (NetworkNode.id s) k -> k ∉ map NetworkNode.id nodes ->
  calculateLoadFlow nodes edges sourceKv = Throw TypeError.
Proof.
  intros Hs Hk Hnot.
  assert (Hne : k ≠ NetworkNode.id s).
  { intros ->. apply Hnot, list_elem_of_fmap. exists s.
    split; [done|]. by apply findSource_Some in Hs as [? _]. }
  apply levelOrder_reachable in Hk.
  destruct (backwardSweep_throws (NetworkNode.id s)
              (parentMap (bfs edges (NetworkNode.id s)))
              (levelOrder (bfs edges (NetworkNode.id s))) (initialLoads nodes) k)
    as [e He]; [done|done|by apply parentMap_is_Some| |].
  { destruct (initialLoads nodes !! k) as [v|] eqn:Hv; [|done].
    destruct Hnot. apply initialLoads_is_Some. by eauto. }
  assert (Hthrow : calculateLoadFlow nodes edges sourceKv = Throw e).
  { unfold calculateLoadFlow. rewrite Hs. cbv zeta. by rewrite He. }
  rewrite Hthrow. f_equal. by eapply calculateLoadFlow_TypeError.
Qed.

(** With a SOURCE node, the solver returns when every id that can be reached
    from the source along the edges is the id of a node, and throws a
    TypeError when one of them is not: an edge that leads from the energised
    part of the network to a missing node aborts the solve, one that hangs in
    a part without connection to the source does no harm. *)
Theorem solver_returns_iff_reachable_ids_exist nodes edges sourceKv s :
  findSource nodes = Some s ->
  ((forall k, Reachable edges (NetworkNode.id s) k -> k ∈ map NetworkNode.id nodes) ->
   exists r, calculateLoadFlow nodes edges sourceKv = Return r)
  /\ (forall k, Reachable edges (NetworkNode.id s) k ->
                k ∉ map NetworkNode.id nodes ->
                calculateLoadFlow nodes edges sourceKv = Throw TypeError).
Proof.
  intros Hs. split; [by apply calculateLoadFlow_returns_reachable|].
  intros k. by apply calculateLoadFlow_dangling.
Qed.

Lemma solver_returns_iff_reachable_ids_exist_witness :
  calculateLoadFlow [W_s] [W_e1] 11 = Throw TypeError.
Proof.
  apply (proj2 (solver_returns_iff_reachable_ids_exist [W_s] [W_e1] 11 W_s eq_refl)
           "n2").
  - apply (reach_step _ _ "n1" "n2" W_e1); [constructor|in_list|].
    left. split; reflexivity.
  - intros H. apply list_elem_of_singleton in H. discriminate H.
Defined.

(** ** The tree the search builds *)

(** The traversal order starts with the source and lists every reachable id
    once; the source has no parent entry; every other reachable id has one,
    whose edge is an edge of the input that joins the id to its parent, and
    the parent is reachable and stands earlier in the traversal order; and
    only reachable ids other than the source have a parent entry. *)
Theorem bfs_builds_a_spanning_tree edges src :
  let topo := bfs edges src in
  levelOrder topo !! 0%nat = Some src
  /\ NoDup (levelOrder topo)
  /\ (forall n, n ∈ levelOrder topo <-> Reachable edges src n)
  /\ parentMap topo !! src = None
  /\ (forall n, Reachable edges src n -> n ≠ src ->
        exists p e, parentMap topo !! n = Some (p, e))
  /\ (forall n p e, parentMap topo !! n = Some (p, e) ->
        n ≠ src /\ Reachable edges src n /\ Reachable edges src p
        /\ e ∈ edges /\ connects e p n
        /\ exists i j, (i < j)%nat /\ levelOrder topo !! i = Some p
                       /\ levelOrder topo !! j = Some n).
Proof.
  cbv zeta. split; [apply levelOrder_head|]. split; [apply levelOrder_NoDup|].
  split; [apply levelOrder_reachable|]. split.
  { destruct (parentMap (bfs edges src) !! src) as [[p e]|] eqn:H; [|done].
    by apply parentMap_spec in H as (_ & _ & ? & _). }
  split.
  { intros n Hn Hne. apply levelOrder_reachable in Hn.
    destruct (parentMap_is_Some edges src n Hn Hne) as [[p e] H]. by eauto. }
  intros n p e H.
  destruct (parentMap_child_reachable _ _ _ _ _ H) as [Hn Hp].
  apply levelOrder_reachable in Hn, Hp.
  destruct (parentMap_spec _ _ _ _ _ H) as (He & Hc & Hne & Hord). done.
Qed.

(** ** The stored records *)

(** Every stored record carries the key it is stored under.  A node result
    has angle 0 and a drop percentage that agrees with its per-unit voltage;
    the result of the source is the source voltage at per-unit 1.  An edge
    result belongs to the parent edge of a reachable node: its loading is the
    current over the rating of that edge's conductor, in percent, and it is
    marked forward exactly when the edge's labelled source is the parent
    side. *)
Theorem result_records_are_consistent nodes edges sourceKv r s :
  findSource nodes = Some s ->
  calculateLoadFlow nodes edges sourceKv = Return r ->
  (forall k res, lf_nodeResults r !! k = Some res ->
     NodeResult.nodeId res = k
     /\ NodeResult.angleDegrees res = 0%R
     /\ NodeResult.dropPercent res = ((1 - NodeResult.voltagePu res) * 100)%R
     /\ (k = NetworkNode.id s ->
         NodeResult.voltageKv res = sourceKv /\ NodeResult.voltagePu res = 1%R))
  /\ (forall k er, lf_edgeResults r !! k = Some er ->
        EdgeResult.edgeId er = k
        /\ exists n p e,
             Reachable edges (NetworkNode.id s) n
             /\ parentMap (bfs edges (NetworkNode.id s)) !! n = Some (p, e)
             /\ NetworkEdge.id e = k
             /\ EdgeResult.loadingPercent er
                = (EdgeResult.currentAmps er
                   / Conductor.maxCurrentAmps
                       (getConductor (NetworkEdge.conductorId e)) * 100)%R
             /\ (if EdgeResult.isForward er
                 then NetworkEdge.source e = p /\ NetworkEdge.target e = n
                 else NetworkEdge.source e = n /\ NetworkEdge.target e = p)).
Proof.
  intros Hs Hr.
  destruct (calculateLoadFlow_phases _ _ _ _ _ Hs Hr) as (acc & fwd & _ & Hinv & ->).
  cbn [lf_nodeResults lf_edgeResults assemble]. split.
  - intros k res Hres. destruct (decide (k = NetworkNode.id s)) as [->|Hne].
    + rewrite (fwd_root _ _ _ _ _ _ Hinv) in Hres. inversion Hres. simpl.
      repeat split; try done. ring.
    + assert (Hk : k ∈ levelOrder (bfs edges (NetworkNode.id s))).
      { destruct (proj1 (fwd_dom _ _ _ _ _ _ Hinv k)) as [?|?]; [by eauto|done|done]. }
      destruct (fwd_node _ _ _ _ _ _ Hinv k Hk Hne)
        as (p & e & load & pr & _ & _ & _ & H).
      rewrite Hres in H. inversion H. simpl. done.
  - intros k er Her.
    destruct (fwd_edge _ _ _ _ _ _ Hinv k er Her)
      as (n & p & e & load & pr & Hn & Hne & Hpm & Hid & _ & _ & ->).
    unfold edgeResultOf. cbn [EdgeResult.edgeId EdgeResult.loadingPercent
                              EdgeResult.currentAmps EdgeResult.isForward].
    split; [done|]. exists n, p, e.
    split; [by apply levelOrder_reachable|]. split; [done|]. split; [done|].
    split; [done|].
    destruct (parentMap_spec _ _ _ _ _ Hpm) as (_ & Hc & _).
    rewrite eqb_decide. case_bool_decide as Hsp.
    + destruct Hc as [[_ Ht]|[Hsn Ht]]; [done|]. split; [done|]. congruence.
    + destruct Hc as [[Hsp' _]|[Hsn Ht]]; [done|done].
Qed.

Lemma result_records_are_consistent_witness :
  exists r,
    calculateLoadFlow INITIAL_NODES INITIAL_EDGES 11 = Return r
    /\ forall k res, lf_nodeResults r !! k = Some res ->
         NodeResult.nodeId res = k
         /\ NodeResult.angleDegrees res = 0%R
         /\ NodeResult.dropPercent res = ((1 - NodeResult.voltagePu res) * 100)%R
         /\ (k = "n1" ->
             NodeResult.voltageKv res = 11%R /\ NodeResult.voltagePu res = 1%R).
Proof.
  destruct (calculateLoadFlow_returns INITIAL_NODES INITIAL_EDGES 11 _
              INITIAL_source INITIAL_valid) as [r Hr].
  exists r. split; [exact Hr|].
  exact (proj1 (result_records_are_consistent _ _ _ _ _ INITIAL_source Hr)).
Defined.

(** ** Voltage and loss in closed form *)

(** Without reactance in the catalog the drop along a segment is
    P * R / (1000 * V), whatever the reactive power. *)
Lemma seg_vDropLine_real_power sourceKv e load v :
  orElse v sourceKv ≠ 0%R ->
  seg_vDropLine sourceKv e load v
  = (Power.p load * seg_rTotal e / (1000 * orElse v sourceKv))%R.
Proof.
  intros Hv.
  destruct (Rle_lt_or_eq_dec 0 _ (seg_sMagnitude_nonneg load)) as [HS|HS].
  - by apply seg_vDropLine_closed.
  - symmetry in HS. destruct (seg_no_load sourceKv e load v HS) as (_ & -> & _).
    pose proof (seg_sMagnitude_sqr load) as Hsq. rewrite HS in Hsq.
    pose proof (pow2_ge_0 (Power.p load)) as Hp.
    pose proof (pow2_ge_0 (Power.q load)) as Hq.
    assert (Hp0 : (Power.p load ^ 2 = 0)%R) by lra.
    assert (Power.p load = 0%R) as ->.
    { destruct (Req_dec (Power.p load) 0) as [H0|H0]; [done|].
      pose proof (Rsqr_pos_lt _ H0) as Hpos. unfold Rsqr in Hpos.
      replace (Power.p load ^ 2)%R with (Power.p load * Power.p load)%R in Hp0 by ring.
      lra. }
    unfold Rdiv. ring.
Qed.

Lemma seg_lossKw_apparent_power sourceKv e load v :
  orElse v sourceKv ≠ 0%R ->
  seg_lossKw sourceKv e load v
  = ((Power.p load ^ 2 + Power.q load ^ 2) * seg_rTotal e
     / (1000 * (orElse v sourceKv) ^ 2))%R.
Proof.
  intros Hv.
  destruct (Rle_lt_or_eq_dec 0 _ (seg_sMagnitude_nonneg load)) as [HS|HS].
  - by apply seg_lossKw_closed.
  - symmetry in HS. destruct (seg_no_load sourceKv e load v HS) as (_ & _ & -> & _).
    rewrite <- seg_sMagnitude_sqr, HS. unfold Rdiv. ring.
Qed.

Lemma orElse_nonzero v sourceKv : sourceKv ≠ 0%R -> orElse v sourceKv ≠ 0%R.
Proof. intros Hkv. unfold orElse. by destruct (Req_dec_T v 0). Qed.

(** With the conductors of the catalog (none has a reactance) and a non-zero
    source voltage, the voltage of a reachable node other than the source is
    its parent's voltage minus P * R / (1000 * V), where P is the real power
    aggregated at the node, R the resistance of the segment and V the parent's
    voltage (the source voltage if the parent is at 0): the reactive power
    does not enter the voltages.  It enters the loss, which is
    (P^2 + Q^2) * R / (1000 * V^2). *)
Theorem voltage_drop_depends_on_real_power_only nodes edges sourceKv r s :
  findSource nodes = Some s ->
  calculateLoadFlow nodes edges sourceKv = Return r ->
  sourceKv ≠ 0%R ->
  exists acc,
    backwardSweep (NetworkNode.id s) (parentMap (bfs edges (NetworkNode.id s)))
      (levelOrder (bfs edges (NetworkNode.id s))) (initialLoads nodes) = Return acc
    /\ forall n,
        Reachable edges (NetworkNode.id s) n -> n ≠ NetworkNode.id s ->
        exists p e load pr nr,
          parentMap (bfs edges (NetworkNode.id s)) !! n = Some (p, e)
          /\ acc !! n = Some load
          /\ lf_nodeResults r !! p = Some pr
          /\ lf_nodeResults r !! n = Some nr
          /\ let v := orElse (NodeResult.voltageKv pr) sourceKv in
             NodeResult.voltageKv nr
             = (NodeResult.voltageKv pr
                - Power.p load * Spec.resistance e / (1000 * v))%R
             /\ ((forall n' p' e',
                     parentMap (bfs edges (NetworkNode.id s)) !! n' = Some (p', e') ->
                     NetworkEdge.id e' = NetworkEdge.id e -> n' = n) ->
                 exists er,
                   lf_edgeResults r !! NetworkEdge.id e = Some er
                   /\ EdgeResult.voltageDropKv er
                      = (Power.p load * Spec.resistance e / (1000 * v))%R
                   /\ EdgeResult.powerLossKw er
                      = ((Power.p load ^ 2 + Power.q load ^ 2) * Spec.resistance e
                         / (1000 * v ^ 2))%R).
Proof.
  intros Hs Hr Hkv.
  destruct (calculateLoadFlow_phases _ _ _ _ _ Hs Hr) as (acc & fwd & Hb & Hinv & ->).
  exists acc. split; [done|]. intros n Hn Hne. simpl.
  apply levelOrder_reachable in Hn.
  destruct (fwd_node _ _ _ _ _ _ Hinv n Hn Hne)
    as (p & e & load & pr & Hpm & Hload & Hpr & Hnr).
  exists p, e, load, pr, (nodeResultOf sourceKv n e load (NodeResult.voltageKv pr)).
  repeat (split; [done|]).
  pose proof (orElse_nonzero (NodeResult.voltageKv pr) sourceKv Hkv) as Hv.
  split.
  - unfold nodeResultOf, seg_nodeVoltageKv. cbn [NodeResult.voltageKv].
    by rewrite seg_vDropLine_real_power.
  - intros Huniq.
    destruct (FwdInv_edge_result _ _ _ _ _ _ n p e Hinv Hn Hne Hpm Huniq)
      as (load' & pr' & Hload' & Hpr' & Her).
    rewrite Hload in Hload'. inversion Hload'; subst load'.
    rewrite Hpr in Hpr'. inversion Hpr'; subst pr'.
    eexists. split; [exact Her|]. unfold edgeResultOf.
    cbn [EdgeResult.voltageDropKv EdgeResult.powerLossKw].
    by rewrite seg_vDropLine_real_power, seg_lossKw_apparent_power.
Qed.

Lemma voltage_drop_depends_on_real_power_only_witness :
  exists r acc,
    calculateLoadFlow INITIAL_NODES INITIAL_EDGES 11 = Return r
    /\ backwardSweep "n1" (parentMap (bfs INITIAL_EDGES "n1"))
         (levelOrder (bfs INITIAL_EDGES "n1")) (initialLoads INITIAL_NODES)
       = Return acc.
Proof.
  destruct (calculateLoadFlow_returns INITIAL_NODES INITIAL_EDGES 11 _
              INITIAL_source INITIAL_valid) as [r Hr].
  assert (Hkv : (11 ≠ 0)%R) by lra.
  destruct (voltage_drop_depends_on_real_power_only _ _ _ _ _ INITIAL_source Hr Hkv)
    as (acc & Hacc & _).
  exists r, acc. split; [exact Hr | exact Hacc].
Defined.

(** ** Bounds on the losses and on the efficiency *)

Lemma seg_lossKw_nonneg sourceKv e load v :
  (0 <= NetworkEdge.lengthMeters e)%R -> (0 <= seg_lossKw sourceKv e load v)%R.
Proof.
  intros Hl. unfold seg_lossKw.
  pose proof (seg_rTotal_sign e Hl) as Hr.
  pose proof (pow2_ge_0 (seg_currentAmps sourceKv load v)) as Hi.
  unfold Rdiv. apply Rmult_le_pos; [|lra].
  apply Rmult_le_pos; [|done]. lra.
Qed.

Lemma forwardSweep_totalLossKw_nonneg edges src sourceKv acc st :
  (forall e, e ∈ edges -> (0 <= NetworkEdge.lengthMeters e)%R) ->
  forwardSweep src sourceKv (parentMap (bfs edges src)) acc
    (levelOrder (bfs edges src)) = Return st ->
  (0 <= totalLossKw st)%R.
Proof.
  intros Hlen. unfold forwardSweep.
  apply (forEachM_invariant _ (fun st => (0 <= totalLossKw st)%R)); [|simpl; lra].
  intros st0 n st' _ Hst Hstep.
  apply forwardStep_Return in Hstep
    as [[_ ->]|(_ & p & e & load & pr & Hpm & _ & _ & ->)]; [done|].
  cbn [totalLossKw].
  apply parentMap_spec in Hpm as (He & _).
  pose proof (seg_lossKw_nonneg sourceKv e load (NodeResult.voltageKv pr)
                (Hlen e He)). lra.
Qed.

(** When no edge has a negative length, no edge result has a negative loss,
    the total loss is not negative, and the feeder efficiency lies above 0 and
    at most at 100. *)
Theorem losses_and_efficiency_are_bounded nodes edges sourceKv r :
  (forall e, e ∈ edges -> (0 <= NetworkEdge.lengthMeters e)%R) ->
  calculateLoadFlow nodes edges sourceKv = Return r ->
  (forall k er, lf_edgeResults r !! k = Some er ->
                (0 <= EdgeResult.powerLossKw er)%R)
  /\ (0 <= SystemResult.totalLossKw (lf_systemResult r))%R
  /\ (0 < SystemResult.feederEfficiency (lf_systemResult r) <= 100)%R.
Proof.
  intros Hlen Hr.
  destruct (calculateLoadFlow_Return _ _ _ _ Hr) as (s & acc & fwd & Hs & Hb & Hf & ->).
  pose proof (FwdInv_of_run _ _ _ _ _ Hf) as Hinv.
  pose proof (forwardSweep_totalLossKw_nonneg _ _ _ _ _ Hlen Hf) as Hloss.
  cbn [lf_edgeResults lf_systemResult assemble SystemResult.totalLossKw
       SystemResult.feederEfficiency].
  split; [|split; [done|]].
  - intros k er Her.
    destruct (fwd_edge _ _ _ _ _ _ Hinv k er Her)
      as (n & p & e & load & pr & _ & _ & Hpm & _ & _ & _ & ->).
    unfold edgeResultOf. cbn [EdgeResult.powerLossKw].
    apply parentMap_spec in Hpm as (He & _). by apply seg_lossKw_nonneg, Hlen.
  - set (T := totalKva (systemStats (nodeResults fwd) nodes)).
    set (L := totalLossKw fwd) in *.
    destruct (Rgt_dec T 0) as [HT|_]; [|lra].
    assert (HD : (0 < T * (9 / 10) + L)%R) by lra.
    assert (Hq : (0 <= L / (T * (9 / 10) + L) < 1)%R).
    { split.
      - apply Rmult_le_pos; [done|]. left. by apply Rinv_0_lt_compat.
      - apply (Rmult_lt_reg_r (T * (9 / 10) + L)); [done|].
        unfold Rdiv. rewrite Rmult_assoc, Rinv_l by lra. lra. }
    lra.
Qed.

Lemma INITIAL_lengths e :
  e ∈ INITIAL_EDGES -> (0 <= NetworkEdge.lengthMeters e)%R.
Proof.
  intros He. unfold INITIAL_EDGES in He.
  repeat (apply elem_of_cons in He as [->|He]; [simpl; lra|]).
  by apply elem_of_nil in He.
Qed.

Lemma losses_and_efficiency_are_bounded_witness :
  exists r,
    calculateLoadFlow INITIAL_NODES INITIAL_EDGES 11 = Return r
    /\ (0 < SystemResult.feederEfficiency (lf_systemResult r) <= 100)%R.
Proof.
  destruct (calculateLoadFlow_returns INITIAL_NODES INITIAL_EDGES 11 _
              INITIAL_source INITIAL_valid) as [r Hr].
  exists r. split; [exact Hr|].
  exact (proj2 (proj2 (losses_and_efficiency_are_bounded _ _ _ _
                         INITIAL_lengths Hr))).
Defined.

(** ** The two reported paths *)

(** The distance recorded for an id is the length of its path to the root. *)
Lemma path_distance edges src (dist : gmap string R) :
  dist !! src = Some 0%R ->
  (forall n, Reachable edges src n -> n ≠ src ->
     exists p e dp, parentMap (bfs edges src) !! n = Some (p, e)
                    /\ dist !! p = Some dp
                    /\ dist !! n = Some (dp + NetworkEdge.lengthMeters e)%R) ->
  forall n es,
    PathToRoot (parentMap (bfs edges src)) src n es ->
    dist !! n = Some (sumList (map NetworkEdge.lengthMeters es)).
Proof.
  intros Hroot Hstep n es Hpath.
  induction Hpath as [|n p e es Hne Hpm Hpath IH]; [done|].
  destruct (parentMap_child_reachable _ _ _ _ _ Hpm) as [Hn _].
  apply levelOrder_reachable in Hn.
  destruct (Hstep n Hn Hne) as (p' & e' & dp & Hpm' & Hdp & Hdn).
  rewrite Hpm in Hpm'. inversion Hpm'; subst p' e'.
  rewrite IH in Hdp. inversion Hdp; subst dp.
  rewrite Hdn. f_equal. unfold sumList. simpl. lra.
Qed.

(** The reported longest path is a longest one among the paths that lead from
    the nodes back to the root over the parent edges of the search: there is
    a reachable node, the farthest one, such that no such path is longer than
    the one from that node, and, unless the id of that node is the empty
    string, longestPathEdgeIds lists the ids of the edges of its path,
    starting at the node. *)
Theorem longest_path_is_a_longest_root_path nodes edges sourceKv r s :
  findSource nodes = Some s ->
  calculateLoadFlow nodes edges sourceKv = Return r ->
  let src := NetworkNode.id s in
  let pm := parentMap (bfs edges src) in
  exists far es,
    Reachable edges src far
    /\ PathToRoot pm src far es
    /\ (far ≠ "" ->
        SystemResult.longestPathEdgeIds (lf_systemResult r) = map NetworkEdge.id es)
    /\ forall n es',
         PathToRoot pm src n es' ->
         (sumList (map NetworkEdge.lengthMeters es')
          <= sumList (map NetworkEdge.lengthMeters es))%R.
Proof.
  intros Hs Hr src pm.
  destruct (longest_path_spec _ _ _ _ _ Hs Hr)
    as (dist & far & dmax & es & Hroot & Hstep & Hfar & Hdfar & Hmax & Hpath
        & _ & Hids).
  fold src pm in Hroot, Hstep, Hfar, Hpath.
  exists far, es. split; [done|]. split; [done|]. split; [done|].
  intros n es' Hpath'.
  pose proof (path_distance edges src dist Hroot Hstep _ _ Hpath) as Hd.
  pose proof (path_distance edges src dist Hroot Hstep _ _ Hpath') as Hd'.
  rewrite Hdfar in Hd. inversion Hd; subst dmax.
  by apply (Hmax n).
Qed.

Lemma longest_path_is_a_longest_root_path_witness :
  exists r far es,
    calculateLoadFlow INITIAL_NODES INITIAL_EDGES 11 = Return r
    /\ Reachable INITIAL_EDGES "n1" far
    /\ PathToRoot (parentMap (bfs INITIAL_EDGES "n1")) "n1" far es.
Proof.
  destruct (calculateLoadFlow_returns INITIAL_NODES INITIAL_EDGES 11 _
              INITIAL_source INITIAL_valid) as [r Hr].
  destruct (longest_path_is_a_longest_root_path _ _ _ _ _ INITIAL_source Hr)
    as (far & es & Hfar & Hpath & _).
  exists r, far, es. split; [exact Hr|]. split; [exact Hfar | exact Hpath].
Defined.

Lemma foldl_criticalStep es a :
  foldl criticalStep a es
  = ((a.1 + sumList (map NetworkEdge.lengthMeters es))%R,
     (a.2 + sumList (map Spec.resistance es))%R).
Proof.
  revert a. induction es as [|e es IH]; intros [a1 a2]; simpl.
  - unfold sumList. simpl. f_equal; lra.
  - rewrite IH. unfold criticalStep, Spec.resistance, sumList. simpl. f_equal; lra.
Qed.

(** When a critical node is reported and its id is not the empty string, it
    is a reachable node other than the source, and criticalPathLengthMeters
    and criticalPathResistanceOhms are the sums of the lengths and of the
    resistances of the parent edges that lead from it back to the root. *)
Theorem critical_path_adds_up_the_parent_edges nodes edges sourceKv r s c :
  findSource nodes = Some s ->
  calculateLoadFlow nodes edges sourceKv = Return r ->
  SystemResult.criticalNodeId (lf_systemResult r) = Some c -> c ≠ "" ->
  c ≠ NetworkNode.id s
  /\ Reachable edges (NetworkNode.id s) c
  /\ exists es,
       PathToRoot (parentMap (bfs edges (NetworkNode.id s))) (NetworkNode.id s) c es
       /\ SystemResult.criticalPathLengthMeters (lf_systemResult r)
          = sumList (map NetworkEdge.lengthMeters es)
       /\ SystemResult.criticalPathResistanceOhms (lf_systemResult r)
          = sumList (map Spec.resistance es).
Proof.
  intros Hs Hr Hc Hne.
  destruct (critical_path_spec _ _ _ _ _ _ Hs Hr Hc Hne) as (es & Hpath & Hsum).
  rewrite foldl_criticalStep in Hsum. simpl in Hsum.
  destruct (calculateLoadFlow_phases _ _ _ _ _ Hs Hr) as (acc & fwd & _ & Hinv & Hr').
  assert (Hres : exists res, nodeResults fwd !! c = Some res
                             /\ (NodeResult.voltagePu res < 1)%R).
  { subst r. cbn [lf_systemResult assemble SystemResult.criticalNodeId] in Hc.
    destruct (st_some _ _ _ (systemStats_StatsInv (nodeResults fwd) nodes) c Hc)
      as (Hlt & _ & _ & _ & res & _ & _ & Hres & Hpu & _).
    exists res. split; [done|]. by rewrite Hpu. }
  destruct Hres as (res & Hres & Hlt).
  assert (Hcs : c ≠ NetworkNode.id s).
  { intros ->. rewrite (fwd_root _ _ _ _ _ _ Hinv) in Hres.
    inversion Hres; subst res. simpl in Hlt. lra. }
  split; [done|]. split.
  { apply levelOrder_reachable.
    destruct (proj1 (fwd_dom _ _ _ _ _ _ Hinv c)) as [?|?]; [by eauto|done|done]. }
  exists es. split; [done|]. inversion Hsum as [[H1 H2]]. split; lra.
Qed.

(** One load of 50 kVA behind 1000 m of rabbit conductor: it is the critical
    node. *)
Lemma PAIR_critical :
  exists r,
    calculateLoadFlow [T_s; T_a] [TS_e] 11 = Return r
    /\ SystemResult.criticalNodeId (lf_systemResult r) = Some "a".
Proof.
  destruct (two_nodes_run 11 T_s T_a TS_e eq_refl eq_refl eq_refl eq_refl eq_refl
              eq_refl) as (fwd & Hr & Hres & _ & _).
  eexists. split; [exact Hr|].
  destruct (calculateLoadFlow_phases [T_s; T_a] [TS_e] 11 _ T_s eq_refl Hr)
    as (acc & fwd' & _ & Hinv & Heq).
  apply (f_equal lf_nodeResults) in Heq. cbn [lf_nodeResults assemble] in Heq.
  pose proof (fwd_root _ _ _ _ _ _ Hinv) as Hroot. rewrite <- Heq in Hroot.
  clear Hinv Heq Hr acc fwd'.
  cbn [lf_systemResult assemble SystemResult.criticalNodeId].
  assert (Hlt : (NodeResult.voltagePu (nodeResultOf 11 "a" TS_e (ownLoad T_a) 11)
                 < 1)%R).
  { apply (T_below_one TS_e T_a); [by apply rabbit_rTotal|].
    unfold ownLoad, T_a. simpl. ring. }
  pose proof (systemStats_StatsInv (nodeResults fwd) [T_s; T_a])
    as [_ Hlow Hnone Hsome _].
  set (stats := systemStats (nodeResults fwd) [T_s; T_a]) in *.
  pose proof (Hlow T_a _ ltac:(in_list) Hres) as Hma.
  destruct (criticalNodeId stats) as [c|] eqn:Hc.
  - destruct (Hsome c eq_refl)
      as (Hm1 & l1 & n & l2 & res & Hsplit & Hid & Hcres & Hpu & _).
    destruct l1 as [|x1 [|x2 l1]]; simpl in Hsplit; inversion Hsplit; subst.
    + change (NetworkNode.id T_s) with "s" in Hcres.
      change (NetworkNode.id T_s) with "s" in Hroot.
      rewrite Hroot in Hcres. inversion Hcres; subst res. simpl in Hpu. lra.
    + reflexivity.
    + destruct l1; discriminate.
  - rewrite (Hnone eq_refl) in Hma. lra.
Qed.

Lemma critical_path_adds_up_the_parent_edges_witness :
  exists r es,
    calculateLoadFlow [T_s; T_a] [TS_e] 11 = Return r
    /\ PathToRoot (parentMap (bfs [TS_e] "s")) "s" "a" es
    /\ SystemResult.criticalPathLengthMeters (lf_systemResult r)
       = sumList (map NetworkEdge.lengthMeters es).
Proof.
  destruct PAIR_critical as (r & Hr & Hc).
  assert (Hne : "a" ≠ "") by neq_lit.
  destruct (critical_path_adds_up_the_parent_edges [T_s; T_a] [TS_e] 11 r T_s "a"
              eq_refl Hr Hc Hne) as (_ & _ & es & Hpath & Hlen & _).
  exists r, es. split; [exact Hr|]. split; [exact Hpath | exact Hlen].
Defined.

(** ** The system totals *)

Lemma systemTotals_sums edges a :
  foldl totalsStep a edges
  = ((a.1 + sumList (map NetworkEdge.lengthMeters edges))%R,
     (a.2 + sumList (map Spec.resistance edges))%R).
Proof.
  revert a. induction edges as [|e edges IH]; intros [a1 a2]; simpl.
  - unfold sumList. simpl. f_equal; lra.
  - rewrite IH. unfold totalsStep, Spec.resistance, sumList. simpl. f_equal; lra.
Qed.

(** No edge is the parent edge of two nodes. *)
Lemma parent_edge_injective edges src n n' p p' e :
  parentMap (bfs edges src) !! n = Some (p, e) ->
  parentMap (bfs edges src) !! n' = Some (p', e) -> n = n'.
Proof.
  intros Hn Hn'.
  destruct (parentMap_spec _ _ _ _ _ Hn) as (_ & Hc & _ & Hord).
  destruct (parentMap_spec _ _ _ _ _ Hn') as (_ & Hc' & _ & Hord').
  destruct (connects_same _ _ _ _ _ Hc Hc') as [[_ Heq]|[Hp' Hn'']]; [done|].
  subst p' n'. destruct (precedes_asym _ _ _ (levelOrder_NoDup edges src) Hord Hord').
Qed.

(** The edges of a path to the root are edges of the input, each met once. *)
Lemma PathToRoot_edges edges src n es :
  PathToRoot (parentMap (bfs edges src)) src n es ->
  NoDup es
  /\ forall e, e ∈ es ->
       e ∈ edges
       /\ exists m p i j,
            parentMap (bfs edges src) !! m = Some (p, e)
            /\ (i <= j)%nat /\ levelOrder (bfs edges src) !! i = Some m
            /\ levelOrder (bfs edges src) !! j = Some n.
Proof.
  induction 1 as [|n p e es Hne Hpm Hpath [IHnd IH]].
  - split; [constructor|]. intros e He. by apply elem_of_nil in He.
  - destruct (parentMap_spec _ _ _ _ _ Hpm) as (He & _ & _ & i & j & Hij & Hi & Hj).
    split.
    + constructor; [|done]. intros Hin.
      destruct (IH e Hin) as (_ & m & p' & i' & j' & Hm & Hij' & Hi' & Hj').
      assert (m = n) as -> by (by eapply parent_edge_injective).
      pose proof (levelOrder_NoDup edges src) as Hlo.
      assert (i' = j) by (eapply NoDup_lookup; eauto).
      assert (j' = i) by (eapply NoDup_lookup; eauto). lia.
    + intros e' He'. apply elem_of_cons in He' as [->|He'].
      * split; [done|]. exists n, p, j, j. repeat split; try done.
      * destruct (IH e' He') as (Hin & m & p' & i' & j' & Hm & Hij' & Hi' & Hj').
        split; [done|]. exists m, p', i', j. repeat split; try done.
        pose proof (levelOrder_NoDup edges src) as Hlo.
        assert (j' = i) by (eapply NoDup_lookup; eauto). lia.
Qed.

(** A sum over part of a list of non-negative terms is at most the sum over
    the list. *)
Lemma sumList_sublist {A : Type} (f : A -> R) (l1 l2 : list A) :
  NoDup l1 -> (forall x, x ∈ l1 -> x ∈ l2) -> (forall x, x ∈ l2 -> (0 <= f x)%R) ->
  (sumList (map f l1) <= sumList (map f l2))%R.
Proof.
  revert l2. induction l1 as [|x l1 IH]; intros l2 Hnd Hsub Hpos.
  - clear Hsub Hnd. induction l2 as [|y l2 IH2]; [unfold sumList; simpl; lra|].
    unfold sumList in *. simpl.
    pose proof (Hpos y (list_elem_of_here _ _)).
    assert (0 <= foldr Rplus 0 (map f l2))%R.
    { apply IH2. intros z Hz. apply Hpos. by apply list_elem_of_further. }
    lra.
  - apply NoDup_cons in Hnd as [Hx Hnd].
    destruct (proj1 (elem_of_Permutation l2 x) (Hsub x (list_elem_of_here _ _)))
      as [l2' Hperm].
    assert (sumList (map f l2) = sumList (map f (x :: l2'))) as ->
      by (by apply sumList_Permutation, fmap_Permutation).
    assert (Hle : (sumList (map f l1) <= sumList (map f l2'))%R).
    { apply IH; [done| |].
      - intros z Hz.
        assert (Hz2 : z ∈ x :: l2').
        { rewrite <- Hperm. apply Hsub. by apply list_elem_of_further. }
        apply elem_of_cons in Hz2 as [->|Hz2]; [done|done].
      - intros z Hz. apply Hpos. rewrite Hperm. by apply list_elem_of_further. }
    unfold sumList in *. simpl. lra.
Qed.

Lemma sumList_nonneg {A : Type} (f : A -> R) (l : list A) :
  (forall x, x ∈ l -> (0 <= f x)%R) -> (0 <= sumList (map f l))%R.
Proof.
  intros Hpos.
  pose proof (sumList_sublist f [] l (NoDup_nil_2 (A:=A))) as H.
  unfold sumList in H at 1. simpl in H. apply H; [|done].
  intros x Hx. by apply elem_of_nil in Hx.
Qed.

Lemma Spec_resistance_nonneg e :
  (0 <= NetworkEdge.lengthMeters e)%R -> (0 <= Spec.resistance e)%R.
Proof. apply seg_rTotal_sign. Qed.

(** totalSystemLengthMeters and totalSystemResistanceOhms add up the lengths
    and the resistances of all edges of the input, whether the search reaches
    them or not.  When no edge has a negative length, the length and the
    resistance of the critical path lie between 0 and these totals. *)
Theorem system_totals_cover_every_edge nodes edges sourceKv r :
  calculateLoadFlow nodes edges sourceKv = Return r ->
  let sys := lf_systemResult r in
  SystemResult.totalSystemLengthMeters sys
  = sumList (map NetworkEdge.lengthMeters edges)
  /\ SystemResult.totalSystemResistanceOhms sys = sumList (map Spec.resistance edges)
  /\ ((forall e, e ∈ edges -> (0 <= NetworkEdge.lengthMeters e)%R) ->
      (0 <= SystemResult.criticalPathLengthMeters sys
       <= SystemResult.totalSystemLengthMeters sys)%R
      /\ (0 <= SystemResult.criticalPathResistanceOhms sys
          <= SystemResult.totalSystemResistanceOhms sys)%R).
Proof.
  intros Hr. cbv zeta.
  destruct (calculateLoadFlow_Return _ _ _ _ Hr) as (s & acc & fwd & Hs & _ & _ & Hr').
  assert (Htot : SystemResult.totalSystemLengthMeters (lf_systemResult r)
                 = sumList (map NetworkEdge.lengthMeters edges)
                 /\ SystemResult.totalSystemResistanceOhms (lf_systemResult r)
                    = sumList (map Spec.resistance edges)).
  { subst r. cbn [lf_systemResult assemble SystemResult.totalSystemLengthMeters
                  SystemResult.totalSystemResistanceOhms].
    unfold systemTotals. rewrite systemTotals_sums. simpl. split; lra. }
  destruct Htot as [Hlen Hres]. split; [done|]. split; [done|].
  intros Hpos. rewrite Hlen, Hres.
  assert (Hpos' : forall e, e ∈ edges -> (0 <= Spec.resistance e)%R).
  { intros e He. by apply Spec_resistance_nonneg, Hpos. }
  pose proof (sumList_nonneg NetworkEdge.lengthMeters edges Hpos) as H0l.
  pose proof (sumList_nonneg Spec.resistance edges Hpos') as H0r.
  destruct (SystemResult.criticalNodeId (lf_systemResult r)) as [c|] eqn:Hc.
  - destruct (decide (c = "")) as [->|Hne].
    + subst r. cbn [lf_systemResult assemble SystemResult.criticalNodeId
                    SystemResult.criticalPathLengthMeters
                    SystemResult.criticalPathResistanceOhms] in *.
      rewrite Hc. simpl. lra.
    + destruct (critical_path_spec _ _ _ _ _ _ Hs Hr Hc Hne) as (es & Hpath & Hsum).
      rewrite foldl_criticalStep in Hsum. simpl in Hsum.
      inversion Hsum as [[H1 H2]].
      destruct (PathToRoot_edges _ _ _ _ Hpath) as [Hnd Hin].
      assert (Hsub : forall e, e ∈ es -> e ∈ edges) by (intros e He; by apply Hin).
      pose proof (sumList_sublist NetworkEdge.lengthMeters es edges Hnd Hsub Hpos).
      pose proof (sumList_sublist Spec.resistance es edges Hnd Hsub Hpos').
      pose proof (sumList_nonneg NetworkEdge.lengthMeters es
                    (fun e He => Hpos e (Hsub e He))).
      pose proof (sumList_nonneg Spec.resistance es
                    (fun e He => Hpos' e (Hsub e He))).
      lra.
  - subst r. cbn [lf_systemResult assemble SystemResult.criticalNodeId
                  SystemResult.criticalPathLengthMeters
                  SystemResult.criticalPathResistanceOhms] in *.
    rewrite Hc. simpl. lra.
Qed.

Lemma system_totals_cover_every_edge_witness :
  exists r,
    calculateLoadFlow INITIAL_NODES INITIAL_EDGES 11 = Return r
    /\ SystemResult.totalSystemLengthMeters (lf_systemResult r)
       = sumList (map NetworkEdge.lengthMeters INITIAL_EDGES).
Proof.
  destruct (calculateLoadFlow_returns INITIAL_NODES INITIAL_EDGES 11 _
              INITIAL_source INITIAL_valid) as [r Hr].
  exists r. split; [exact Hr|].
  exact (proj1 (system_totals_cover_every_edge _ _ _ _ Hr)).
Defined.

(** ** What the solver reads of a node *)

Lemma findSource_Forall2 (P : NetworkNode.t -> NetworkNode.t -> Prop) nodes nodes' :
  (forall n n', P n n' -> NetworkNode.type n = NetworkNode.type n') ->
  Forall2 P nodes nodes' ->
  option_Forall2 P (findSource nodes) (findSource nodes').
Proof.
  intros Hty. unfold findSource, isSource.
  induction 1 as [|n n' l l' Hn Hl IH]; simpl; [constructor|].
  rewrite <- (Hty _ _ Hn). case_bool_decide; [by constructor | done].
Qed.

Lemma initialLoads_Forall2 nodes nodes' :
  Forall2 sameElectricalData nodes nodes' -> initialLoads nodes = initialLoads nodes'.
Proof.
  unfold initialLoads. generalize (∅ : gmap string Power.t).
  intros acc H. revert acc.
  induction H as [|n n' l l' (Hid & _ & Hload & Hpf) Hl IH]; intros acc; simpl; [done|].
  rewrite IH. unfold ownLoad. by rewrite Hid, Hload, Hpf.
Qed.

Lemma systemStats_Forall2 M nodes nodes' :
  Forall2 sameElectricalData nodes nodes' -> systemStats M nodes = systemStats M nodes'.
Proof.
  unfold systemStats. generalize (mkStats 1 None 0).
  intros st H. revert st.
  induction H as [|n n' l l' (Hid & _ & Hload & _) Hl IH]; intros st; simpl; [done|].
  rewrite IH. unfold statsStep. by rewrite Hid, Hload.
Qed.

Lemma calculateLoadFlow_Forall2 nodes nodes' edges sourceKv :
  Forall2 sameElectricalData nodes nodes' ->
  calculateLoadFlow nodes edges sourceKv = calculateLoadFlow nodes' edges sourceKv.
Proof.
  intros H. unfold calculateLoadFlow.
  rewrite (initialLoads_Forall2 _ _ H).
  destruct (findSource_Forall2 sameElectricalData nodes nodes') as [s s' Hs|];
    [by intros n n' (_ & ? & _) | done | | done].
  destruct Hs as (<- & _). cbv zeta.
  destruct (backwardSweep _ _ _ _) as [acc|e]; [|done]. cbn [mbind outcome_bind].
  destruct (forwardSweep _ _ _ _ _) as [fwd|e]; [|done]. cbn [mbind outcome_bind].
  by rewrite (systemStats_Forall2 _ _ _ H).
Qed.

(** The solver reads the id, the type, the load and the power factor of a
    node and nothing else: two node lists that agree on these four fields,
    position by position, give the same outcome, whatever the coordinates,
    names, base voltages and load categories are. *)
Theorem solver_reads_four_fields_of_a_node nodes nodes' edges sourceKv :
  Forall2 sameElectricalData nodes nodes' ->
  calculateLoadFlow nodes edges sourceKv = calculateLoadFlow nodes' edges sourceKv.
Proof. apply calculateLoadFlow_Forall2. Qed.

Lemma solver_reads_four_fields_of_a_node_witness :
  calculateLoadFlow [W_s; W_a] [W_e1] 11
  = calculateLoadFlow [useNetworkState.moveTo 0 0 W_s; W_a] [W_e1] 11.
Proof.
  apply solver_reads_four_fields_of_a_node.
  repeat constructor.
Defined.

(** ** What the backward sweep leaves at every node *)

(** A run of the backward loop changes the load of an id only if the id is
    the parent of one of the ids the loop goes through. *)
Lemma backward_frame src pm l acc acc' k :
  (forall c p e, c ∈ l -> pm !! c = Some (p, e) -> p ≠ k) ->
  forEachM (backwardStep src pm) l acc = Return acc' -> acc' !! k = acc !! k.
Proof.
  intros Hk.
  apply (forEachM_invariant _ (fun a => a !! k = acc !! k)); [|done].
  intros a n a' Hn Ha Hstep.
  apply backwardStep_Return in Hstep
    as [[_ ->]|[(_ & _ & ->)|(_ & p & e & pl & ml & Hpm & _ & _ & ->)]]; [done|done|].
  rewrite lookup_insert_ne; [done|]. by eapply Hk.
Qed.

Lemma childrenOf_snoc pm l c n :
  childrenOf pm (l ++ [c]) n
  = childrenOf pm l n
    ++ (if bool_decide (fst <$> pm !! c = Some n) then [c] else []).
Proof. unfold childrenOf. rewrite List.filter_app. simpl. by case_bool_decide. Qed.

Lemma loadSum_nil f acc : loadSum f acc [] = 0%R.
Proof. reflexivity. Qed.

Lemma loadSum_singleton f acc k :
  loadSum f acc [k] = from_option f 0%R (acc !! k).
Proof. unfold loadSum, sumList. simpl. lra. Qed.

Section Subtrees.
Variable f : Power.t -> R.
Hypothesis f_add : forall a b,
  f (Power.mk (Power.p a + Power.p b) (Power.q a + Power.q b)) = (f a + f b)%R.
Variable src : string.
Variable pm : gmap string (string * NetworkEdge.t).

(** Running the backward loop over a suffix of the traversal order adds to
    every id the loads that the loop leaves at its children in the suffix. *)
Lemma backward_collects_children suf :
  forall pre acc acc',
    NoDup (pre ++ suf) -> ParentsFirst pm src (pre ++ suf) -> src ∉ suf ->
    forEachM (backwardStep src pm) (reverse suf) acc = Return acc' ->
    forall n,
      from_option f 0%R (acc' !! n)
      = (from_option f 0%R (acc !! n) + loadSum f acc' (childrenOf pm suf n))%R.
Proof using f_add.
  induction suf as [|n0 suf IH] using rev_ind; intros pre acc acc' Hnd Hpf Hsrc Hrun n.
  - simpl in Hrun. apply Return_inj in Hrun. subst.
    unfold childrenOf, loadSum, sumList. simpl. lra.
  - rewrite reverse_snoc in Hrun. simpl in Hrun.
    destruct (backwardStep src pm acc n0) as [acc1|] eqn:Hstep; simpl in Hrun; [|done].
    rewrite app_assoc in Hnd, Hpf.
    assert (Hne : n0 ≠ src).
    { intros ->. apply Hsrc, elem_of_app. right. by left. }
    destruct (ParentsFirst_last _ _ _ _ Hpf Hne) as (p0 & e0 & Hpm & Hp0).
    apply backwardStep_Return in Hstep
      as [[? _]|[(_ & Hnone & _)|(_ & p' & e' & pl & ml & Hpm' & Hpl & Hml & ->)]];
      [done|congruence|].
    rewrite Hpm in Hpm'. inversion Hpm'; subst p' e'.
    apply NoDup_app in Hnd as (Hnd & Hfresh & _).
    assert (Hn0 : n0 ∉ pre ++ suf).
    { intros Hin. apply (Hfresh n0 Hin). by left. }
    pose proof (IH pre _ acc' Hnd (ParentsFirst_app_l _ _ _ _ Hpf)
                  (fun Hin => Hsrc (proj2 (elem_of_app _ _ _) (or_introl Hin))) Hrun n)
      as Hn.
    (* the load of the last id is final *)
    assert (Hlast : acc' !! n0 = Some ml).
    { assert (Hkeep : forall c p e,
                 c ∈ reverse suf -> pm !! c = Some (p, e) -> p ≠ n0);
        [|rewrite (backward_frame _ _ _ _ _ n0 Hkeep Hrun);
          rewrite lookup_insert_ne; [done|]; by intros ->].
      intros c p e Hc Hcp ->. rewrite elem_of_reverse in Hc.
      assert (Hc' : c ∈ pre ++ suf) by (apply elem_of_app; by right).
      apply list_elem_of_lookup in Hc' as [j Hj].
      assert (Hcs : c ≠ src).
      { intros ->. apply Hsrc, elem_of_app. by left. }
      destruct (ParentsFirst_app_l _ _ _ _ Hpf j c Hj Hcs)
        as (p & e' & i & Hcp' & _ & Hi).
      rewrite Hcp in Hcp'. inversion Hcp'; subst p e'.
      apply Hn0. by eapply list_elem_of_lookup_2. }
    rewrite childrenOf_snoc, loadSum_app, Hn, Hpm. simpl.
    case_bool_decide as Hpn.
    + inversion Hpn; subst n. rewrite lookup_insert_eq, Hpl. simpl.
      rewrite f_add, loadSum_singleton, Hlast. simpl. lra.
    + rewrite lookup_insert_ne by (intros ->; done).
      rewrite loadSum_nil. lra.
Qed.

End Subtrees.

(** After the backward sweep, the load aggregated at an id is the load the
    first loop stored for it plus the loads aggregated at its children in the
    tree of the search, in both components: every node carries the total of
    its subtree. *)
Theorem backward_sweep_aggregates_subtrees nodes edges src acc :
  backwardSweep src (parentMap (bfs edges src)) (levelOrder (bfs edges src))
    (initialLoads nodes) = Return acc ->
  forall n own agg,
    initialLoads nodes !! n = Some own -> acc !! n = Some agg ->
    let children := childrenOf (parentMap (bfs edges src)) (levelOrder (bfs edges src)) n in
    Power.p agg = (Power.p own + loadSum Power.p acc children)%R
    /\ Power.q agg = (Power.q own + loadSum Power.q acc children)%R.
Proof.
  intros Hrun n own agg Hown Hagg. cbv zeta.
  pose proof (levelOrder_head edges src) as Hhd.
  pose proof (levelOrder_NoDup edges src) as Hnd.
  pose proof (bfs_ParentsFirst edges src) as Hpf.
  assert (Hroot : parentMap (bfs edges src) !! src = None).
  { destruct (parentMap (bfs edges src) !! src) as [[p e]|] eqn:H; [|done].
    by apply parentMap_spec in H as (_ & _ & ? & _). }
  set (pm := parentMap (bfs edges src)) in *.
  destruct (levelOrder (bfs edges src)) as [|x tl]; [done|].
  simpl in Hhd. inversion Hhd; subst x.
  unfold backwardSweep in Hrun. rewrite reverse_cons, forEachM_app in Hrun.
  destruct (forEachM _ (reverse tl) _) as [acc1|] eqn:Hrun1; simpl in Hrun; [|done].
  unfold backwardStep in Hrun. rewrite String.eqb_refl in Hrun.
  apply Return_inj in Hrun. subst acc1.
  apply NoDup_cons in Hnd as Hnd'. destruct Hnd' as [Hsrc _].
  assert (Hkids : childrenOf pm (src :: tl) n = childrenOf pm tl n).
  { unfold childrenOf. simpl. rewrite Hroot. reflexivity. }
  rewrite Hkids.
  assert (Hsum : forall f,
             (forall a b, f (Power.mk (Power.p a + Power.p b) (Power.q a + Power.q b))
                          = (f a + f b)%R) ->
             f agg = (f own + loadSum f acc (childrenOf pm tl n))%R).
  { intros f Hf.
    pose proof (backward_collects_children f Hf src pm tl [src] _ acc Hnd Hpf Hsrc
                  Hrun1 n) as H.
    by rewrite Hagg, Hown in H. }
  split; by apply Hsum.
Qed.

Lemma backward_sweep_aggregates_subtrees_witness :
  exists acc agg,
    backwardSweep "n1" (parentMap (bfs INITIAL_EDGES "n1"))
      (levelOrder (bfs INITIAL_EDGES "n1")) (initialLoads INITIAL_NODES) = Return acc
    /\ acc !! "n2" = Some agg
    /\ Power.p agg
       = (50 * (9 / 10)
          + loadSum Power.p acc
              (childrenOf (parentMap (bfs INITIAL_EDGES "n1"))
                 (levelOrder (bfs INITIAL_EDGES "n1")) "n2"))%R.
Proof.
  destruct (backwardSweep_returns "n1" (parentMap (bfs INITIAL_EDGES "n1"))
              (levelOrder (bfs INITIAL_EDGES "n1")) (initialLoads INITIAL_NODES))
    as [acc Hacc].
  - intros n Hn. apply initialLoads_is_Some.
    apply (levelOrder_nodes INITIAL_NODES INITIAL_EDGES
             (NetworkNode.mk "n1" 100 300 "N1 (Source)" SOURCE 11 0 1 Industrial));
      [in_list | exact INITIAL_valid | exact Hn].
  - intros n p e _ Hpm. apply initialLoads_is_Some.
    apply (levelOrder_nodes INITIAL_NODES INITIAL_EDGES
             (NetworkNode.mk "n1" 100 300 "N1 (Source)" SOURCE 11 0 1 Industrial));
      [in_list | exact INITIAL_valid |].
    exact (proj2 (parentMap_child_reachable _ _ _ _ _ Hpm)).
  - assert (Hsome : is_Some (acc !! "n2")).
    { apply (backwardSweep_is_Some _ _ _ _ _ "n2" Hacc). by eexists. }
    destruct Hsome as [agg Hagg].
    exists acc, agg. split; [exact Hacc|]. split; [exact Hagg|].
    exact (proj1 (backward_sweep_aggregates_subtrees INITIAL_NODES INITIAL_EDGES "n1"
                    acc Hacc "n2" _ agg eq_refl Hagg)).
Defined.

(** ** The conductor lookup *)

(** [getConductor] never fails: for the id of a catalog entry it returns that
    entry, for any other id the first entry (rabbit); so the conductor of an
    edge always has a positive resistance and a positive rating, and no
    reactance. *)
Theorem getConductor_falls_back_to_the_first_entry id :
  (forall c, c ∈ CONDUCTORS -> getConductor (Conductor.id c) = c)
  /\ (id ∉ map Conductor.id CONDUCTORS -> getConductor id = CONDUCTORS_0)
  /\ getConductor id ∈ CONDUCTORS
  /\ (0 < Conductor.resistancePerKm (getConductor id))%R
  /\ (0 < Conductor.maxCurrentAmps (getConductor id))%R
  /\ Conductor.reactancePerKm (getConductor id) = None.
Proof.
  split; [|split; [|split; [|split; [|split]]]].
  - intros c Hc. unfold CONDUCTORS in Hc.
    repeat (apply elem_of_cons in Hc as [->|Hc]; [reflexivity|]).
    by apply elem_of_nil in Hc.
  - intros Hid. unfold getConductor, CONDUCTORS. cbn [List.find Conductor.id].
    repeat (match goal with
            | |- context [String.eqb ?a id] =>
                destruct (String.eqb_spec a id) as [<-|_];
                [destruct Hid; simpl; in_list|]
            end).
    reflexivity.
  - apply getConductor_cases.
  - apply getConductor_resistance_pos.
  - pose proof (getConductor_cases id) as H. unfold CONDUCTORS in H.
    repeat (apply elem_of_cons in H as [->|H]; [simpl; lra|]).
    by apply elem_of_nil in H.
  - apply getConductor_reactance.
Qed.

(** ** Voltage along any branch *)

(** In a network of any shape whose loads draw real power (no negative load
    or power factor) over segments of non-negative length, the per-unit
    voltage of a node is at most that of its parent whenever the parent's is
    not negative; in particular the children of the source are at or below
    1.0. *)
Theorem voltage_never_rises_away_from_the_source nodes edges sourceKv r s :
  findSource nodes = Some s ->
  calculateLoadFlow nodes edges sourceKv = Return r ->
  (forall n, n ∈ nodes ->
     (0 <= NetworkNode.loadKva n)%R /\ (0 <= NetworkNode.pf n)%R) ->
  (forall e, e ∈ edges -> (0 <= NetworkEdge.lengthMeters e)%R) ->
  forall n p e,
    parentMap (bfs edges (NetworkNode.id s)) !! n = Some (p, e) ->
    exists pr nr,
      lf_nodeResults r !! p = Some pr
      /\ lf_nodeResults r !! n = Some nr
      /\ ((0 <= NodeResult.voltagePu pr)%R ->
          (NodeResult.voltagePu nr <= NodeResult.voltagePu pr)%R)
      /\ (p = NetworkNode.id s -> (NodeResult.voltagePu nr <= 1)%R).
Proof.
  intros Hs Hr Hloads Hlens n p e Hpm.
  destruct (calculateLoadFlow_phases _ _ _ _ _ Hs Hr) as (acc & fwd & Hb & Hinv & ->).
  cbn [lf_nodeResults assemble].
  destruct (parentMap_spec _ _ _ _ _ Hpm) as (He & _ & Hne & _).
  destruct (parentMap_child_reachable _ _ _ _ _ Hpm) as [Hn _].
  destruct (fwd_node _ _ _ _ _ _ Hinv n Hn Hne)
    as (p' & e' & load & pr & Hpm' & Hload & Hpr & Hnr).
  rewrite Hpm in Hpm'. inversion Hpm'; subst p' e'.
  assert (Hacc : (0 <= Power.p load)%R).
  { apply (backwardSweep_preserves (fun v => (0 <= Power.p v)%R) _ _ _ _ _
             ltac:(intros x y Hx Hy; simpl; lra)
             ltac:(intros k v _ Hv;
                   apply initialLoads_lookup_Some in Hv as (m & Hm & _ & ->);
                   destruct (Hloads m Hm); by apply ownLoad_real_power_nonneg)
             Hb n load Hne Hload). }
  assert (Hstep : (0 <= NodeResult.voltagePu pr)%R ->
                  (NodeResult.voltagePu
                     (nodeResultOf sourceKv n e load (NodeResult.voltageKv pr))
                   <= NodeResult.voltagePu pr)%R).
  { intros Hpu.
    by eapply (segment_pu_monotone _ _ _ _ _ _ _ _ _ _ _ _ Hinv Hn Hne Hpm Hload Hpr
                 Hnr Hacc (Hlens e He)). }
  eexists pr, _. split; [done|]. split; [done|]. split; [done|].
  intros ->. rewrite (fwd_root _ _ _ _ _ _ Hinv) in Hpr. inversion Hpr; subst pr.
  simpl in Hstep. apply Hstep. lra.
Qed.

Lemma INITIAL_loads n :
  n ∈ INITIAL_NODES -> (0 <= NetworkNode.loadKva n)%R /\ (0 <= NetworkNode.pf n)%R.
Proof.
  intros Hn. unfold INITIAL_NODES in Hn.
  repeat (apply elem_of_cons in Hn as [->|Hn]; [simpl; lra|]).
  by apply elem_of_nil in Hn.
Qed.

Lemma INITIAL_parent_n2 :
  parentMap (bfs INITIAL_EDGES "n1") !! "n2"
  = Some ("n1", NetworkEdge.mk "e1" "n1" "n2" 500 "dog").
Proof.
  apply (lookup_by_list _ (map_to_list (parentMap (bfs INITIAL_EDGES "n1")))
           _ _ eq_refl).
  vm_compute. in_list.
Qed.

Lemma voltage_never_rises_away_from_the_source_witness :
  exists r pr nr,
    calculateLoadFlow INITIAL_NODES INITIAL_EDGES 11 = Return r
    /\ lf_nodeResults r !! "n1" = Some pr
    /\ lf_nodeResults r !! "n2" = Some nr
    /\ (NodeResult.voltagePu nr <= 1)%R.
Proof.
  destruct (calculateLoadFlow_returns INITIAL_NODES INITIAL_EDGES 11 _
              INITIAL_source INITIAL_valid) as [r Hr].
  destruct (voltage_never_rises_away_from_the_source _ _ _ _ _ INITIAL_source Hr
              INITIAL_loads INITIAL_lengths _ _ _ INITIAL_parent_n2)
    as (pr & nr & Hpr & Hnr & _ & Hle).
  exists r, pr, nr. split; [exact Hr|]. split; [exact Hpr|]. split; [exact Hnr|].
  exact (Hle eq_refl).
Defined.

(** ** Nodes without connection to the source *)

Lemma forEachM_rel {A S : Type} (R : S -> S -> Prop)
    (body body' : S -> A -> outcome S) (l : list A) :
  (forall a s s', a ∈ l -> R s s' -> outcome_rel R (body s a) (body' s' a)) ->
  forall s s', R s s' -> outcome_rel R (forEachM body l s) (forEachM body' l s').
Proof.
  induction l as [|a l IH]; intros Hstep s s' Hs; [done|].
  cbn [forEachM].
  pose proof (Hstep a s s' (list_elem_of_here _ _) Hs) as Ha.
  destruct (body s a) as [s1|e1], (body' s' a) as [s1'|e1']; try done.
  cbn [mbind outcome_bind]. apply IH; [|done].
  intros a0 t t' Ha0. apply Hstep. by apply list_elem_of_further.
Qed.

Lemma forEachM_ext_in {A S : Type} (body body' : S -> A -> outcome S) (l : list A) s :
  (forall a t, a ∈ l -> body t a = body' t a) ->
  forEachM body l s = forEachM body' l s.
Proof.
  revert s. induction l as [|a l IH]; intros s Hext; [done|].
  cbn [forEachM]. rewrite (Hext a s (list_elem_of_here _ _)).
  destruct (body' s a) as [s1|e1]; [|done]. cbn [mbind outcome_bind].
  apply IH. intros a0 t Ha0. apply Hext. by apply list_elem_of_further.
Qed.

(** Two runs of the backward sweep from loads that agree on the reachable ids
    other than the source end alike. *)
Lemma backwardSweep_agree edges src acc acc' :
  (forall k, Reachable edges src k -> k ≠ src -> acc !! k = acc' !! k) ->
  (is_Some (acc !! src) <-> is_Some (acc' !! src)) ->
  outcome_rel (fun a a' => forall k, Reachable edges src k -> k ≠ src ->
                                     a !! k = a' !! k)
    (backwardSweep src (parentMap (bfs edges src)) (levelOrder (bfs edges src)) acc)
    (backwardSweep src (parentMap (bfs edges src)) (levelOrder (bfs edges src)) acc').
Proof.
  intros Hagree Hsrc. unfold backwardSweep.
  pose proof (forEachM_rel
                (fun a a' => (forall k, Reachable edges src k -> k ≠ src ->
                                        a !! k = a' !! k)
                             /\ (is_Some (a !! src) <-> is_Some (a' !! src)))
                (backwardStep src (parentMap (bfs edges src)))
                (backwardStep src (parentMap (bfs edges src)))
                (reverse (levelOrder (bfs edges src)))) as Hrel.
  assert (Hout : forall o o' : outcome (gmap string Power.t),
             outcome_rel
               (fun a a' => (forall k, Reachable edges src k -> k ≠ src ->
                                       a !! k = a' !! k)
                            /\ (is_Some (a !! src) <-> is_Some (a' !! src))) o o' ->
             outcome_rel (fun a a' => forall k, Reachable edges src k -> k ≠ src ->
                                                a !! k = a' !! k) o o').
  { intros [a|e] [a'|e']; simpl; [by intros [? _]|done|done|done]. }
  apply Hout, Hrel; [|done].
  intros n a a' Hn [Ha Has]. rewrite elem_of_reverse in Hn.
  apply levelOrder_reachable in Hn.
  unfold backwardStep. rewrite eqb_decide. case_bool_decide as Hns; [done|].
  destruct (parentMap (bfs edges src) !! n) as [[p e]|] eqn:Hpm; [|done].
  destruct (parentMap_child_reachable _ _ _ _ _ Hpm) as [_ Hp].
  apply levelOrder_reachable in Hp.
  rewrite <- (Ha n Hn Hns).
  destruct (decide (p = src)) as [->|Hps].
  - destruct (a !! src) as [pl|] eqn:Hpl, (a' !! src) as [pl'|] eqn:Hpl';
      cbn [deref mbind outcome_bind outcome_rel].
    + destruct (a !! n) as [ml|]; cbn [deref mbind outcome_bind outcome_rel];
        [|done].
      split.
      * intros k Hk Hks. rewrite !lookup_insert_ne by done. by apply Ha.
      * rewrite !lookup_insert_eq. split; by eauto.
    + destruct (proj1 Has (mk_is_Some _ _ eq_refl)) as [? ?]. done.
    + destruct (proj2 Has (mk_is_Some _ _ eq_refl)) as [? ?]. done.
    + done.
  - rewrite <- (Ha p Hp Hps).
    destruct (a !! p) as [pl|]; cbn [deref mbind outcome_bind outcome_rel]; [|done].
    destruct (a !! n) as [ml|]; cbn [deref mbind outcome_bind outcome_rel]; [|done].
    split.
    + intros k Hk Hks. destruct (decide (p = k)) as [->|Hne].
      * by rewrite !lookup_insert_eq.
      * rewrite !lookup_insert_ne by done. by apply Ha.
    + by rewrite !lookup_insert_ne.
Qed.

Lemma forwardSweep_agree edges src sourceKv acc acc' :
  (forall k, Reachable edges src k -> k ≠ src -> acc !! k = acc' !! k) ->
  forwardSweep src sourceKv (parentMap (bfs edges src)) acc (levelOrder (bfs edges src))
  = forwardSweep src sourceKv (parentMap (bfs edges src)) acc'
      (levelOrder (bfs edges src)).
Proof.
  intros Hagree. unfold forwardSweep. apply forEachM_ext_in.
  intros n st Hn. apply levelOrder_reachable in Hn.
  unfold forwardStep. rewrite eqb_decide. case_bool_decide as Hns; [done|].
  by rewrite (Hagree n Hn Hns).
Qed.

Lemma initialLoads_agree edges src nodes nodes' k :
  Forall2 (sameEnergisedData edges src) nodes nodes' ->
  Reachable edges src k -> k ≠ src ->
  initialLoads nodes !! k = initialLoads nodes' !! k.
Proof.
  intros H Hk Hks. unfold initialLoads.
  assert (Hgen : forall acc acc' : gmap string Power.t,
             acc !! k = acc' !! k ->
             foldl (fun acc n => <[NetworkNode.id n := ownLoad n]> acc) acc nodes !! k
             = foldl (fun acc n => <[NetworkNode.id n := ownLoad n]> acc) acc' nodes'
               !! k); [|by apply Hgen].
  induction H as [|n n' l l' (Hid & _ & Hdata) Hl IH]; intros acc acc' Hacc; [done|].
  simpl. apply IH. rewrite <- Hid.
  destruct (decide (NetworkNode.id n = k)) as [Heq|Hne].
  - rewrite Heq, !lookup_insert_eq. f_equal. unfold ownLoad.
    rewrite Heq in Hdata. destruct (Hdata Hk Hks) as [-> ->]. done.
  - by rewrite !lookup_insert_ne.
Qed.

Lemma same_ids_Forall2 edges src nodes nodes' :
  Forall2 (sameEnergisedData edges src) nodes nodes' ->
  map NetworkNode.id nodes = map NetworkNode.id nodes'.
Proof.
  induction 1 as [|n n' l l' (Hid & _) Hl IH]; simpl; [done|]. by rewrite Hid, IH.
Qed.

Lemma systemStats_same_ids M nodes nodes' :
  Forall2 (fun n n' => NetworkNode.id n = NetworkNode.id n') nodes nodes' ->
  minV (systemStats M nodes) = minV (systemStats M nodes')
  /\ criticalNodeId (systemStats M nodes) = criticalNodeId (systemStats M nodes').
Proof.
  intros H. unfold systemStats.
  assert (Hgen : forall st st',
             minV st = minV st' -> criticalNodeId st = criticalNodeId st' ->
             minV (foldl (statsStep M) st nodes)
             = minV (foldl (statsStep M) st' nodes')
             /\ criticalNodeId (foldl (statsStep M) st nodes)
                = criticalNodeId (foldl (statsStep M) st' nodes'));
    [|by apply Hgen].
  induction H as [|n n' l l' Hid Hl IH]; intros st st' Hm Hc; [done|].
  simpl. apply IH; unfold statsStep; rewrite <- Hid, Hm, Hc;
    destruct (M !! NetworkNode.id n) as [res|]; simpl; try done;
    by destruct (Rlt_dec _ _).
Qed.

(** The load and the power factor of the source node and of a node that has
    no connection to the source count in the total load and in the efficiency
    computed from it, and in nothing else: two node lists that agree,
    position by position, on ids and types, and on load and power factor at
    every id other than the source's that can be reached from the source,
    make the solver throw alike or return results that agree in every other
    field. *)
Theorem unreachable_loads_count_in_the_total_load_only
    nodes nodes' edges sourceKv s :
  findSource nodes = Some s ->
  Forall2 (sameEnergisedData edges (NetworkNode.id s)) nodes nodes' ->
  outcome_rel sameButTotalLoad
    (calculateLoadFlow nodes edges sourceKv)
    (calculateLoadFlow nodes' edges sourceKv).
Proof.
  intros Hs H.
  pose proof (findSource_Forall2 _ nodes nodes' (fun n n' Hn => proj1 (proj2 Hn)) H)
    as Hf.
  rewrite Hs in Hf.
  destruct (findSource nodes') as [s'|] eqn:Hs'; inversion Hf as [? ? [Hid _]|]; subst.
  unfold calculateLoadFlow. rewrite Hs, Hs'. cbv zeta. rewrite <- Hid.
  set (src := NetworkNode.id s) in *.
  pose proof (backwardSweep_agree edges src (initialLoads nodes) (initialLoads nodes')
                (fun k Hk Hks => initialLoads_agree edges src nodes nodes' k H Hk Hks))
    as Hb.
  rewrite !initialLoads_is_Some, (same_ids_Forall2 _ _ _ _ H) in Hb.
  specialize (Hb (iff_refl _)).
  destruct (backwardSweep src _ _ (initialLoads nodes)) as [acc|e],
    (backwardSweep src _ _ (initialLoads nodes')) as [acc'|e']; try done.
  cbn [mbind outcome_bind outcome_rel] in *.
  rewrite <- (forwardSweep_agree edges src sourceKv acc acc' Hb).
  destruct (forwardSweep src sourceKv _ acc _) as [fwd|e]; [|done].
  cbn [mbind outcome_bind outcome_rel].
  destruct (systemStats_same_ids (nodeResults fwd) nodes nodes') as [Hm Hc].
  { eapply Forall2_impl; [exact H|]. by intros n n' (? & _). }
  unfold sameButTotalLoad.
  cbn [lf_nodeResults lf_edgeResults lf_systemResult SystemResult.totalLossKw
       SystemResult.minVoltagePu SystemResult.criticalNodeId
       SystemResult.longestPathEdgeIds SystemResult.totalSystemLengthMeters
       SystemResult.totalSystemResistanceOhms SystemResult.criticalPathLengthMeters
       SystemResult.criticalPathResistanceOhms].
  rewrite Hm, Hc. by repeat split.
Qed.

Lemma ISLAND_unreachable : ~ Reachable [W_e1] "n1" "n9".
Proof.
  intros H. apply levelOrder_reachable in H.
  assert (Hlo : levelOrder (bfs [W_e1] "n1") = ["n1"; "n2"])
    by (vm_compute; reflexivity).
  rewrite Hlo in H.
  apply elem_of_cons in H as [H|H]; [discriminate H|].
  apply list_elem_of_singleton in H. discriminate H.
Qed.

Lemma unreachable_loads_count_in_the_total_load_only_witness :
  outcome_rel sameButTotalLoad
    (calculateLoadFlow [W_s; W_a; ISLAND_heavy] [W_e1] 11)
    (calculateLoadFlow [W_s; W_a; ISLAND_idle] [W_e1] 11).
Proof.
  apply (unreachable_loads_count_in_the_total_load_only
           [W_s; W_a; ISLAND_heavy] [W_s; W_a; ISLAND_idle] [W_e1] 11 W_s eq_refl).
  constructor; [by repeat split|].
  constructor; [by repeat split|].
  constructor; [|constructor].
  split; [reflexivity|]. split; [reflexivity|].
  intros H _. destruct (ISLAND_unreachable H).
Defined.

(** ** The order of the node list *)

Lemma initialLoads_Permutation nodes nodes' :
  NoDup (map NetworkNode.id nodes) -> nodes ≡ₚ nodes' ->
  initialLoads nodes = initialLoads nodes'.
Proof.
  intros Hnd Hperm.
  assert (Hids : map NetworkNode.id nodes ≡ₚ map NetworkNode.id nodes')
    by (by apply fmap_Permutation).
  assert (Hnd' : NoDup (map NetworkNode.id nodes')) by (by rewrite <- Hids).
  apply map_eq. intros k.
  destruct (decide (k ∈ map NetworkNode.id nodes)) as [Hk|Hk].
  - apply list_elem_of_fmap in Hk as (n & -> & Hn).
    rewrite (initialLoads_lookup nodes n Hnd Hn).
    symmetry. apply initialLoads_lookup; [done|]. by rewrite <- Hperm.
  - assert (Hk' : k ∉ map NetworkNode.id nodes').
    { by rewrite <- Hids. }
    destruct (initialLoads nodes !! k) as [v|] eqn:Hv.
    { destruct Hk. apply initialLoads_is_Some. by eauto. }
    destruct (initialLoads nodes' !! k) as [v'|] eqn:Hv'; [|done].
    destruct Hk'. apply initialLoads_is_Some. by eauto.
Qed.

Lemma findSource_Permutation nodes nodes' :
  (forall n m, n ∈ nodes -> m ∈ nodes ->
     NetworkNode.type n = SOURCE -> NetworkNode.type m = SOURCE -> n = m) ->
  nodes ≡ₚ nodes' -> findSource nodes = findSource nodes'.
Proof.
  intros Hone Hperm.
  destruct (findSource nodes) as [s|] eqn:Hs, (findSource nodes') as [s'|] eqn:Hs';
    [| | |done].
  - apply findSource_Some in Hs as [Hin Hty], Hs' as [Hin' Hty'].
    f_equal. apply Hone; [done| |done|done]. by rewrite Hperm.
  - apply findSource_Some in Hs as [Hin Hty].
    destruct (proj1 (findSource_None nodes') Hs' s); [|done]. by rewrite <- Hperm.
  - apply findSource_Some in Hs' as [Hin' Hty'].
    destruct (proj1 (findSource_None nodes) Hs s'); [|done]. by rewrite Hperm.
Qed.

Lemma minV_le_Permutation M nodes nodes' :
  nodes ≡ₚ nodes' -> (minV (systemStats M nodes) <= minV (systemStats M nodes'))%R.
Proof.
  intros Hperm.
  destruct (systemStats_StatsInv M nodes) as [_ Hlow _ _ _].
  destruct (systemStats_StatsInv M nodes') as [Hle' _ Hnone' Hsome' _].
  destruct (criticalNodeId (systemStats M nodes')) as [c|] eqn:Hc.
  - destruct (Hsome' c eq_refl) as (_ & l1 & n & l2 & res & Hsplit & <- & Hres & <- & _).
    apply (Hlow n res); [|done].
    rewrite Hperm, Hsplit. apply elem_of_app. right. by left.
  - rewrite (Hnone' eq_refl).
    by destruct (systemStats_StatsInv M nodes) as [Hle _ _ _ _].
Qed.

(** With distinct node ids and at most one SOURCE node, the order of the node
    list matters for nothing but the choice of the critical node among nodes
    of equal voltage: on a rearranged list the solver throws alike or returns
    the same node and edge results, totals, minimum voltage, efficiency and
    longest path. *)
Theorem node_order_only_breaks_ties nodes nodes' edges sourceKv :
  NoDup (map NetworkNode.id nodes) ->
  (forall n m, n ∈ nodes -> m ∈ nodes ->
     NetworkNode.type n = SOURCE -> NetworkNode.type m = SOURCE -> n = m) ->
  nodes ≡ₚ nodes' ->
  outcome_rel sameButCriticalNode
    (calculateLoadFlow nodes edges sourceKv)
    (calculateLoadFlow nodes' edges sourceKv).
Proof.
  intros Hnd Hone Hperm. unfold calculateLoadFlow.
  rewrite <- (findSource_Permutation _ _ Hone Hperm),
    <- (initialLoads_Permutation _ _ Hnd Hperm).
  destruct (findSource nodes) as [s|]; [|done]. cbv zeta.
  destruct (backwardSweep _ _ _ _) as [acc|e]; [|done]. cbn [mbind outcome_bind].
  destruct (forwardSweep _ _ _ _ _) as [fwd|e]; [|done].
  cbn [mbind outcome_bind outcome_rel]. unfold sameButCriticalNode.
  cbn [lf_nodeResults lf_edgeResults lf_systemResult SystemResult.totalLossKw
       SystemResult.totalLoadKva SystemResult.feederEfficiency
       SystemResult.minVoltagePu SystemResult.longestPathEdgeIds
       SystemResult.totalSystemLengthMeters SystemResult.totalSystemResistanceOhms].
  assert (HT : totalKva (systemStats (nodeResults fwd) nodes)
               = totalKva (systemStats (nodeResults fwd) nodes')).
  { rewrite !(st_total _ _ _ (systemStats_StatsInv _ _)).
    by apply sumList_Permutation, fmap_Permutation. }
  assert (HM : minV (systemStats (nodeResults fwd) nodes)
               = minV (systemStats (nodeResults fwd) nodes')).
  { apply Rle_antisym; by apply minV_le_Permutation. }
  rewrite HT, HM. by repeat split.
Qed.

Lemma node_order_only_breaks_ties_witness :
  outcome_rel sameButCriticalNode
    (calculateLoadFlow INITIAL_NODES INITIAL_EDGES 11)
    (calculateLoadFlow (reverse INITIAL_NODES) INITIAL_EDGES 11).
Proof.
  apply (node_order_only_breaks_ties INITIAL_NODES (reverse INITIAL_NODES)
           INITIAL_EDGES 11 INITIAL_NoDup).
  - intros n m Hn Hm. unfold INITIAL_NODES in Hn, Hm.
    apply elem_of_cons in Hn as [->|Hn].
    + apply elem_of_cons in Hm as [->|Hm]; [reflexivity|].
      intros _ Hty.
      repeat (apply elem_of_cons in Hm as [->|Hm]; [discriminate Hty|]).
      destruct (proj1 (elem_of_nil _) Hm).
    + intros Hty.
      repeat (apply elem_of_cons in Hn as [->|Hn]; [discriminate Hty|]).
      destruct (proj1 (elem_of_nil _) Hn).
  - symmetry. apply reverse_Permutation.
Defined.

(** * Properties of the editor state *)

(** ** Undo and redo *)

Lemma take_all_but_last {A : Type} (l : list A) (x : A) :
  take (length (l ++ [x]) - 1) (l ++ [x]) = l.
Proof.
  rewrite length_app. simpl.
  replace (length l + 1 - 1)%nat with (length l) by lia.
  by rewrite take_app_length.
Qed.

Lemma undo_committed h h' :
  committed h h' ->
  useNetworkState.undo h'
  = HistoryState.mk (HistoryState.past h) (HistoryState.present h)
      [HistoryState.present h'].
Proof.
  intros [Hpast Hfuture]. unfold useNetworkState.undo.
  rewrite Hpast, Hfuture, last_snoc, take_all_but_last. done.
Qed.

(** [undo] and [redo] undo each other wherever they act, and do nothing where
    the buttons are disabled; after a committed edit, [undo] gives back the
    network and the past from before the edit and keeps the edited network
    for [redo]. *)
Theorem undo_and_redo_are_inverse h :
  (useNetworkState.canUndo h = true ->
   useNetworkState.redo (useNetworkState.undo h) = h)
  /\ (useNetworkState.canRedo h = true ->
      useNetworkState.undo (useNetworkState.redo h) = h)
  /\ (useNetworkState.canUndo h = false -> useNetworkState.undo h = h)
  /\ (useNetworkState.canRedo h = false -> useNetworkState.redo h = h)
  /\ (forall h0, committed h0 h ->
        useNetworkState.canUndo h = true
        /\ useNetworkState.canRedo h = false
        /\ HistoryState.past (useNetworkState.undo h) = HistoryState.past h0
        /\ HistoryState.present (useNetworkState.undo h) = HistoryState.present h0
        /\ HistoryState.future (useNetworkState.undo h) = [HistoryState.present h]).
Proof.
  destruct h as [past present future].
  unfold useNetworkState.canUndo, useNetworkState.canRedo,
    useNetworkState.undo, useNetworkState.redo.
  cbn [HistoryState.past HistoryState.present HistoryState.future].
  split; [|split; [|split; [|split]]].
  - intros Hcan. apply bool_decide_eq_true in Hcan.
    destruct past as [|x past _] using rev_ind; [simpl in Hcan; lia|].
    rewrite last_snoc, take_all_but_last. done.
  - intros Hcan. apply bool_decide_eq_true in Hcan.
    destruct future as [|next future]; [simpl in Hcan; lia|].
    cbn [HistoryState.past HistoryState.present HistoryState.future].
    rewrite last_snoc, take_all_but_last. done.
  - intros Hcan. apply bool_decide_eq_false in Hcan.
    destruct past as [|x past]; [done|]. simpl in Hcan. lia.
  - intros Hcan. apply bool_decide_eq_false in Hcan.
    destruct future as [|x future]; [done|]. simpl in Hcan. lia.
  - intros h0 Hc. pose proof (undo_committed _ _ Hc) as Hundo.
    destruct Hc as [Hpast Hfuture].
    cbn [HistoryState.past HistoryState.present HistoryState.future] in *.
    unfold useNetworkState.undo in Hundo.
    cbn [HistoryState.past HistoryState.present HistoryState.future] in Hundo.
    rewrite Hundo. subst.
    split; [apply bool_decide_eq_true; rewrite length_app; simpl; lia|].
    repeat split; reflexivity.
Qed.

(** ** What the handlers commit *)

Lemma truthy_spec s : truthy s = true <-> s ≠ "".
Proof.
  unfold truthy. rewrite eqb_decide, negb_true_iff, bool_decide_eq_false. done.
Qed.

Lemma deleteSelection_protected selection h :
  protectedSelection selection (NetworkState.nodes (HistoryState.present h)) ->
  useNetworkState.deleteSelection selection h = (h, selection).
Proof.
  unfold protectedSelection, useNetworkState.deleteSelection.
  destruct (SelectionState.id selection) as [id|]; [|done].
  intros [->|(Hty & n & Hfind & Hsrc)]; [done|].
  destruct (truthy id); [|done].
  unfold useNetworkState.deleteSelected. rewrite Hty, Hfind. simpl.
  by rewrite Hsrc, bool_decide_eq_true_2.
Qed.

Lemma deleteSelection_commits selection h :
  ~ protectedSelection selection (NetworkState.nodes (HistoryState.present h)) ->
  committed h (useNetworkState.deleteSelection selection h).1
  /\ (useNetworkState.deleteSelection selection h).2 = SelectionState.mk None None.
Proof.
  unfold protectedSelection, useNetworkState.deleteSelection.
  destruct (SelectionState.id selection) as [id|]; [|by intros []].
  intros Hnot.
  assert (Hid : truthy id = true).
  { apply truthy_spec. intros ->. apply Hnot. by left. }
  rewrite Hid. unfold useNetworkState.deleteSelected.
  destruct (SelectionState.type selection) as [[|]|] eqn:Hty; [|done|done].
  case_bool_decide as Hsrc; [|done].
  destruct Hnot. right. split; [done|].
  destruct (List.find _ _) as [n|]; [|done].
  exists n. split; [done|]. by inversion Hsrc.
Qed.

(** Every handler either commits one edit or leaves the history as it is.
    Moving or updating a node, updating an edge and resetting always commit,
    also when no node or edge has the id.  Importing commits the parsed
    network when the file has both fields and fails otherwise.  Creating a
    branch commits when the node to branch from exists and does nothing
    otherwise.  Deleting does nothing for a protected selection (no id, or a
    SOURCE node) and otherwise commits and clears the selection, also when the
    selection has no type. *)
Theorem every_handler_commits_or_does_nothing h :
  (forall id x y, committed h (useNetworkState.updateNodeMove id x y h))
  /\ (forall n, committed h (useNetworkState.updateNode n h))
  /\ (forall e, committed h (useNetworkState.updateEdge e h))
  /\ (committed h (useNetworkState.reset h)
      /\ HistoryState.present (useNetworkState.reset h)
         = NetworkState.mk INITIAL_NODES INITIAL_EDGES)
  /\ (forall data,
        match useNetworkState.importNetwork data h with
        | Some h' =>
            committed h h'
            /\ ParsedNetwork.nodes data
               = Some (NetworkState.nodes (HistoryState.present h'))
            /\ ParsedNetwork.edges data
               = Some (NetworkState.edges (HistoryState.present h'))
        | None => ParsedNetwork.nodes data = None \/ ParsedNetwork.edges data = None
        end)
  /\ (forall now1 now2 id kv,
        match List.find (fun n => String.eqb (NetworkNode.id n) id)
                (NetworkState.nodes (HistoryState.present h)) with
        | Some _ => committed h (useNetworkState.createBranch now1 now2 id kv h)
        | None => useNetworkState.createBranch now1 now2 id kv h = h
        end)
  /\ (forall selection,
        (protectedSelection selection (NetworkState.nodes (HistoryState.present h)) ->
         useNetworkState.deleteSelection selection h = (h, selection))
        /\ (~ protectedSelection selection
                (NetworkState.nodes (HistoryState.present h)) ->
            committed h (useNetworkState.deleteSelection selection h).1
            /\ (useNetworkState.deleteSelection selection h).2
               = SelectionState.mk None None)).
Proof.
  split; [done|]. split; [done|]. split; [done|]. split; [done|]. split.
  { intros [[nodes|] [edges|]]; simpl; auto. by repeat split. }
  split.
  { intros now1 now2 id kv. unfold useNetworkState.createBranch.
    by destruct (List.find _ _). }
  intros selection. split.
  - apply deleteSelection_protected.
  - apply deleteSelection_commits.
Qed.

(** ** The history limit *)

(** [pushState] keeps the latest states and drops the oldest: its past is the
    end of the old past followed by the network that is replaced, 50 states
    long, or all of them when they are fewer; the new network becomes the
    present and nothing is left to redo.  It is the plain commit that the
    handlers perform exactly while the past has fewer than 50 states. *)
Theorem pushState_keeps_the_latest_fifty newState h :
  let h' := useNetworkState.pushState newState h in
  (exists dropped,
      HistoryState.past h ++ [HistoryState.present h]
      = dropped ++ HistoryState.past h')
  /\ length (HistoryState.past h') = Nat.min 50 (S (length (HistoryState.past h)))
  /\ last (HistoryState.past h') = Some (HistoryState.present h)
  /\ HistoryState.present h' = newState
  /\ HistoryState.future h' = []
  /\ (committed h h' <-> (length (HistoryState.past h) < 50)%nat).
Proof.
  cbv zeta. unfold committed, useNetworkState.pushState, useNetworkState.sliceLast.
  cbn [HistoryState.past HistoryState.present HistoryState.future].
  set (l := HistoryState.past h ++ [HistoryState.present h]).
  assert (Hlen : length l = S (length (HistoryState.past h))).
  { unfold l. rewrite length_app. simpl. lia. }
  split; [exists (take (length l - 50) l); symmetry; apply take_drop|].
  split; [rewrite length_drop; lia|]. split.
  { unfold l at 2. rewrite drop_app_le by lia. apply last_snoc. }
  split; [done|]. split; [done|]. split.
  - intros [Hpast _]. apply (f_equal length) in Hpast.
    rewrite length_drop in Hpast. lia.
  - intros Hlt. split; [|done].
    replace (length l - 50)%nat with 0%nat by lia. done.
Qed.

(** ** Deleting *)

Lemma elem_of_filter_nodes (Q : NetworkNode.t -> bool) nodes n :
  n ∈ List.filter Q nodes <-> n ∈ nodes /\ Q n = true.
Proof. rewrite !list_elem_of_In, List.filter_In. done. Qed.

Lemma elem_of_filter_edges (Q : NetworkEdge.t -> bool) edges e :
  e ∈ List.filter Q edges <-> e ∈ edges /\ Q e = true.
Proof. rewrite !list_elem_of_In, List.filter_In. done. Qed.

Lemma NoDup_map_filter {A B : Type} (f : A -> B) (Q : A -> bool) (l : list A) :
  NoDup (map f l) -> NoDup (map f (List.filter Q l)).
Proof.
  induction l as [|a l IH]; simpl; [done|]. intros Hnd.
  apply NoDup_cons in Hnd as [Ha Hnd]. destruct (Q a); simpl; [|by apply IH].
  apply NoDup_cons. split; [|by apply IH].
  intros Hin. apply Ha. apply list_elem_of_fmap in Hin as (b & -> & Hb).
  apply list_elem_of_fmap. exists b. split; [done|].
  apply list_elem_of_In, List.filter_In in Hb as [Hb _]. by apply list_elem_of_In.
Qed.

Lemma findSource_filter (Q : NetworkNode.t -> bool) nodes s :
  findSource nodes = Some s -> Q s = true ->
  findSource (List.filter Q nodes) = Some s.
Proof.
  unfold findSource. induction nodes as [|n nodes IH]; simpl; [done|].
  destruct (isSource n) eqn:Hn.
  - intros [= ->] Hq. rewrite Hq. simpl. by rewrite Hn.
  - intros Hs Hq. destruct (Q n); simpl; [rewrite Hn|]; by apply IH.
Qed.

(** With distinct ids, looking a node up by its id finds that node. *)
Lemma find_by_id nodes n :
  NoDup (map NetworkNode.id nodes) -> n ∈ nodes ->
  List.find (fun m => String.eqb (NetworkNode.id m) (NetworkNode.id n)) nodes = Some n.
Proof.
  induction nodes as [|m nodes IH]; intros Hnd Hn; [by apply elem_of_nil in Hn|].
  simpl in Hnd. apply NoDup_cons in Hnd as [Hm Hnd]. simpl.
  apply elem_of_cons in Hn as [->|Hn].
  - by rewrite String.eqb_refl.
  - rewrite eqb_decide, bool_decide_eq_false_2; [by apply IH|].
    intros Heq. apply Hm. rewrite Heq. apply list_elem_of_fmap. by exists n.
Qed.

Lemma validEndpoints_filter_edges (Q : NetworkEdge.t -> bool) nodes edges :
  validEndpoints nodes edges -> validEndpoints nodes (List.filter Q edges).
Proof.
  unfold validEndpoints. rewrite !Forall_forall.
  intros H e He. apply elem_of_filter_edges in He as [He _]. by apply H.
Qed.

Lemma validEndpoints_delete_node id nodes edges :
  validEndpoints nodes edges ->
  validEndpoints
    (List.filter (fun n => negb (String.eqb (NetworkNode.id n) id)) nodes)
    (List.filter (fun e => negb (String.eqb (NetworkEdge.source e) id)
                           && negb (String.eqb (NetworkEdge.target e) id)) edges).
Proof.
  unfold validEndpoints. rewrite !Forall_forall.
  intros H e He. apply elem_of_filter_edges in He as [He Hq].
  apply andb_true_iff in Hq as [Hs Ht].
  apply negb_true_iff in Hs, Ht. rewrite eqb_decide, bool_decide_eq_false in Hs, Ht.
  destruct (H e He) as [Hsrc Htgt].
  assert (Hkeep : forall k, k ≠ id -> k ∈ map NetworkNode.id nodes ->
            k ∈ map NetworkNode.id
                  (List.filter (fun n => negb (String.eqb (NetworkNode.id n) id))
                     nodes)).
  { intros k Hk Hin. apply list_elem_of_fmap in Hin as (n & -> & Hn).
    apply list_elem_of_fmap. exists n. split; [done|].
    apply elem_of_filter_nodes. split; [done|].
    apply negb_true_iff. rewrite eqb_decide. by apply bool_decide_eq_false. }
  split; by apply Hkeep.
Qed.

(** On a network with distinct node ids, a SOURCE node and edges that end at
    nodes, [deleteSelection] keeps all three, whatever is selected: the first
    SOURCE node stays the first SOURCE node, no edge is left without one of
    its ends, and the solver returns on the network that results.  Deleting a
    node takes away every node of that id and every edge at it. *)
Theorem deleteSelection_keeps_the_network_sound selection h s :
  let nodes := NetworkState.nodes (HistoryState.present h) in
  let edges := NetworkState.edges (HistoryState.present h) in
  let h' := (useNetworkState.deleteSelection selection h).1 in
  let nodes' := NetworkState.nodes (HistoryState.present h') in
  let edges' := NetworkState.edges (HistoryState.present h') in
  NoDup (map NetworkNode.id nodes) ->
  findSource nodes = Some s ->
  validEndpoints nodes edges ->
  findSource nodes' = Some s
  /\ NoDup (map NetworkNode.id nodes')
  /\ validEndpoints nodes' edges'
  /\ (forall sourceKv, exists r, calculateLoadFlow nodes' edges' sourceKv = Return r)
  /\ (forall id,
        SelectionState.type selection = Some NODE ->
        SelectionState.id selection = Some id ->
        ~ protectedSelection selection nodes ->
        (id ∉ map NetworkNode.id nodes')
        /\ (forall e, e ∈ edges' ->
              NetworkEdge.source e ≠ id /\ NetworkEdge.target e ≠ id)).
Proof.
  cbv zeta. intros Hnd Hs Hvalid.
  set (nodes := NetworkState.nodes (HistoryState.present h)) in *.
  set (edges := NetworkState.edges (HistoryState.present h)) in *.
  assert (Hmain :
    findSource (NetworkState.nodes
                  (HistoryState.present (useNetworkState.deleteSelection selection h).1))
    = Some s
    /\ NoDup (map NetworkNode.id
                (NetworkState.nodes
                   (HistoryState.present
                      (useNetworkState.deleteSelection selection h).1)))
    /\ validEndpoints
         (NetworkState.nodes
            (HistoryState.present (useNetworkState.deleteSelection selection h).1))
         (NetworkState.edges
            (HistoryState.present (useNetworkState.deleteSelection selection h).1))).
  { unfold useNetworkState.deleteSelection.
    destruct (SelectionState.id selection) as [id|]; [|done].
    destruct (truthy id); [|done].
    unfold useNetworkState.deleteSelected. fold nodes edges.
    destruct (SelectionState.type selection) as [[|]|].
    - case_bool_decide as Hsrc; [done|].
      cbn [fst HistoryState.present NetworkState.nodes NetworkState.edges].
      split; [|split].
      + apply findSource_filter; [done|].
        apply negb_true_iff. rewrite eqb_decide. apply bool_decide_eq_false.
        intros <-. apply Hsrc.
        apply findSource_Some in Hs as [Hin Hty].
        by rewrite (find_by_id nodes s Hnd Hin), <- Hty.
      + by apply NoDup_map_filter.
      + by apply validEndpoints_delete_node.
    - cbn [fst HistoryState.present NetworkState.nodes NetworkState.edges].
      split; [done|]. split; [done|]. by apply validEndpoints_filter_edges.
    - done. }
  destruct Hmain as (Hs' & Hnd' & Hvalid').
  split; [done|]. split; [done|]. split; [done|]. split.
  { intros sourceKv. by eapply calculateLoadFlow_returns. }
  intros id Hty Hid Hnot.
  assert (Htr : truthy id = true).
  { apply truthy_spec. intros ->. apply Hnot. unfold protectedSelection.
    rewrite Hid. by left. }
  assert (Hnsrc : (NetworkNode.type
                     <$> List.find (fun n => String.eqb (NetworkNode.id n) id) nodes)
                  ≠ Some SOURCE).
  { intros Hsrc. apply Hnot. unfold protectedSelection. rewrite Hid. right.
    split; [done|]. fold nodes.
    destruct (List.find _ nodes) as [n|]; [|done].
    exists n. split; [done|]. by inversion Hsrc. }
  unfold useNetworkState.deleteSelection. rewrite Hid, Htr.
  unfold useNetworkState.deleteSelected. fold nodes edges. rewrite Hty.
  rewrite bool_decide_eq_false_2 by done.
  cbn [fst HistoryState.present NetworkState.nodes NetworkState.edges].
  split.
  - intros Hin. apply list_elem_of_fmap in Hin as (n & -> & Hn).
    apply elem_of_filter_nodes in Hn as [_ Hq].
    apply negb_true_iff in Hq. by rewrite String.eqb_refl in Hq.
  - intros e He. apply elem_of_filter_edges in He as [_ Hq].
    apply andb_true_iff in Hq as [Hq1 Hq2].
    apply negb_true_iff in Hq1, Hq2.
    rewrite eqb_decide, bool_decide_eq_false in Hq1, Hq2. done.
Qed.

Lemma deleteSelection_keeps_the_network_sound_witness :
  findSource
    (NetworkState.nodes
       (HistoryState.present
          (useNetworkState.deleteSelection
             (SelectionState.mk (Some NODE) (Some "n4")) INITIAL_HISTORY).1))
  = Some (NetworkNode.mk "n1" 100 300 "N1 (Source)" SOURCE 11 0 1 Industrial).
Proof.
  exact (proj1 (deleteSelection_keeps_the_network_sound
                  (SelectionState.mk (Some NODE) (Some "n4")) INITIAL_HISTORY _
                  INITIAL_NoDup INITIAL_source INITIAL_valid)).
Defined.

(** ** Branching *)

Lemma findSource_app nodes l s :
  findSource nodes = Some s -> findSource (nodes ++ l) = Some s.
Proof.
  unfold findSource. induction nodes as [|n nodes IH]; simpl; [done|].
  destruct (isSource n); [done|]. apply IH.
Qed.

Lemma Reachable_mono edges edges' src k :
  (forall e, e ∈ edges -> e ∈ edges') ->
  Reachable edges src k -> Reachable edges' src k.
Proof.
  intros Hsub. induction 1 as [|a b e _ IH He Hc]; [constructor|].
  eapply reach_step; [exact IH | by apply Hsub | done].
Qed.

Lemma find_id_Some nodes id n :
  List.find (fun m => String.eqb (NetworkNode.id m) id) nodes = Some n ->
  n ∈ nodes /\ NetworkNode.id n = id.
Proof.
  intros H. apply find_some in H as [Hin Hid].
  split; [by apply list_elem_of_In|]. by apply String.eqb_eq.
Qed.

(** [createBranch] on a node that exists appends one LOAD node of 10 kVA at
    power factor 0.9, whose id is "n" followed by the first clock reading,
    and one 200 m rabbit edge from the branching node to it.  The first
    SOURCE node stays the first SOURCE node, edges still end at nodes, what
    was reachable from the source stays reachable, and the new node is
    reachable when the node it branches from is.  The ids stay distinct if
    the new id is not in use: the function does not check that. *)
Theorem createBranch_keeps_the_network_sound now1 now2 id kv h anchor :
  let nodes := NetworkState.nodes (HistoryState.present h) in
  let edges := NetworkState.edges (HistoryState.present h) in
  let h' := useNetworkState.createBranch now1 now2 id kv h in
  let nodes' := NetworkState.nodes (HistoryState.present h') in
  let edges' := NetworkState.edges (HistoryState.present h') in
  let newId := "n" +:+ pretty now1 in
  List.find (fun n => String.eqb (NetworkNode.id n) id) nodes = Some anchor ->
  nodes' = nodes ++ [NetworkNode.mk newId (NetworkNode.x anchor + 100)
                       (NetworkNode.y anchor + 50)
                       ("N" +:+ pretty (length nodes + 1)%nat)
                       LOAD kv 10 (9 / 10) Residential]
  /\ edges' = edges ++ [NetworkEdge.mk ("e" +:+ pretty now2) id newId 200 "rabbit"]
  /\ (forall s, findSource nodes = Some s -> findSource nodes' = Some s)
  /\ (validEndpoints nodes edges -> validEndpoints nodes' edges')
  /\ (forall src k, Reachable edges src k -> Reachable edges' src k)
  /\ (forall src, Reachable edges src id -> Reachable edges' src newId)
  /\ (NoDup (map NetworkNode.id nodes) -> newId ∉ map NetworkNode.id nodes ->
      NoDup (map NetworkNode.id nodes')).
Proof.
  cbv zeta. intros Hfind. unfold useNetworkState.createBranch. rewrite Hfind.
  cbn [HistoryState.present NetworkState.nodes NetworkState.edges].
  apply find_id_Some in Hfind as [Hin Hid].
  split; [done|]. split; [done|]. split; [|split; [|split; [|split]]].
  - intros s Hs. by apply findSource_app.
  - unfold validEndpoints. rewrite !Forall_forall. intros Hvalid e He.
    rewrite !map_app. apply elem_of_app in He as [He|He].
    + destruct (Hvalid e He) as [H1 H2]. split; apply elem_of_app; by left.
    + apply list_elem_of_singleton in He. subst e. simpl. split.
      * apply elem_of_app. left. apply list_elem_of_fmap. by exists anchor.
      * apply elem_of_app. right. in_list.
  - intros src k. apply Reachable_mono. intros e He. apply elem_of_app. by left.
  - intros src Hreach.
    apply (reach_step _ _ id _
             (NetworkEdge.mk ("e" +:+ pretty now2) id ("n" +:+ pretty now1) 200
                "rabbit")); [| |left; split; reflexivity].
    + eapply Reachable_mono; [|exact Hreach]. intros e He. apply elem_of_app. by left.
    + apply elem_of_app. right. in_list.
  - intros Hnd Hfresh. rewrite map_app. simpl.
    apply NoDup_app. split; [done|]. split; [|apply NoDup_singleton].
    intros k Hk Hk'. apply list_elem_of_singleton in Hk'. by subst k.
Qed.

Lemma createBranch_keeps_the_network_sound_witness :
  NetworkState.edges
    (HistoryState.present
       (useNetworkState.createBranch 1762076400123 1762076400124 "n6" 11
          INITIAL_HISTORY))
  = INITIAL_EDGES
    ++ [NetworkEdge.mk "e1762076400124" "n6" "n1762076400123" 200 "rabbit"].
Proof.
  exact (proj1 (proj2 (createBranch_keeps_the_network_sound
                         1762076400123 1762076400124 "n6" 11 INITIAL_HISTORY _
                         eq_refl))).
Defined.

Lemma filter_keeps_all {A : Type} (f : A -> bool) (l : list A) :
  (forall a, a ∈ l -> f a = true) -> List.filter f l = l.
Proof.
  induction l as [|a l IH]; intros H; simpl; [done|].
  rewrite (H a) by apply list_elem_of_here. f_equal. apply IH.
  intros b Hb. apply H. by apply list_elem_of_further.
Qed.

Lemma find_fresh_id nodes id :
  id ∉ map NetworkNode.id nodes ->
  List.find (fun m => String.eqb (NetworkNode.id m) id) nodes = None.
Proof.
  intros Hfresh.
  destruct (List.find (fun m => String.eqb (NetworkNode.id m) id) nodes)
    as [m|] eqn:Hfind; [|done].
  apply find_id_Some in Hfind as [Hm Hid]. destruct Hfresh.
  apply list_elem_of_fmap. by exists m.
Qed.

Lemma find_app_None {A : Type} (f : A -> bool) (l l' : list A) :
  List.find f l = None -> List.find f (l ++ l') = List.find f l'.
Proof.
  induction l as [|a l IH]; simpl; [done|]. destruct (f a); [done|]. apply IH.
Qed.

Lemma INITIAL_fresh_id : "n1762076400123" ∉ map NetworkNode.id INITIAL_NODES.
Proof.
  simpl. rewrite !not_elem_of_cons. repeat split; try discriminate.
  apply not_elem_of_nil.
Qed.

(** Deleting the node that [createBranch] has just added gives back the
    nodes and the edges there were before, as one more step of the history,
    and clears the selection: provided the edges ended at nodes and the id
    made from the clock reading was not in use.  If that id was in use, the
    deletion removes the older node of that id as well. *)
Theorem deleting_a_new_branch_restores_the_network now1 now2 id kv h anchor :
  let nodes := NetworkState.nodes (HistoryState.present h) in
  let edges := NetworkState.edges (HistoryState.present h) in
  let newId := "n" +:+ pretty now1 in
  let h1 := useNetworkState.createBranch now1 now2 id kv h in
  let selection := SelectionState.mk (Some NODE) (Some newId) in
  let h2 := (useNetworkState.deleteSelection selection h1).1 in
  List.find (fun n => String.eqb (NetworkNode.id n) id) nodes = Some anchor ->
  (validEndpoints nodes edges -> newId ∉ map NetworkNode.id nodes ->
   useNetworkState.deleteSelection selection h1
   = (HistoryState.mk
        (HistoryState.past h ++ [HistoryState.present h; HistoryState.present h1])
        (HistoryState.present h) [],
      SelectionState.mk None None))
  /\ (forall n, n ∈ nodes -> NetworkNode.id n = newId ->
      h2 = h1 \/ n ∉ NetworkState.nodes (HistoryState.present h2)).
Proof.
  cbv zeta. intros Hfind. unfold useNetworkState.createBranch. rewrite Hfind.
  unfold useNetworkState.deleteSelection.
  cbn [SelectionState.id HistoryState.present NetworkState.nodes NetworkState.edges].
  replace (truthy ("n" +:+ pretty now1)) with true by reflexivity.
  unfold useNetworkState.deleteSelected.
  cbn [SelectionState.type HistoryState.present HistoryState.past
       NetworkState.nodes NetworkState.edges].
  split.
  - intros Hvalid Hfresh.
    rewrite (find_app_None _ _ _ (find_fresh_id _ _ Hfresh)).
    cbn [List.find NetworkNode.id]. rewrite String.eqb_refl.
    rewrite bool_decide_eq_false_2 by (cbn; discriminate).
    rewrite !List.filter_app.
    rewrite (filter_keeps_all _ (NetworkState.nodes (HistoryState.present h))).
    2:{ intros n Hn. rewrite eqb_decide, negb_true_iff, bool_decide_eq_false.
        intros Heq. apply Hfresh. rewrite <- Heq. apply list_elem_of_fmap.
        by exists n. }
    rewrite (filter_keeps_all _ (NetworkState.edges (HistoryState.present h))).
    2:{ intros e He. unfold validEndpoints in Hvalid.
        rewrite Forall_forall in Hvalid. destruct (Hvalid e He) as [H1 H2].
        rewrite !eqb_decide, andb_true_iff, !negb_true_iff,
          !bool_decide_eq_false.
        split; intros Heq; apply Hfresh; by rewrite <- Heq. }
    cbn [List.filter NetworkNode.id NetworkEdge.source NetworkEdge.target].
    rewrite String.eqb_refl, andb_false_r. cbn [negb]. rewrite !app_nil_r.
    rewrite <- app_assoc. cbn [app].
    by destruct h as [past [nodes edges] future].
  - intros n Hn Hid.
    change (truthy ("n" +:+ pretty now1)) with true. cbv iota.
    destruct (bool_decide _); [by left|]. right.
    cbn [fst HistoryState.present NetworkState.nodes].
    rewrite list_elem_of_In, List.filter_In. intros [_ Hkeep].
    rewrite Hid, String.eqb_refl in Hkeep. discriminate.
Qed.

Lemma deleting_a_new_branch_restores_the_network_witness :
  useNetworkState.deleteSelection
    (SelectionState.mk (Some NODE) (Some "n1762076400123"))
    (useNetworkState.createBranch 1762076400123 1762076400124 "n6" 11
       INITIAL_HISTORY)
  = (HistoryState.mk
       [HistoryState.present INITIAL_HISTORY;
        HistoryState.present
          (useNetworkState.createBranch 1762076400123 1762076400124 "n6" 11
             INITIAL_HISTORY)]
       (HistoryState.present INITIAL_HISTORY) [],
     SelectionState.mk None None).
Proof.
  apply (proj1 (deleting_a_new_branch_restores_the_network
                  1762076400123 1762076400124 "n6" 11 INITIAL_HISTORY _ eq_refl)).
  - exact INITIAL_valid.
  - exact INITIAL_fresh_id.
Defined.

(** ** Updating by id *)

Lemma map_replace_ids {A : Type} (key : A -> string) (u : A) (l : list A) :
  map key (map (fun a => if String.eqb (key a) (key u) then u else a) l)
  = map key l.
Proof.
  induction l as [|a l IH]; simpl; [done|]. rewrite IH. f_equal.
  rewrite eqb_decide. by case_bool_decide.
Qed.

Lemma find_replaced {A : Type} (key : A -> string) (u : A) (l : list A) :
  key u ∈ map key l ->
  List.find (fun a => String.eqb (key a) (key u))
    (map (fun a => if String.eqb (key a) (key u) then u else a) l)
  = Some u.
Proof.
  induction l as [|a l IH]; simpl; intros Hin; [by apply elem_of_nil in Hin|].
  destruct (String.eqb (key a) (key u)) eqn:Ha.
  - by rewrite String.eqb_refl.
  - rewrite Ha. apply IH. apply elem_of_cons in Hin as [Heq|Hin]; [|done].
    rewrite eqb_decide, bool_decide_eq_false in Ha. congruence.
Qed.

Lemma elem_of_replaced {A : Type} (key : A -> string) (u a : A) (l : list A) :
  a ∈ l -> key a ≠ key u ->
  a ∈ map (fun a => if String.eqb (key a) (key u) then u else a) l.
Proof.
  intros Ha Hne. apply list_elem_of_fmap. exists a. split; [|done].
  by rewrite eqb_decide, bool_decide_eq_false_2.
Qed.

(** [updateNode] puts the given node in the place of every node that has its
    id and touches nothing else: the list of node ids and the edges stay as
    they are, so edges still end at nodes; nodes of other ids stay; and, if
    the id is in use, looking it up afterwards finds the given node.
    [updateEdge] does the same for edges. *)
Theorem update_replaces_what_has_the_id h :
  (forall u,
     let nodes := NetworkState.nodes (HistoryState.present h) in
     let net' := HistoryState.present (useNetworkState.updateNode u h) in
     map NetworkNode.id (NetworkState.nodes net') = map NetworkNode.id nodes
     /\ NetworkState.edges net' = NetworkState.edges (HistoryState.present h)
     /\ (validEndpoints nodes (NetworkState.edges (HistoryState.present h)) ->
         validEndpoints (NetworkState.nodes net') (NetworkState.edges net'))
     /\ (forall n, n ∈ nodes -> NetworkNode.id n ≠ NetworkNode.id u ->
                   n ∈ NetworkState.nodes net')
     /\ (NetworkNode.id u ∈ map NetworkNode.id nodes ->
         List.find (fun n => String.eqb (NetworkNode.id n) (NetworkNode.id u))
           (NetworkState.nodes net') = Some u))
  /\ (forall u,
        let edges := NetworkState.edges (HistoryState.present h) in
        let net' := HistoryState.present (useNetworkState.updateEdge u h) in
        map NetworkEdge.id (NetworkState.edges net') = map NetworkEdge.id edges
        /\ NetworkState.nodes net' = NetworkState.nodes (HistoryState.present h)
        /\ (forall e, e ∈ edges -> NetworkEdge.id e ≠ NetworkEdge.id u ->
                      e ∈ NetworkState.edges net')
        /\ (NetworkEdge.id u ∈ map NetworkEdge.id edges ->
            List.find (fun e => String.eqb (NetworkEdge.id e) (NetworkEdge.id u))
              (NetworkState.edges net') = Some u)).
Proof.
  split; intros u; cbv zeta; unfold useNetworkState.updateNode,
    useNetworkState.updateEdge;
    cbn [HistoryState.present NetworkState.nodes NetworkState.edges].
  - split; [apply (map_replace_ids NetworkNode.id)|]. split; [done|]. split.
    { unfold validEndpoints. by rewrite (map_replace_ids NetworkNode.id). }
    split; [intros n; apply (elem_of_replaced NetworkNode.id)|].
    apply (find_replaced NetworkNode.id).
  - split; [apply (map_replace_ids NetworkEdge.id)|]. split; [done|].
    split; [intros e; apply (elem_of_replaced NetworkEdge.id)|].
    apply (find_replaced NetworkEdge.id).
Qed.

(** ** Moving a node *)

Lemma moved_Forall2 id x y nodes :
  Forall2 (fun n n' => sameElectricalData n n'
                       /\ NetworkNode.baseKv n = NetworkNode.baseKv n')
    nodes
    (map (fun n => if String.eqb (NetworkNode.id n) id
                   then useNetworkState.moveTo x y n else n) nodes).
Proof.
  induction nodes as [|n nodes IH]; simpl; constructor; [|done].
  destruct (String.eqb (NetworkNode.id n) id); by repeat split.
Qed.

Lemma App_sourceKv_Forall2 nodes nodes' :
  Forall2 (fun n n' => sameElectricalData n n'
                       /\ NetworkNode.baseKv n = NetworkNode.baseKv n')
    nodes nodes' ->
  App.sourceKv nodes = App.sourceKv nodes'.
Proof.
  intros H. unfold App.sourceKv.
  destruct (findSource_Forall2 _ nodes nodes'
              (fun n n' Hn => proj1 (proj2 (proj1 Hn))) H) as [s s' [_ Hkv]|];
    [by rewrite Hkv | done].
Qed.

(** Moving a node changes the coordinates of the nodes of that id and nothing
    else in the network, and the results the application derives from the
    network stay the same. *)
Theorem moving_a_node_keeps_the_results id x y h :
  let net := HistoryState.present h in
  let net' := HistoryState.present (useNetworkState.updateNodeMove id x y h) in
  App.results (NetworkState.nodes net') (NetworkState.edges net')
  = App.results (NetworkState.nodes net) (NetworkState.edges net)
  /\ NetworkState.edges net' = NetworkState.edges net
  /\ Forall2 (fun n n' =>
               n' = (if String.eqb (NetworkNode.id n) id
                     then useNetworkState.moveTo x y n else n))
       (NetworkState.nodes net) (NetworkState.nodes net').
Proof.
  cbv zeta. unfold useNetworkState.updateNodeMove.
  cbn [HistoryState.present NetworkState.nodes NetworkState.edges].
  split; [|split; [done|]].
  - pose proof (moved_Forall2 id x y (NetworkState.nodes (HistoryState.present h)))
      as H.
    unfold App.results. rewrite <- (App_sourceKv_Forall2 _ _ H).
    rewrite <- (calculateLoadFlow_Forall2 _ _ _ _
                  (Forall2_impl _ _ _ _ H (fun n n' Hn => proj1 Hn))).
    done.
  - induction (NetworkState.nodes (HistoryState.present h)) as [|n l IH]; simpl;
      by constructor.
Qed.

(** * Properties of the caller *)

Lemma App_sourceKv_nonzero nodes : App.sourceKv nodes ≠ 0%R.
Proof.
  unfold App.sourceKv. destruct (findSource nodes) as [s|]; [|lra].
  unfold orElse. destruct (Req_dec_T (NetworkNode.baseKv s) 0); [lra|done].
Qed.

(** The application never hands the solver a source voltage of 0: it is the
    base voltage of the first SOURCE node, and 11 when there is no SOURCE
    node or that base voltage is 0.  The results it shows are the solver's
    whenever the solver returns, and the empty results of the [catch] branch
    (no entries, every figure 0, also the minimum voltage and the
    efficiency) exactly when it throws: without a SOURCE node, and with one
    when an edge leads from the source's part of the network to an id that no
    node has. *)
Theorem results_are_the_solvers_or_empty nodes edges :
  App.sourceKv nodes ≠ 0%R
  /\ (findSource nodes = None ->
      App.sourceKv nodes = 11%R /\ App.results nodes edges = App.EMPTY_RESULTS)
  /\ (forall s, findSource nodes = Some s ->
        App.sourceKv nodes = orElse (NetworkNode.baseKv s) 11
        /\ ((forall k, Reachable edges (NetworkNode.id s) k ->
                       k ∈ map NetworkNode.id nodes) ->
            calculateLoadFlow nodes edges (App.sourceKv nodes)
            = Return (App.results nodes edges)
            /\ App.results nodes edges ≠ App.EMPTY_RESULTS)
        /\ (forall k, Reachable edges (NetworkNode.id s) k ->
                      k ∉ map NetworkNode.id nodes ->
                      App.results nodes edges = App.EMPTY_RESULTS)).
Proof.
  split; [apply App_sourceKv_nonzero|]. split.
  - intros Hs. unfold App.results, App.sourceKv. rewrite Hs.
    by rewrite (calculateLoadFlow_Throw _ _ _ Hs).
  - intros s Hs. split; [unfold App.sourceKv; by rewrite Hs|]. split.
    + intros Hvalid.
      destruct (calculateLoadFlow_returns_reachable nodes edges (App.sourceKv nodes)
                  s Hs Hvalid) as [r Hr].
      unfold App.results. rewrite Hr. split; [done|].
      destruct (calculateLoadFlow_phases _ _ _ _ _ Hs Hr)
        as (acc & fwd & _ & Hinv & ->).
      intros Heq. apply (f_equal lf_nodeResults) in Heq.
      cbn [lf_nodeResults assemble App.EMPTY_RESULTS] in Heq.
      pose proof (fwd_root _ _ _ _ _ _ Hinv) as Hroot.
      rewrite Heq, lookup_empty in Hroot. discriminate Hroot.
    + intros k Hk Hnot. unfold App.results.
      by rewrite (calculateLoadFlow_dangling _ _ _ _ _ Hs Hk Hnot).
Qed.
